(** * MCPQL: the query-safety gate

  A shallow embedding of the security code of the MCPQL SQL Server tool
  server, and the properties of its specification that it settles.

  Sources embedded here:
  - [security.ts]      feature flags, [containsModificationOperations],
                       [validateQueryPermission], [validateStoredProcedurePermission];
  - [securityUtils.ts] [analyzeQuery], [estimateImpact], [logSecurityEvent],
                       the pending-operation store and the confirmation message;
  - [tools/dataOperations.ts] in its two generations: the flag-validating
                       entry points ([Module FlagGate]) and the
                       confirmation-token entry points ([Module TokenGate]).

  Texts are embedded on ASCII: a [string] stands for the JavaScript
  string with the same characters, all below 128 ([JsString.asciiText]).
  On such texts [\s], [.], [\w], [trim] and [toUpperCase] below are
  ECMAScript's; outside them ECMAScript knows further white space (U+00A0,
  U+FEFF, U+2028, ...), further line terminators and further case pairs,
  which the embedding does not cover.  A property of a text that passes
  through one of these is therefore stated for ASCII texts. *)

From Stdlib Require Import ZArith Ascii String List Bool Lia.
From Stdlib Require Import DecimalString.
From stdpp Require Import gmap strings list.

Local Open Scope Z_scope.
Local Open Scope string_scope.

(** ** JavaScript string primitives *)

Module JsString.

(** The texts covered: every character is below 128. *)
Definition isAscii (c : ascii) : bool := (N_of_ascii c <? 128)%N.

Definition asciiText (s : string) : Prop :=
  forallb isAscii (list_ascii_of_string s) = true.

(** [\s] of a JavaScript regular expression, and the characters [trim]
    removes, among the characters below 128: TAB, LF, VT, FF, CR and
    SPACE. *)
Definition is_space (c : ascii) : bool :=
  match N_of_ascii c with
  | 9%N | 10%N | 11%N | 12%N | 13%N | 32%N => true
  | _ => false
  end.

(** Line terminators below 128, LF and CR: what [.] refuses and where
    [$] stops under [m]. *)
Definition is_newline (c : ascii) : bool :=
  match N_of_ascii c with
  | 10%N | 13%N => true
  | _ => false
  end.

(** [\w] is [A-Za-z0-9_]. *)
Definition is_word (c : ascii) : bool :=
  let n := N_of_ascii c in
  ((65 <=? n) && (n <=? 90) || (97 <=? n) && (n <=? 122)
   || (48 <=? n) && (n <=? 57) || (n =? 95))%N.

(** [toUpperCase] on ASCII text: the letters a-z are folded, every other
    character below 128 is kept. *)
Definition upper (c : ascii) : ascii :=
  let n := N_of_ascii c in
  if ((97 <=? n) && (n <=? 122))%N then ascii_of_N (n - 32) else c.

Fixpoint toUpperCase (s : string) : string :=
  match s with
  | EmptyString => EmptyString
  | String c s' => String (upper c) (toUpperCase s')
  end.

Fixpoint trimStart (s : string) : string :=
  match s with
  | EmptyString => EmptyString
  | String c s' => if is_space c then trimStart s' else s
  end.

(** [trimEnd]: a character is kept when it is not a space or when
    something is kept after it. *)
Fixpoint trimEnd (s : string) : string :=
  match s with
  | EmptyString => EmptyString
  | String c s' =>
      match trimEnd s' with
      | EmptyString => if is_space c then EmptyString else String c EmptyString
      | t => String c t
      end
  end.

Definition trim (s : string) : string := trimEnd (trimStart s).

(** [s.startsWith(p)] *)
Definition startsWith (s p : string) : bool := String.prefix p s.

(** [s.substring(0, n)] *)
Definition substring0 (n : nat) (s : string) : string := String.substring 0 n s.

(** [s.split(/\s+/)[0]]: the text before the first run of white space
    (the whole string when there is none, the empty string when the string
    starts with white space). *)
Fixpoint firstToken (s : string) : string :=
  match s with
  | EmptyString => EmptyString
  | String c s' => if is_space c then EmptyString else String c (firstToken s')
  end.

(** [xs.some(p)] *)
Definition some {A} (p : A -> bool) (xs : list A) : bool := existsb p xs.

(** [String(n)] for an integer. *)
Definition ofZ (z : Z) : string := NilZero.string_of_int (Z.to_int z).

Definition ofBool (b : bool) : string := if b then "true" else "false".

End JsString.

(** ** A backtracking matcher for the regular expressions of the source

  The regular expressions of [security.ts], [securityUtils.ts] and
  [dataOperations.ts] quantify single-character classes only ([\s+], [\w+],
  [.*], [.*?], [[\s\S]*?]) and make single characters or one group
  optional.  The matcher follows the ECMAScript backtracking order:
  alternatives left to right, greedy quantifiers longest first, lazy ones
  shortest first. *)

Module Regex.
Import JsString.

Inductive regex : Type :=
| Eps                                   (* the empty pattern *)
| Chr (c : ascii)                       (* a literal character *)
| Cls (p : ascii -> bool)               (* a character class *)
| Bol                                   (* ^ *)
| Eol                                   (* $ *)
| WordB                                 (* \b *)
| Seq (r1 r2 : regex)
| Alt (r1 r2 : regex)
| Star (greedy : bool) (p : ascii -> bool)  (* p* and p*? *)
| Opt (r : regex)                       (* r? *)
| Group (n : nat) (r : regex).          (* the n-th capturing group *)

Record flags : Type := { ignoreCase : bool; multiline : bool }.

(** A position in the subject: the characters already passed (latest
    first), the characters ahead, and the groups captured so far. *)
Record mstate : Type :=
  { seen : list ascii; rest : string; caps : list (nat * string) }.

(** [.]: any character but a line terminator (LF and CR on ASCII text). *)
Definition dot (c : ascii) : bool := negb (is_newline c).
Definition any (c : ascii) : bool := true.

Definition chr_ok (fl : flags) (c x : ascii) : bool :=
  if ignoreCase fl then Ascii.eqb (upper c) (upper x) else Ascii.eqb c x.

Definition at_bol (fl : flags) (st : mstate) : bool :=
  match seen st with
  | [] => true
  | c :: _ => multiline fl && is_newline c
  end.

Definition at_eol (fl : flags) (st : mstate) : bool :=
  match rest st with
  | EmptyString => true
  | String c _ => multiline fl && is_newline c
  end.

Definition at_wordb (st : mstate) : bool :=
  xorb (match seen st with [] => false | c :: _ => is_word c end)
       (match rest st with EmptyString => false | String c _ => is_word c end).

(** The text passed between two positions of one run. *)
Definition consumed (st st' : mstate) : string :=
  string_of_list_ascii
    (rev (firstn (length (seen st') - length (seen st)) (seen st'))).

Definition one (p : ascii -> bool) (st : mstate)
    (k : mstate -> option mstate) : option mstate :=
  match rest st with
  | String x t =>
      if p x then k {| seen := x :: seen st; rest := t; caps := caps st |}
      else None
  | EmptyString => None
  end.

Fixpoint star (greedy : bool) (p : ascii -> bool) (sn : list ascii)
    (rs : string) (cs : list (nat * string))
    (k : mstate -> option mstate) : option mstate :=
  let here := {| seen := sn; rest := rs; caps := cs |} in
  match rs with
  | EmptyString => k here
  | String x t =>
      if p x then
        if greedy then
          match star greedy p (x :: sn) t cs k with
          | Some e => Some e
          | None => k here
          end
        else
          match k here with
          | Some e => Some e
          | None => star greedy p (x :: sn) t cs k
          end
      else k here
  end.

Fixpoint run (fl : flags) (r : regex) (st : mstate)
    (k : mstate -> option mstate) : option mstate :=
  match r with
  | Eps => k st
  | Chr c => one (chr_ok fl c) st k
  | Cls p => one p st k
  | Bol => if at_bol fl st then k st else None
  | Eol => if at_eol fl st then k st else None
  | WordB => if at_wordb st then k st else None
  | Seq r1 r2 => run fl r1 st (fun st' => run fl r2 st' k)
  | Alt r1 r2 =>
      match run fl r1 st k with
      | Some e => Some e
      | None => run fl r2 st k
      end
  | Star g p => star g p (seen st) (rest st) (caps st) k
  | Opt r1 =>
      match run fl r1 st k with
      | Some e => Some e
      | None => k st
      end
  | Group n r1 =>
      run fl r1 st (fun st' =>
        k {| seen := seen st'; rest := rest st';
             caps := (n, consumed st st') :: caps st' |})
  end.

(** A literal word, and [p+]. *)
Fixpoint lit (s : string) : regex :=
  match s with
  | EmptyString => Eps
  | String c t => Seq (Chr c) (lit t)
  end.

Definition plus (p : ascii -> bool) : regex := Seq (Cls p) (Star true p).

Fixpoint seq (rs : list regex) : regex :=
  match rs with
  | [] => Eps
  | r :: rs' => Seq r (seq rs')
  end.

Fixpoint alt (r : regex) (rs : list regex) : regex :=
  match rs with
  | [] => r
  | r' :: rs' => Alt r (alt r' rs')
  end.

(** [w1|w2|...] over literal words; no word, no match. *)
Definition oneOf (ws : list string) : regex :=
  match ws with
  | [] => Cls (fun _ => false)
  | w :: ws' => alt (lit w) (map lit ws')
  end.

(** One attempt at the position [(sn, rs)]. *)
Definition matchAt (fl : flags) (r : regex) (sn : list ascii) (rs : string)
    : option mstate :=
  run fl r {| seen := sn; rest := rs; caps := [] |} Some.

(** A successful match: the text before it, the matched text, the text
    after it and the captured groups. *)
Record found : Type :=
  { before : string; matched : string; after : string;
    groups : list (nat * string) }.

Definition mkFound (sn : list ascii) (e : mstate) : found :=
  {| before := string_of_list_ascii (rev sn);
     matched := consumed {| seen := sn; rest := ""; caps := [] |} e;
     after := rest e; groups := caps e |}.

(** [r.exec(s)] without the [g] flag: the leftmost match. *)
Fixpoint execFrom (fl : flags) (r : regex) (sn : list ascii) (rs : string)
    : option found :=
  match matchAt fl r sn rs with
  | Some e => Some (mkFound sn e)
  | None =>
      match rs with
      | EmptyString => None
      | String c t => execFrom fl r (c :: sn) t
      end
  end.

Definition exec (fl : flags) (r : regex) (s : string) : option found :=
  execFrom fl r [] s.

(** [r.test(s)] *)
Definition test (fl : flags) (r : regex) (s : string) : bool :=
  match exec fl r s with Some _ => true | None => false end.

(** The n-th group of a match, [undefined] when it did not take part. *)
Definition group (n : nat) (f : found) : option string :=
  snd <$> List.find (fun c => Nat.eqb (fst c) n) (groups f).

(** [s.replace(r, by)] without the [g] flag; [by] holds no [$]. *)
Definition replaceFirst (fl : flags) (r : regex) (s by_ : string) : string :=
  match exec fl r s with
  | Some f => before f +:+ by_ +:+ after f
  | None => s
  end.

(** [s.match(r)] with the [g] flag: every match, left to right, each
    attempt starting where the previous match ended (one further after an
    empty match).  [skip] counts the characters still inside the previous
    match. *)
Fixpoint matchAllFrom (fl : flags) (r : regex) (skip : nat)
    (sn : list ascii) (rs : string) : list string :=
  match skip with
  | S n =>
      match rs with
      | EmptyString => []
      | String c t => matchAllFrom fl r n (c :: sn) t
      end
  | O =>
      match matchAt fl r sn rs with
      | Some e =>
          let m := matched (mkFound sn e) in
          m :: match rs with
               | EmptyString => []
               | String c t =>
                   matchAllFrom fl r (String.length m - 1) (c :: sn) t
               end
      | None =>
          match rs with
          | EmptyString => []
          | String c t => matchAllFrom fl r 0 (c :: sn) t
          end
      end
  end.

Definition matchAll (fl : flags) (r : regex) (s : string) : list string :=
  matchAllFrom fl r 0 [] s.

(** [s.replace(r, by)] with the [g] flag. *)
Fixpoint replaceAllFrom (fl : flags) (r : regex) (by_ : string) (skip : nat)
    (sn : list ascii) (rs : string) : string :=
  match skip with
  | S n =>
      match rs with
      | EmptyString => EmptyString
      | String c t => replaceAllFrom fl r by_ n (c :: sn) t
      end
  | O =>
      match matchAt fl r sn rs with
      | Some e =>
          let m := matched (mkFound sn e) in
          by_ +:+
          match rs with
          | EmptyString => EmptyString
          | String c t =>
              match String.length m with
              | O => String c (replaceAllFrom fl r by_ 0 (c :: sn) t)
              | S n => replaceAllFrom fl r by_ n (c :: sn) t
              end
          end
      | None =>
          match rs with
          | EmptyString => EmptyString
          | String c t => String c (replaceAllFrom fl r by_ 0 (c :: sn) t)
          end
      end
  end.

Definition replaceAll (fl : flags) (r : regex) (s by_ : string) : string :=
  replaceAllFrom fl r by_ 0 [] s.

Definition plain : flags := {| ignoreCase := false; multiline := false |}.
Definition icase : flags := {| ignoreCase := true; multiline := false |}.
Definition mline : flags := {| ignoreCase := false; multiline := true |}.

End Regex.

(** ** The database handle, the clock and the world

  The connection pool is a collaborator: it answers a statement with a
  result or rejects it with an error message, possibly depending on what it
  was sent before.  [db_calls] records every statement sent through it.
  The server connects ([connectDB]) before it dispatches a tool, so
  [getPool()] is the connected handle. *)

(** A recordset row: column name and numeric value (the gate reads counts). *)
Definition Row : Type := list (string * Z).

(** Stored-procedure parameters: name and value, the value as its JSON text. *)
Definition ParamObject : Type := list (string * string).

Record QueryResult : Type :=
{ recordset : option (list Row);          (* [undefined] for a statement without rows *)
  rowsAffected : option (list Z) }.

Inductive DbCall : Type :=
| Query (text : string)                     (* pool.request().query(text) *)
| Execute (sp : string) (inputs : ParamObject).  (* request.input(..)..; request.execute(sp) *)

Definition Pool : Type := list DbCall -> DbCall -> QueryResult + string.

Inductive RiskLevel : Type := LOW | MEDIUM | HIGH.

Inductive AuditResult : Type := SUCCESS | FAILED | CANCELLED.

(** An entry of [security_audit.log], as [logSecurityEvent] writes it. *)
Record LogEntry : Type :=
{ log_timestamp : Z;
  log_operation : string;
  log_sql : string;
  log_riskLevel : RiskLevel;
  log_userConfirmed : bool;
  log_estimatedRows : option Z;
  log_affectedTables : option (list string);
  log_result : option AuditResult;
  log_error : option string }.

(** What a proposal hands to [storePendingOperation]. *)
Record Operation : Type :=
{ op_sql : string;
  op_operation : string;
  op_riskLevel : RiskLevel;
  op_estimatedRows : Z;
  op_affectedTables : list string;
  op_spName : option string;
  op_params : option ParamObject }.

(** A value of the [pendingOperations] map: [{...operation, timestamp}]. *)
Record PendingOp : Type :=
{ p_operation : Operation;
  p_timestamp : Z }.                      (* milliseconds, [Date.getTime()] *)

Record Env : Type :=
{ ALLOW_MODIFICATIONS : bool;             (* SECURITY_CONFIG.ALLOW_MODIFICATIONS *)
  ALLOW_STORED_PROCEDURES : bool;         (* SECURITY_CONFIG.ALLOW_STORED_PROCEDURES *)
  pool : Pool;
  clock : nat -> Z;                       (* the n-th reading of the clock, in ms *)
  random : nat -> string }.               (* the n-th Math.random().toString(36).substring(2, 8) *)

Record World : Type :=
{ pendingOperations : gmap string PendingOp;
  security_audit_log : list LogEntry;     (* oldest first *)
  db_calls : list DbCall;                 (* oldest first *)
  clock_reads : nat;
  random_reads : nat }.

Definition emptyWorld : World :=
{| pendingOperations := ∅; security_audit_log := []; db_calls := [];
   clock_reads := 0; random_reads := 0 |}.

(** ** Computations that read and change the world and may throw *)

Inductive outcome (A : Type) : Type :=
| Returned (a : A)
| Thrown (message : string).
Arguments Returned {A} a.
Arguments Thrown {A} message.

Definition M (A : Type) : Type := World -> outcome A * World.

Definition ret {A} (a : A) : M A := fun w => (Returned a, w).

Definition bind {A B} (m : M A) (k : A -> M B) : M B :=
fun w =>
  match m w with
  | (Returned a, w') => k a w'
  | (Thrown e, w') => (Thrown e, w')
  end.

(** [try { m } catch (error) { h error.message }] *)
Definition try_catch {A} (m : M A) (h : string -> M A) : M A :=
fun w =>
  match m w with
  | (Returned a, w') => (Returned a, w')
  | (Thrown e, w') => h e w'
  end.

Notation "'let*' x ':=' m 'in' k" := (bind m (fun x => k))
(at level 10, x name, m at level 100, k at level 200).

(** [new Date()] / [Date.now()] *)
Definition now (E : Env) : M Z :=
fun w =>
  (Returned (clock E (clock_reads w)),
   {| pendingOperations := pendingOperations w;
      security_audit_log := security_audit_log w;
      db_calls := db_calls w;
      clock_reads := S (clock_reads w);
      random_reads := random_reads w |}).

Definition nextRandom (E : Env) : M string :=
fun w =>
  (Returned (random E (random_reads w)),
   {| pendingOperations := pendingOperations w;
      security_audit_log := security_audit_log w;
      db_calls := db_calls w;
      clock_reads := clock_reads w;
      random_reads := S (random_reads w) |}).

(** One round trip to the database: the call is recorded, the pool's answer
  is returned or thrown. *)
Definition send (E : Env) (c : DbCall) : M QueryResult :=
fun w =>
  let w' := {| pendingOperations := pendingOperations w;
               security_audit_log := security_audit_log w;
               db_calls := db_calls w ++ [c];
               clock_reads := clock_reads w;
               random_reads := random_reads w |} in
  match pool E (db_calls w) c with
  | inl r => (Returned r, w')
  | inr e => (Thrown e, w')
  end.

Definition setPending (f : gmap string PendingOp -> gmap string PendingOp) : M unit :=
fun w =>
  (Returned tt,
   {| pendingOperations := f (pendingOperations w);
      security_audit_log := security_audit_log w;
      db_calls := db_calls w;
      clock_reads := clock_reads w;
      random_reads := random_reads w |}).

Definition getPending : M (gmap string PendingOp) :=
fun w => (Returned (pendingOperations w), w).

Definition appendLog (e : LogEntry) : M unit :=
fun w =>
  (Returned tt,
   {| pendingOperations := pendingOperations w;
      security_audit_log := security_audit_log w ++ [e];
      db_calls := db_calls w;
      clock_reads := clock_reads w;
      random_reads := random_reads w |}).

(** The result of a tool: [{ success: true, data }] or [{ success: false, error }]. *)
Inductive ToolResult (A : Type) : Type :=
| Success (data : A)
| Failure (error : string).
Arguments Success {A} data.
Arguments Failure {A} error.

(** [x || d] on an optional string: the empty string is falsy too. *)
Definition orElse (x : option string) (d : string) : string :=
match x with
| Some EmptyString | None => d
| Some s => s
end.

(** ** security.ts: the feature flags *)

Module Security.
Import JsString Regex.

Definition MODIFICATION_KEYWORDS : list string :=
  ["INSERT"; "UPDATE"; "DELETE"; "DROP"; "CREATE"; "ALTER";
   "TRUNCATE"; "MERGE"; "BULK"; "EXEC"; "EXECUTE"].

(** [/--.*$/gm] *)
Definition lineComment : regex := seq [lit "--"; Star true dot; Eol].
(** [/\/\*[\s\S]*?\*\//g] *)
Definition blockComment : regex := seq [lit "/*"; Star false any; lit "*/"].
(** [/\s+/g] *)
Definition spaces : regex := plus is_space.
(** [new RegExp(`\\b${keyword}\\b`, 'i')] *)
Definition keywordRegex (keyword : string) : regex :=
  seq [WordB; lit keyword; WordB].

Definition cleanQuery (query : string) : string :=
  toUpperCase
    (trim
       (replaceAll plain spaces
          (replaceAll plain blockComment
             (replaceAll mline lineComment query "") "") " ")).

Definition containsModificationOperations (query : string) : bool :=
  match query with
  | EmptyString => false
  | _ =>
      some (fun keyword => test icase (keywordRegex keyword) (cleanQuery query))
           MODIFICATION_KEYWORDS
  end.

Record Permission : Type := { allowed : bool; message : option string }.

Definition validateModificationPermission (E : Env) (operation : string) : Permission :=
  if negb (ALLOW_MODIFICATIONS E) then
    {| allowed := false;
       message := Some (
"[X] OPERATION BLOCKED: Database modifications are disabled for security.

[*] REQUESTED OPERATION: " +:+ operation +:+ "

[+] TO ENABLE MODIFICATIONS:
Configure the environment variable: DB_ALLOW_MODIFICATIONS=true

[!] WARNING: Only enable modifications if you are sure it is safe to do so.
In production environments, keep this setting as 'false' to prevent accidental changes.

[#] CURRENT CONFIGURATION:
- DB_ALLOW_MODIFICATIONS: " +:+ ofBool (ALLOW_MODIFICATIONS E) +:+ "
- DB_ALLOW_STORED_PROCEDURES: " +:+ ofBool (ALLOW_STORED_PROCEDURES E)) |}
  else {| allowed := true; message := None |}.

Definition validateStoredProcedurePermission (E : Env) (spName : string) : Permission :=
  if negb (ALLOW_STORED_PROCEDURES E) then
    {| allowed := false;
       message := Some (
"[X] EXECUTION BLOCKED: Stored procedure execution is disabled for security.

[*] REQUESTED STORED PROCEDURE: " +:+ spName +:+ "

[+] TO ENABLE STORED PROCEDURES:
Configure the environment variable: DB_ALLOW_STORED_PROCEDURES=true

[!] WARNING: Stored procedures can perform database modifications.
Only enable this function if you are sure it is safe to do so.

[#] CURRENT CONFIGURATION:
- DB_ALLOW_MODIFICATIONS: " +:+ ofBool (ALLOW_MODIFICATIONS E) +:+ "
- DB_ALLOW_STORED_PROCEDURES: " +:+ ofBool (ALLOW_STORED_PROCEDURES E) +:+ "

[i] SAFE ALTERNATIVE:
You can use 'mcp_sp_structure' to analyze the stored procedure without executing it.") |}
  else {| allowed := true; message := None |}.

Definition validateQueryPermission (E : Env) (query : string) : Permission :=
  match query with
  | EmptyString => {| allowed := false; message := Some "Empty or invalid query" |}
  | _ =>
      if containsModificationOperations query then
        validateModificationPermission E
          ("SQL Query: " +:+ substring0 100 query +:+ "...")
      else {| allowed := true; message := None |}
  end.

End Security.

(** ** tools/dataOperations.ts, the flag-validating entry points *)

Module FlagGate.
Import JsString Security.

Definition mcp_execute_procedure (E : Env) (sp_name : string)
    (params : option ParamObject) : M (ToolResult (option (list Row))) :=
  let permission := validateStoredProcedurePermission E sp_name in
  if negb (allowed permission) then
    ret (Failure (orElse (message permission) "Stored procedure execution not allowed"))
  else
    try_catch
      (let* result := send E (Execute sp_name (default [] params)) in
       ret (Success (recordset result)))
      (fun error => ret (Failure error)).

Definition mcp_execute_query (E : Env) (query : string)
    : M (ToolResult (option (list Row))) :=
  let permission := validateQueryPermission E query in
  if negb (allowed permission) then
    ret (Failure (orElse (message permission) "Query execution not allowed"))
  else
    try_catch
      (let* result := send E (Query query) in
       ret (Success (recordset result)))
      (fun error => ret (Failure error)).

End FlagGate.

(** ** securityUtils.ts: classification, impact, audit log, pending store *)

Module SecurityUtils.
Import JsString Regex.

Definition WRITE_OPERATIONS : list string :=
  ["INSERT"; "UPDATE"; "DELETE"; "ALTER"; "DROP"; "TRUNCATE";
   "CREATE"; "MERGE"; "BULK"; "EXEC"; "EXECUTE"].

Definition READ_OPERATIONS : list string :=
  ["SELECT"; "SHOW"; "DESCRIBE"; "DESC"; "EXPLAIN"; "WITH"].

Record Analysis : Type :=
  { requiresConfirmation : bool;
    operation : string;
    riskLevel : RiskLevel;
    reason : string }.

(** [analyzeQuery], on ASCII text. *)
Definition analyzeQuery (sql : string) : Analysis :=
  let cleanSql := toUpperCase (trim sql) in
  let firstKeyword := firstToken cleanSql in
  let isWriteOperation := some (fun op => startsWith cleanSql op) WRITE_OPERATIONS in
  if isWriteOperation then
    let '(riskLevel, reason) :=
      if String.eqb firstKeyword "DELETE" || String.eqb firstKeyword "DROP"
         || String.eqb firstKeyword "TRUNCATE" then
        (HIGH, "High-risk " +:+ firstKeyword +:+ " operation that can permanently remove data")
      else if String.eqb firstKeyword "ALTER" then
        (HIGH, "Schema modification operation that can affect database structure")
      else if String.eqb firstKeyword "UPDATE" then
        (MEDIUM, "Data modification operation that updates existing records")
      else if String.eqb firstKeyword "INSERT" then
        (LOW, "Data insertion operation that adds new records")
      else
        (MEDIUM, "Detected " +:+ firstKeyword +:+ " operation which modifies data") in
    {| requiresConfirmation := true; operation := firstKeyword;
       riskLevel := riskLevel; reason := reason |}
  else
    let isReadOperation := some (fun op => startsWith cleanSql op) READ_OPERATIONS in
    if isReadOperation then
      {| requiresConfirmation := false; operation := firstKeyword;
         riskLevel := LOW; reason := "Read-only " +:+ firstKeyword +:+ " operation" |}
    else
      {| requiresConfirmation := true;
         operation := orElse (Some firstKeyword) "UNKNOWN";
         riskLevel := HIGH;
         reason := "Unknown SQL operation - requires confirmation for safety" |}.

Record Impact : Type :=
  { estimatedRows : Z;
    affectedTables : list string;
    warning : option string }.

(** [\[?\w+\]?\.?\[?\w+\]?] *)
Definition tableName : regex :=
  seq [Opt (Chr "["); plus is_word; Opt (Chr "]"); Opt (Chr ".");
       Opt (Chr "["); plus is_word; Opt (Chr "]")].

Definition clauseKeyword : regex := oneOf ["FROM"; "UPDATE"; "INTO"; "JOIN"].

(** [/(?:FROM|UPDATE|INTO|JOIN)\s+(\[?\w+\]?\.?\[?\w+\]?)/gi] *)
Definition tablePattern : regex :=
  seq [clauseKeyword; plus is_space; Group 1 tableName].

(** [/^(FROM|UPDATE|INTO|JOIN)\s+/i] *)
Definition clausePrefix : regex :=
  seq [Bol; Group 1 clauseKeyword; plus is_space].

(** [/^DELETE\s+/i] *)
Definition deletePrefix : regex := seq [Bol; lit "DELETE"; plus is_space].

(** [/UPDATE\s+(T)(?:\s+SET.*?)(W)?$/i], where [T] is the table-name pattern
    above and [W] is [\s+WHERE.*] *)
Definition updatePattern : regex :=
  seq [lit "UPDATE"; plus is_space; Group 1 tableName;
       seq [plus is_space; lit "SET"; Star false dot];
       Opt (Group 2 (seq [plus is_space; lit "WHERE"; Star true dot]));
       Eol].

Definition includes (xs : list string) (x : string) : bool :=
  existsb (String.eqb x) xs.

(** The [forEach] over the matches: a name is pushed unless already there. *)
Definition collectTables (tableMatches : list string) : list string :=
  fold_left
    (fun affectedTables m =>
       let tableName := trim (replaceFirst icase clausePrefix m "") in
       if negb (includes affectedTables tableName)
       then (affectedTables ++ [tableName])%list else affectedTables)
    tableMatches [].

Definition extractTables (sql : string) : list string :=
  collectTables (matchAll icase tablePattern sql).

(** The text [estimateImpact] sends to the database for a statement whose
    normalized text starts with DELETE or UPDATE; empty when there is none. *)
Definition countQuery (sql : string) : string :=
  let cleanSql := toUpperCase (trim sql) in
  if startsWith cleanSql "DELETE" then
    replaceFirst icase deletePrefix sql "SELECT COUNT(*) AS estimated_rows "
  else if startsWith cleanSql "UPDATE" then
    match exec icase updatePattern sql with
    | Some fromMatch =>
        let tableName := default "" (group 1 fromMatch) in
        let whereClause := orElse (group 2 fromMatch) "" in
        "SELECT COUNT(*) AS estimated_rows FROM " +:+ tableName +:+ whereClause
    | None => ""
    end
  else "".

(** [result.recordset[0]?.estimated_rows || 0]; reading [[0]] of an
    undefined recordset throws. *)
Definition readEstimate (result : QueryResult) : M Z :=
  match recordset result with
  | None => fun w => (Thrown "Cannot read properties of undefined (reading '0')", w)
  | Some [] => ret 0
  | Some (row :: _) =>
      ret (default 0 (snd <$> List.find (fun c => String.eqb (fst c) "estimated_rows") row))
  end.

(** [estimateImpact], on ASCII text. *)
Definition estimateImpact (E : Env) (sql : string) : M Impact :=
  try_catch
    (let cleanSql := toUpperCase (trim sql) in
     let affectedTables := extractTables sql in
     let finish (estimatedRows : Z) : M Impact :=
       ret {| estimatedRows := estimatedRows;
              affectedTables := affectedTables;
              warning := if (1000 <? estimatedRows)%Z
                         then Some "Large number of rows may be affected"
                         else None |} in
     if startsWith cleanSql "DELETE" || startsWith cleanSql "UPDATE" then
       match countQuery sql with
       | EmptyString => finish 0
       | q =>
           try_catch
             (let* result := send E (Query q) in
              let* estimatedRows := readEstimate result in
              finish estimatedRows)
             (fun _ =>
                ret {| estimatedRows := 0;
                       affectedTables := affectedTables;
                       warning := Some "Could not estimate the number of affected rows" |})
       end
     else finish 0)
    (fun _ =>
       ret {| estimatedRows := 0; affectedTables := [];
              warning := Some "Impact estimation failed" |}).

(** [logSecurityEvent]: one line appended to [security_audit.log], the
    statement cut to 500 characters.  A failing write is caught and only
    reported on the console; the log below is the sequence of entries
    handed to the file. *)
Definition logSecurityEvent (event : LogEntry) : M unit :=
  appendLog
    {| log_timestamp := log_timestamp event;
       log_operation := log_operation event;
       log_sql := substring0 500 (log_sql event);
       log_riskLevel := log_riskLevel event;
       log_userConfirmed := log_userConfirmed event;
       log_estimatedRows := log_estimatedRows event;
       log_affectedTables := log_affectedTables event;
       log_result := log_result event;
       log_error := log_error event |}.

(** [n.toString(36)] for a non-negative integer. *)
Definition digit36 (d : N) : ascii :=
  if (d <? 10)%N then ascii_of_N (48 + d) else ascii_of_N (97 + (d - 10)).

Fixpoint toString36_go (fuel : nat) (n : N) (acc : string) : string :=
  let acc' := String (digit36 (n mod 36)) acc in
  match fuel with
  | O => acc'
  | S fuel' => if (n / 36 =? 0)%N then acc' else toString36_go fuel' (n / 36) acc'
  end.

Definition toString36 (z : Z) : string :=
  let n := Z.to_N z in toString36_go (N.to_nat (N.log2 n)) n "".

Definition generateConfirmationToken (E : Env) : M string :=
  let* t := now E in
  let timestamp := toString36 t in
  let* random := nextRandom E in
  ret (toUpperCase ("CONF_" +:+ timestamp +:+ "_" +:+ random)).

(** [5 * 60 * 1000] *)
Definition maxAge : Z := 5 * 60 * 1000.

Definition expired (now_ : Z) (operation : PendingOp) : Prop :=
  now_ - p_timestamp operation > maxAge.

#[global] Instance expired_dec now_ operation : Decision (expired now_ operation).
Proof. unfold expired. apply _. Defined.

Definition cleanupExpiredTokens (E : Env) : M unit :=
  let* now_ := now E in
  setPending (filter (fun entry : string * PendingOp => ¬ expired now_ entry.2)).

Definition storePendingOperation (E : Env) (token : string) (operation : Operation) : M unit :=
  let* timestamp := now E in
  let* _ := setPending (insert token {| p_operation := operation; p_timestamp := timestamp |}) in
  cleanupExpiredTokens E.

Definition getPendingOperation (E : Env) (token : string) : M (option PendingOp) :=
  let* store := getPending in
  match store !! token with
  | None => ret None
  | Some operation =>
      let* now_ := now E in
      if decide (expired now_ operation) then
        let* _ := setPending (delete token) in
        ret None
      else ret (Some operation)
  end.

Definition removePendingOperation (token : string) : M unit :=
  setPending (delete token).

Definition riskText (r : RiskLevel) : string :=
  match r with LOW => "LOW" | MEDIUM => "MEDIUM" | HIGH => "HIGH" end.

Definition riskEmoji (r : RiskLevel) : string :=
  match r with
  | LOW => "üü°"
  | MEDIUM => "üü†"
  | HIGH => "üî¥"
  end.

Definition dquote : string := String (ascii_of_N 34) "".
Definition newline : string := String (ascii_of_N 10) "".

(** [JSON.stringify(params)] and [JSON.stringify(params, null, 2)] for an
    object whose values are given by their JSON text. *)
Definition jsonCompact (params : ParamObject) : string :=
  "{" +:+ String.concat ","
            (map (fun kv => dquote +:+ fst kv +:+ dquote +:+ ":" +:+ snd kv) params)
      +:+ "}".

Definition jsonPretty (params : ParamObject) : string :=
  match params with
  | [] => "{}"
  | _ =>
      "{" +:+ newline
      +:+ String.concat ("," +:+ newline)
            (map (fun kv => "  " +:+ dquote +:+ fst kv +:+ dquote +:+ ": " +:+ snd kv) params)
      +:+ newline +:+ "}"
  end.

Definition joinTables (tables : list string) : string := String.concat ", " tables.

(** The truthiness of a string argument: absent and empty are falsy. *)
Definition truthy (x : option string) : option string :=
  match x with
  | Some EmptyString | None => None
  | Some s => Some s
  end.

Definition createSecurityConfirmationMessage (analysis : Analysis) (impact : Impact)
    (token : string) (sql spName : option string) (params : option ParamObject) : string :=
  riskEmoji (riskLevel analysis) +:+ " OPERACI√ìN REQUIERE CONFIRMACI√ìN DE SEGURIDAD" +:+ newline +:+ newline
  +:+ "Operaci√≥n: " +:+ operation analysis +:+ newline
  +:+ "Nivel de Riesgo: " +:+ riskText (riskLevel analysis) +:+ newline
  +:+ "Motivo: " +:+ reason analysis +:+ newline +:+ newline
  +:+ match truthy spName with
      | Some name =>
          "Procedimiento: " +:+ name +:+ newline
          +:+ match params with
              | Some (kv :: kvs) =>
                  "Par√°metros: " +:+ jsonPretty (kv :: kvs) +:+ newline
              | _ => ""
              end
      | None => ""
      end
  +:+ match truthy sql with
      | Some text =>
          "SQL: " +:+ substring0 200 text
          +:+ (if Nat.ltb 200 (String.length text) then "..." else "")
          +:+ newline +:+ newline
      | None => ""
      end
  +:+ (if (0 <? estimatedRows impact)%Z
       then "Registros estimados afectados: " +:+ ofZ (estimatedRows impact) +:+ newline
       else "")
  +:+ match affectedTables impact with
      | [] => ""
      | tables => "Tablas afectadas: " +:+ joinTables tables +:+ newline
      end
  +:+ match truthy (warning impact) with
      | Some text => "‚ö†Ô∏è  Advertencia: " +:+ text +:+ newline
      | None => ""
      end
  +:+ newline +:+ "üîê PARA CONFIRMAR Y EJECUTAR:" +:+ newline
  +:+ "Use la herramienta: mcp_confirm_and_execute" +:+ newline
  +:+ "Con el token: " +:+ token +:+ newline +:+ newline
  +:+ "‚è∞ Este token expira en 5 minutos por seguridad." +:+ newline
  +:+ "‚ùå La operaci√≥n NO se ha ejecutado a√∫n.".

End SecurityUtils.

(** ** tools/dataOperations.ts, the confirmation-token entry points *)

Module TokenGate.
Import JsString Regex SecurityUtils.

(** [/^(usp_Get|usp_Select|usp_Search|usp_Find|usp_List|usp_View)/i] *)
Definition readOnlyPrefixes : list string :=
  ["usp_Get"; "usp_Select"; "usp_Search"; "usp_Find"; "usp_List"; "usp_View"].

Definition readOnlyPattern : regex :=
  seq [Bol; Group 1 (oneOf readOnlyPrefixes)].

Definition isReadOnlyProcedure (sp_name : string) : bool :=
  test icase readOnlyPattern sp_name.

Definition confirmationRequired (confirmationMessage token : string) : string :=
  "SECURITY_CONFIRMATION_REQUIRED: " +:+ confirmationMessage +:+ newline +:+ newline
  +:+ "To proceed, use the mcp_confirm_and_execute tool with token: " +:+ token.

Definition mcp_execute_procedure (E : Env) (sp_name : string)
    (params : option ParamObject) : M (ToolResult (option (list Row))) :=
  let* timestamp := now E in
  try_catch
    (if isReadOnlyProcedure sp_name then
       let* result := send E (Execute sp_name (default [] params)) in
       let* _ := logSecurityEvent
                   {| log_timestamp := timestamp; log_operation := "EXECUTE";
                      log_sql := "EXEC " +:+ sp_name; log_riskLevel := LOW;
                      log_userConfirmed := false; log_estimatedRows := None;
                      log_affectedTables := None; log_result := Some SUCCESS;
                      log_error := None |} in
       ret (Success (recordset result))
     else
       let* token := generateConfirmationToken E in
       let* _ := storePendingOperation E token
                   {| op_sql := "EXEC " +:+ sp_name;
                      op_operation := "STORED_PROCEDURE";
                      op_riskLevel := MEDIUM;
                      op_estimatedRows := 0;
                      op_affectedTables := ["Unknown - Stored Procedure"];
                      op_spName := Some sp_name;
                      op_params := params |} in
       let analysis :=
         {| operation := "EXECUTE"; riskLevel := MEDIUM;
            requiresConfirmation := true;
            reason := "Stored procedure execution may modify data" |} in
       let impact :=
         {| estimatedRows := 0;
            affectedTables := ["Unknown - Stored Procedure"];
            warning := None |} in
       let* _ := logSecurityEvent
                   {| log_timestamp := timestamp;
                      log_operation := operation analysis;
                      log_sql := "EXEC " +:+ sp_name;
                      log_riskLevel := riskLevel analysis;
                      log_userConfirmed := false;
                      log_estimatedRows := Some (estimatedRows impact);
                      log_affectedTables := Some (affectedTables impact);
                      log_result := Some CANCELLED;
                      log_error := Some "Pending user confirmation" |} in
       let confirmationMessage :=
         createSecurityConfirmationMessage analysis impact token
           (Some ("EXEC " +:+ sp_name
                  +:+ match params with
                      | Some ps => " WITH PARAMS: " +:+ jsonCompact ps
                      | None => ""
                      end))
           None None in
       ret (Failure (confirmationRequired confirmationMessage token)))
    (fun error =>
       let* _ := logSecurityEvent
                   {| log_timestamp := timestamp; log_operation := "EXECUTE";
                      log_sql := "EXEC " +:+ sp_name; log_riskLevel := MEDIUM;
                      log_userConfirmed := false; log_estimatedRows := None;
                      log_affectedTables := None; log_result := Some FAILED;
                      log_error := Some error |} in
       ret (Failure error)).

Definition mcp_execute_query (E : Env) (query : string)
    : M (ToolResult (option (list Row))) :=
  let* timestamp := now E in
  try_catch
    (let analysis := analyzeQuery query in
     if negb (requiresConfirmation analysis) then
       let* _ := logSecurityEvent
                   {| log_timestamp := timestamp;
                      log_operation := operation analysis;
                      log_sql := query;
                      log_riskLevel := riskLevel analysis;
                      log_userConfirmed := false; log_estimatedRows := None;
                      log_affectedTables := None; log_result := Some SUCCESS;
                      log_error := None |} in
       let* result := send E (Query query) in
       ret (Success (recordset result))
     else
       let* impact := estimateImpact E query in
       let* token := generateConfirmationToken E in
       let* _ := storePendingOperation E token
                   {| op_sql := query;
                      op_operation := operation analysis;
                      op_riskLevel := riskLevel analysis;
                      op_estimatedRows := estimatedRows impact;
                      op_affectedTables := affectedTables impact;
                      op_spName := None;
                      op_params := None |} in
       let* _ := logSecurityEvent
                   {| log_timestamp := timestamp;
                      log_operation := operation analysis;
                      log_sql := query;
                      log_riskLevel := riskLevel analysis;
                      log_userConfirmed := false;
                      log_estimatedRows := Some (estimatedRows impact);
                      log_affectedTables := Some (affectedTables impact);
                      log_result := Some CANCELLED;
                      log_error := Some "Pending user confirmation" |} in
       let confirmationMessage :=
         createSecurityConfirmationMessage analysis impact token (Some query) None None in
       ret (Failure (confirmationRequired confirmationMessage token)))
    (fun error =>
       let analysis := analyzeQuery query in
       let* _ := logSecurityEvent
                   {| log_timestamp := timestamp;
                      log_operation := operation analysis;
                      log_sql := query;
                      log_riskLevel := riskLevel analysis;
                      log_userConfirmed := false; log_estimatedRows := None;
                      log_affectedTables := None; log_result := Some FAILED;
                      log_error := Some error |} in
       ret (Failure error)).

(** What a confirmed execution returns. *)
Record Executed : Type :=
  { ex_rowsAffected : Z;
    ex_recordset : list Row;
    ex_message : string }.

(** [result.rowsAffected?.[0] || 0] *)
Definition firstRowsAffected (result : QueryResult) : Z :=
  match rowsAffected result with
  | Some (n :: _) => n
  | _ => 0
  end.

(** The database call a stored operation stands for. *)
Definition operationCall (o : Operation) : DbCall :=
  if String.eqb (op_operation o) "STORED_PROCEDURE" then
    Execute (orElse (op_spName o) (op_sql o)) (default [] (op_params o))
  else Query (op_sql o).

Definition invalidToken : string :=
  "Invalid or expired confirmation token. Please generate a new analysis.".

Definition mcp_confirm_and_execute (E : Env) (confirmation_token : string)
    : M (ToolResult Executed) :=
  try_catch
    (let* pendingOp := getPendingOperation E confirmation_token in
     match pendingOp with
     | None => ret (Failure invalidToken)
     | Some pending =>
         let sql := op_sql (p_operation pending) in
         let* result := send E (operationCall (p_operation pending)) in
         let* _ := removePendingOperation confirmation_token in
         let analysis := analyzeQuery sql in
         let* impact := estimateImpact E sql in
         let* timestamp := now E in
         let* _ := logSecurityEvent
                     {| log_timestamp := timestamp;
                        log_operation := operation analysis;
                        log_sql := sql;
                        log_riskLevel := riskLevel analysis;
                        log_userConfirmed := true;
                        log_estimatedRows := Some (estimatedRows impact);
                        log_affectedTables := Some (affectedTables impact);
                        log_result := Some SUCCESS;
                        log_error := None |} in
         ret (Success
                {| ex_rowsAffected := firstRowsAffected result;
                   ex_recordset := default [] (recordset result);
                   ex_message := "Operation executed successfully. "
                                 +:+ ofZ (firstRowsAffected result)
                                 +:+ " rows affected." |})
     end)
    (fun error =>
       let* timestamp := now E in
       let* _ := logSecurityEvent
                   {| log_timestamp := timestamp; log_operation := "UNKNOWN";
                      log_sql := "FAILED_CONFIRMATION"; log_riskLevel := HIGH;
                      log_userConfirmed := true; log_estimatedRows := None;
                      log_affectedTables := None; log_result := Some FAILED;
                      log_error := Some error |} in
       ret (Failure error)).

End TokenGate.

(** ** Notions the properties are stated with *)

Section Derived.
Import JsString SecurityUtils.

(** The tests and the token [analyzeQuery] computes on its way. *)
Definition normalized (sql : string) : string := toUpperCase (trim sql).
Definition firstKeyword (sql : string) : string := firstToken (normalized sql).
Definition isWriteOperation (sql : string) : bool :=
  some (fun op => startsWith (normalized sql) op) WRITE_OPERATIONS.
Definition isReadOperation (sql : string) : bool :=
  some (fun op => startsWith (normalized sql) op) READ_OPERATIONS.

(** Word boundaries of a text: its last, and its first, character is a
    word character. *)
Fixpoint endsWithWord (s : string) : bool :=
  match s with
  | EmptyString => false
  | String c t =>
      match t with
      | EmptyString => is_word c
      | _ => endsWithWord t
      end
  end.

Definition startsWithWord (s : string) : bool :=
  match s with
  | EmptyString => false
  | String c _ => is_word c
  end.

(** A text with every run of white space replaced by one space; [inrun]
    tells that the characters just before were white space. *)
Fixpoint collapseFrom (inrun : bool) (s : string) : string :=
  match s with
  | EmptyString => EmptyString
  | String c t =>
      if is_space c then
        if inrun then collapseFrom true t else String " " (collapseFrom true t)
      else String c (collapseFrom false t)
  end.

(** The number of white-space characters a text starts with. *)
Fixpoint countSpaces (s : string) : nat :=
  match s with
  | EmptyString => O
  | String c t => if is_space c then S (countSpaces t) else O
  end.

(** One of the four clause keywords of the table pattern stands at the
    start of the text, in any letter case. *)
Definition keywordAhead (s : string) : bool :=
  existsb (fun k => startsWith (toUpperCase s) k) ["FROM"; "UPDATE"; "INTO"; "JOIN"].

(** No clause keyword starts at a character of [pre] in the text
    [pre +:+ tail]. *)
Fixpoint clearOf (pre tail : string) : bool :=
  match pre with
  | EmptyString => true
  | String _ p => negb (keywordAhead (pre +:+ tail)) && clearOf p tail
  end.

(** A name of word characters, two at least. *)
Definition isName (name : string) : bool :=
  forallb is_word (list_ascii_of_string name) && (2 <=? String.length name)%nat.

(** What may follow such a name for the table pattern to stop there: the
    end of the text, or a character that is neither a word character nor
    a bracket nor a dot. *)
Definition endsName (post : string) : bool :=
  match post with
  | EmptyString => true
  | String c _ =>
      negb (is_word c || Ascii.eqb c "[" || Ascii.eqb c "]" || Ascii.eqb c ".")
  end.

(** The text [r] does not go on with a character of the class [p]. *)
Definition stops (p : ascii -> bool) (r : string) : Prop :=
  match r with
  | EmptyString => True
  | String c _ => p c = false
  end.

(** A text without white space. *)
Definition solid (x : string) : bool :=
  forallb (fun c => negb (is_space c)) (list_ascii_of_string x).

(** Whatever text the pattern [r] passes has the property [P]: a run of
    [r] that ends well went over some text [x] with [P x], and its
    continuation was entered right after [x]. *)
Definition passes (fl : Regex.flags) (r : Regex.regex) (P : string -> Prop) : Prop :=
  forall st k e,
    Regex.run fl r st k = Some e ->
    exists x r',
      Regex.rest st = x +:+ r'
      /\ P x
      /\ k {| Regex.seen := (rev (list_ascii_of_string x) ++ Regex.seen st)%list;
              Regex.rest := r'; Regex.caps := Regex.caps st |} = Some e.

(** A text consisting of white space. *)
Definition blank (ws : string) : bool := forallb is_space (list_ascii_of_string ws).

(** [msg] holds the text [t]. *)
Definition mentions (msg t : string) : Prop := exists a b, msg = a +:+ t +:+ b.

(** The decidable form of [mentions]. *)
Fixpoint contains (t s : string) : bool :=
  String.prefix t s
  || match s with
     | EmptyString => false
     | String _ s' => contains t s'
     end.

(** A run of the matcher found a match. *)
Definition succeeds (o : option Regex.mstate) : bool :=
  match o with Some _ => true | None => false end.

(** The world after the statements [cs] went to the database. *)
Definition sent (cs : list DbCall) (w : World) : World :=
  {| pendingOperations := pendingOperations w;
     security_audit_log := security_audit_log w;
     db_calls := db_calls w ++ cs;
     clock_reads := clock_reads w;
     random_reads := random_reads w |}.

(** What [estimateImpact] sends to the database for a statement. *)
Definition estimatorCalls (sql : string) : list DbCall :=
  match countQuery sql with
  | EmptyString => []
  | q => [Query q]
  end.

(** The text begins with the word DELETE, in any letter case, directly
    followed by white space: the form the rewrite of [estimateImpact]
    into a row count expects. *)
Definition deleteWritten (sql : string) : Prop :=
  exists kw sp tail,
    sql = kw +:+ String sp tail /\ toUpperCase kw = "DELETE" /\ is_space sp = true.

(** The token a proposal mints in the world [w]: the clock is read once
    for the audit time stamp before the token reads it. *)
Definition mintedToken (E : Env) (w : World) : string :=
  toUpperCase ("CONF_" +:+ SecurityUtils.toString36 (clock E (S (clock_reads w))) +:+ "_"
               +:+ random E (random_reads w)).

(** The store after a proposal put [o] under its token and swept. *)
Definition storedUnder (E : Env) (w : World) (o : Operation)
    : gmap string PendingOp :=
  filter (fun entry : string * PendingOp =>
            ~ expired (clock E (3 + clock_reads w)) entry.2)
         (<[mintedToken E w := {| p_operation := o;
                                  p_timestamp := clock E (2 + clock_reads w) |}]>
            (pendingOperations w)).

(** Sample collaborators for the examples: a database that answers every
    statement with one row counting three, one that rejects every
    statement, and one that rejects only its first statement. *)
Definition threeRows : QueryResult :=
  {| recordset := Some [[("estimated_rows", 3)]]; rowsAffected := Some [3] |}.
Definition acceptingPool : Pool := fun _ _ => inl threeRows.
Definition rejectingPool : Pool := fun _ _ => inr "Invalid object name".
Definition recoveringExecution : Pool :=
  fun sent_ c =>
    match c with
    | Query "DELETE FROM [dbo].[Orders] WHERE Id = 7" =>
        if existsb (fun d => match d with
                             | Query "DELETE FROM [dbo].[Orders] WHERE Id = 7" => true
                             | _ => false
                             end) sent_
        then inl threeRows else inr "Connection lost"
    | _ => inl threeRows
    end.

(** A statement and a procedure name used in the examples. *)
Definition deleteOrder : string := "DELETE FROM [dbo].[Orders] WHERE Id = 7".
Definition countOrder : string :=
  "SELECT COUNT(*) AS estimated_rows FROM [dbo].[Orders] WHERE Id = 7".

Definition sampleEnv (allowed : bool) (p : Pool) : Env :=
  {| ALLOW_MODIFICATIONS := allowed; ALLOW_STORED_PROCEDURES := allowed;
     pool := p;
     clock := fun n => 1700000000000 + 1000 * Z.of_nat n;
     random := fun _ => "k3j9xz" |}.

(** The world after [deleteOrder] was proposed to the token gate in the
    empty world, and the token that proposal minted. *)
Definition proposedEnv (P : Pool) : Env := sampleEnv true P.
Definition proposedToken (P : Pool) : string := mintedToken (proposedEnv P) emptyWorld.
Definition proposedWorld (P : Pool) : World :=
  snd (TokenGate.mcp_execute_query (proposedEnv P) deleteOrder emptyWorld).

End Derived.

(** ** security.ts: reading the flags, reporting the status *)

Module SecurityStatus.
Import JsString.

(** [toLowerCase] on ASCII text: the letters A-Z are folded. *)
Definition lower (c : ascii) : ascii :=
  let n := N_of_ascii c in
  if ((65 <=? n) && (n <=? 90))%N then ascii_of_N (n + 32) else c.

Fixpoint toLowerCase (s : string) : string :=
  match s with
  | EmptyString => EmptyString
  | String c s' => String (lower c) (toLowerCase s')
  end.

(** [parseBoolean(value, defaultValue)]: an unset or empty variable gives
    the default. *)
Definition parseBoolean (value : option string) (defaultValue : bool) : bool :=
  match value with
  | None | Some EmptyString => defaultValue
  | Some v => existsb (String.eqb (toLowerCase v)) ["true"; "yes"; "1"; "on"]
  end.

(** [SECURITY_CONFIG], from the two environment variables. *)
Definition SECURITY_CONFIG (DB_ALLOW_MODIFICATIONS DB_ALLOW_STORED_PROCEDURES : option string)
    (p : Pool) (c : nat -> Z) (r : nat -> string) : Env :=
  {| ALLOW_MODIFICATIONS := parseBoolean DB_ALLOW_MODIFICATIONS false;
     ALLOW_STORED_PROCEDURES := parseBoolean DB_ALLOW_STORED_PROCEDURES false;
     pool := p; clock := c; random := r |}.

Record Status : Type :=
  { modifications_enabled : bool;
    stored_procedures_enabled : bool;
    security_level : string;
    recommendations : list string }.

Definition getSecurityStatus (E : Env) : Status :=
  let modifications := ALLOW_MODIFICATIONS E in
  let storedProcs := ALLOW_STORED_PROCEDURES E in
  let '(securityLevel, recommendations) :=
    if modifications && storedProcs then
      ("LOW",
       ["[!] Consider disabling modifications in production";
        "[!] Consider disabling stored procedures in production"])
    else if modifications || storedProcs then
      ("MEDIUM",
       ((if modifications
         then ["[!] Modifications are enabled - use with caution"] else [])
        ++ (if storedProcs
            then ["[!] Stored procedures are enabled - use with caution"] else []))%list)
    else
      ("MAXIMUM", ["[OK] Optimal security configuration for production"]) in
  {| modifications_enabled := modifications;
     stored_procedures_enabled := storedProcs;
     security_level := securityLevel;
     recommendations := recommendations |}.

End SecurityStatus.

(** ** utils.ts: object names *)

Module Utils.
Import JsString.

(** [s.includes(c)] for a one-character [c]. *)
Fixpoint includesChar (c : ascii) (s : string) : bool :=
  match s with
  | EmptyString => false
  | String x t => Ascii.eqb x c || includesChar c t
  end.

(** [s.split(c)] for a one-character separator: never empty. *)
Fixpoint split (sep : ascii) (s : string) : list string :=
  match s with
  | EmptyString => [EmptyString]
  | String c t =>
      if Ascii.eqb c sep then EmptyString :: split sep t
      else match split sep t with
           | h :: r => String c h :: r
           | [] => [String c EmptyString]
           end
  end.

Definition normalizeSqlObjectName (name : string) : string :=
  match name with
  | EmptyString => EmptyString
  | _ =>
      if includesChar "[" name && includesChar "]" name then name
      else
        match split "." name with
        | [part] => "[dbo].[" +:+ part +:+ "]"
        | schema :: objectName :: _ => "[" +:+ schema +:+ "].[" +:+ objectName +:+ "]"
        | [] => "[undefined].[undefined]"
        end
  end.

End Utils.

(** ** tools/dataOperations.ts: the data preview *)

Module DataPreview.
Import JsString Utils.

(** A filter value: [None] is [null], otherwise the value as its JSON text. *)
Definition Filters : Type := list (string * option string).

(** A request: the statement text and the inputs bound with
    [request.input(name, value)], in binding order. *)
Record Request : Type :=
  { text : string;
    inputs : list (string * option string) }.

Definition Handle : Type := Request -> QueryResult + string.

Definition paramName (index : nat) : string := "param" +:+ ofZ (Z.of_nat index).

(** [Object.entries(filters).map(([key, value], index) => ...)] *)
Fixpoint mapi {A B} (f : A -> nat -> B) (index : nat) (xs : list A) : list B :=
  match xs with
  | [] => []
  | x :: xs' => f x index :: mapi f (S index) xs'
  end.

Definition bindAll (entries : Filters) : list (string * option string) :=
  mapi (fun kv index => (paramName index, snd kv)) 0 entries.

(** The request [mcp_preview_data] builds; [limit] defaults to 100. *)
Definition previewRequest (table_name : string) (filters : option Filters)
    (limit : option Z) : Request :=
  let limit_ := default 100 limit in
  let normalizedTableName := normalizeSqlObjectName table_name in
  let query := "SELECT TOP " +:+ ofZ limit_ +:+ " * FROM " +:+ normalizedTableName in
  match filters with
  | Some (kv :: kvs) =>
      let whereClauses :=
        mapi (fun e index => fst e +:+ " = @" +:+ paramName index) 0 (kv :: kvs) in
      {| text := query +:+ " WHERE " +:+ String.concat " AND " whereClauses;
         inputs := bindAll (kv :: kvs) |}
  | _ => {| text := query; inputs := [] |}
  end.

Definition mcp_preview_data (db : Handle) (table_name : string)
    (filters : option Filters) (limit : option Z) : ToolResult (option (list Row)) :=
  match db (previewRequest table_name filters limit) with
  | inl result => Success (recordset result)
  | inr error => Failure error
  end.

(** [normalizedTableName.split('.').pop()] and [...split('.')[0]] *)
Definition lastPart (s : string) : string := List.last (split "." s) EmptyString.
Definition firstPart (s : string) : string := hd EmptyString (split "." s).

Definition columnsQuery (normalizedTableName : string) : string :=
"
      SELECT COLUMN_NAME, DATA_TYPE 
      FROM INFORMATION_SCHEMA.COLUMNS 
      WHERE TABLE_NAME = '" +:+ lastPart normalizedTableName +:+ "' 
      AND TABLE_SCHEMA = '" +:+ firstPart normalizedTableName +:+ "'
    ".

(** The request [mcp_preview_data_enhanced] builds after its columns query. *)
Definition enhancedRequest (table_name : string) (filters : option Filters)
    (limit : option Z) : Request :=
  let limit_ := default 100 limit in
  let normalizedTableName := normalizeSqlObjectName table_name in
  let query := "SELECT TOP " +:+ ofZ limit_ +:+ " * FROM " +:+ normalizedTableName in
  match filters with
  | Some (kv :: kvs) =>
      let whereClauses :=
        mapi (fun e index =>
                match snd e with
                | None => "[" +:+ fst e +:+ "] IS NULL"
                | Some _ => "[" +:+ fst e +:+ "] = @" +:+ paramName index
                end) 0 (kv :: kvs) in
      {| text := query +:+ " WHERE " +:+ String.concat " AND " whereClauses
                 +:+ " ORDER BY (SELECT NULL)";
         inputs := bindAll (kv :: kvs) |}
  | _ => {| text := query +:+ " ORDER BY (SELECT NULL)"; inputs := [] |}
  end.

Definition mcp_preview_data_enhanced (db : Handle) (table_name : string)
    (filters : option Filters) (limit : option Z) : ToolResult (option (list Row)) :=
  match db {| text := columnsQuery (normalizeSqlObjectName table_name); inputs := [] |} with
  | inr error => Failure error
  | inl _ =>
      match db (enhancedRequest table_name filters limit) with
      | inl result => Success (recordset result)
      | inr error => Failure error
      end
  end.

End DataPreview.

(** ** db.ts: the connection *)

Module Db.

(** A connection pool is known by the number under which the driver
    handed it out; a connection attempt gives a pool or fails with an
    error message. *)
Definition Attempt : Type := nat + string.

(** The module state: [pool], [isConnecting], [connectionPromise] (the
    outcome the pending promise settles with), and the number of
    connection attempts made so far. *)
Record State : Type :=
  { pool_ : option nat;
    isConnecting : bool;
    connectionPromise : option Attempt;
    attempts : nat }.

Definition disconnected (n : nat) : State :=
  {| pool_ := None; isConnecting := false; connectionPromise := None; attempts := n |}.

(** The [catch] of [connectDB]: the state is reset and the error thrown on. *)
Definition failed (s : State) (err : string) : Attempt * State :=
  (inr err, disconnected (attempts s)).

(** [connectDB], with [connect n] the outcome of the n-th
    [new sql.ConnectionPool(config).connect()]. *)
Definition connectDB (connect : nat -> Attempt) (s : State) : Attempt * State :=
  match pool_ s with
  | Some p => (inl p, s)
  | None =>
      match isConnecting s, connectionPromise s with
      | true, Some (inl p) => (inl p, s)
      | true, Some (inr err) => failed s err
      | _, _ =>
          match connect (attempts s) with
          | inl p =>
              (inl p,
               {| pool_ := Some p; isConnecting := false;
                  connectionPromise := Some (inl p); attempts := S (attempts s) |})
          | inr err =>
              failed {| pool_ := None; isConnecting := true;
                        connectionPromise := Some (inr err);
                        attempts := S (attempts s) |} err
          end
      end
  end.

(** [getPool]: the pool, or the error it throws. *)
Definition getPool (s : State) : Attempt :=
  match pool_ s with
  | Some p => inl p
  | None => inr "Database not connected. Call connectDB first."
  end.

(** [closePool]; [closes] tells whether [pool.close()] succeeds.  A failing
    close is caught and reported on the console only. *)
Definition closePool (closes : nat -> bool) (s : State) : State :=
  match pool_ s with
  | Some p => let _ := closes p in disconnected (attempts s)
  | None => s
  end.

End Db.

(** ** Notions the further properties are stated with *)

Section DerivedMore.
Import JsString SecurityStatus.

(** A text of digits and small letters: no underscore, before and after
    upper-casing, and every character is what lower-casing its capital
    gives. *)
Definition plain36 (s : string) : Prop :=
  Forall (fun c => c <> "_"%char /\ upper c <> "_"%char /\ lower (upper c) = c)
         (list_ascii_of_string s).

End DerivedMore.

(** * Properties *)

(** ** Strings *)

Section StringFacts.
Import JsString.

Lemma append_cons (c : ascii) (a b : string) :
  String c a +:+ b = String c (a +:+ b).
Proof. reflexivity. Qed.

Lemma append_nil (b : string) : "" +:+ b = b.
Proof. reflexivity. Qed.

Lemma prefix_split (p s : string) :
  String.prefix p s = true <-> exists r, s = p +:+ r.
Proof.
  revert s; induction p as [|c p IH]; intros s.
  - split; [intros _; now exists s | intros _; now destruct s].
  - destruct s as [|d s]; simpl.
    + split; [discriminate | intros [r Hr]; discriminate].
    + destruct (ascii_dec c d) as [->|Hne].
      * split.
        -- intros H. apply IH in H as [r ->]. now exists r.
        -- intros [r Hr]. apply IH. exists r. rewrite append_cons in Hr. now inversion Hr.
      * split; [discriminate | intros [r Hr]; rewrite append_cons in Hr; inversion Hr; subst; now destruct Hne].
Qed.

Lemma firstToken_prefix (s : string) : String.prefix (firstToken s) s = true.
Proof.
  induction s as [|c s IH]; simpl; [reflexivity|].
  destruct (is_space c); simpl; [reflexivity|].
  destruct (ascii_dec c c); [exact IH | contradiction].
Qed.

Lemma firstToken_startsWith (s k : string) :
  firstToken s = k -> startsWith s k = true.
Proof. intros <-. apply firstToken_prefix. Qed.

Lemma append_assoc (a b c : string) : (a +:+ b) +:+ c = a +:+ (b +:+ c).
Proof. induction a as [|x a IH]; [reflexivity | rewrite !append_cons; congruence]. Qed.


(** [trimEnd] keeps a prefix that ends in a character that is no space. *)
Lemma trimEnd_keeps (c d : ascii) (s : string) :
  is_space d = false ->
  exists r, trimEnd (String c (String d s)) = String c (String d r).
Proof.
  intros Hd. simpl.
  destruct (trimEnd s) as [|x t]; rewrite ?Hd; eauto.
Qed.

End StringFacts.

(** ** The first token *)

Section FirstToken.
Import JsString Regex.

Lemma string_of_list_ascii_snoc (l : list ascii) (c : ascii) (s : string) :
  string_of_list_ascii (l ++ [c]) +:+ s = string_of_list_ascii l +:+ String c s.
Proof.
  induction l as [|x l IH]; [reflexivity|].
  simpl. rewrite !append_cons. now rewrite IH.
Qed.

Lemma append_nil_r (s : string) : s +:+ "" = s.
Proof. induction s as [|c s IH]; [reflexivity|]. rewrite append_cons. now rewrite IH. Qed.

Lemma star_greedy_some (p : ascii -> bool) (sn : list ascii) (rs : string)
    (cs : list (nat * string)) :
  exists e, star true p sn rs cs Some = Some e.
Proof.
  revert sn. induction rs as [|x t IH]; intros sn; simpl; [eauto|].
  destruct (p x); [|eauto].
  destruct (IH (x :: sn)) as [e ->]. eauto.
Qed.

(** [firstToken] is [split(/\s+/)[0]]: the text before the leftmost match
    of [\s+], and the whole text when there is no match. *)
Lemma firstToken_split_from (sn : list ascii) (s : string) :
  match execFrom plain (plus is_space) sn s with
  | Some f => before f
  | None => string_of_list_ascii (rev sn) +:+ s
  end = string_of_list_ascii (rev sn) +:+ firstToken s.
Proof.
  revert sn. induction s as [|c t IH]; intros sn.
  - reflexivity.
  - cbn [execFrom firstToken]. unfold matchAt, plus.
    cbn [run one rest seen caps].
    destruct (is_space c) eqn:Hc.
    + destruct (star_greedy_some is_space (c :: sn) t []) as [e ->].
      rewrite append_nil_r. reflexivity.
    + specialize (IH (c :: sn)). cbn [rev] in IH.
      rewrite !string_of_list_ascii_snoc in IH. exact IH.
Qed.

Lemma firstToken_split (s : string) :
  firstToken s = match exec plain (plus is_space) s with
                 | Some f => before f
                 | None => s
                 end.
Proof. symmetry. apply (firstToken_split_from [] s). Qed.

End FirstToken.

(** ** Texts, letter case and word boundaries *)

Section TextFacts.
Import JsString.

Lemma is_space_upper (c : ascii) : is_space (upper c) = is_space c.
Proof. destruct c as [[] [] [] [] [] [] [] []]; reflexivity. Qed.

Lemma is_word_upper (c : ascii) : is_word (upper c) = is_word c.
Proof. destruct c as [[] [] [] [] [] [] [] []]; reflexivity. Qed.

Lemma upper_upper (c : ascii) : upper (upper c) = upper c.
Proof. destruct c as [[] [] [] [] [] [] [] []]; reflexivity. Qed.

Lemma word_not_space (c : ascii) : is_word c = true -> is_space c = false.
Proof. destruct c as [[] [] [] [] [] [] [] []]; (reflexivity || discriminate). Qed.

Lemma toUpperCase_idem (s : string) : toUpperCase (toUpperCase s) = toUpperCase s.
Proof.
  induction s as [|c s IH]; [reflexivity|]. simpl. now rewrite upper_upper, IH.
Qed.

Lemma toUpperCase_append (a b : string) :
  toUpperCase (a +:+ b) = toUpperCase a +:+ toUpperCase b.
Proof.
  induction a as [|c a IH]; [reflexivity|].
  rewrite append_cons. simpl. rewrite append_cons. congruence.
Qed.

Lemma list_of_append (a b : string) :
  list_ascii_of_string (a +:+ b)
  = (list_ascii_of_string a ++ list_ascii_of_string b)%list.
Proof.
  induction a as [|c a IH]; [reflexivity|].
  rewrite append_cons. simpl. now rewrite IH.
Qed.

Lemma asciiText_append (a b : string) :
  asciiText (a +:+ b) <-> asciiText a /\ asciiText b.
Proof.
  unfold asciiText. rewrite list_of_append, forallb_app. apply andb_true_iff.
Qed.

(** A text of word characters in either letter case. *)
Lemma word_upper (s : string) :
  forallb is_word (list_ascii_of_string (toUpperCase s))
  = forallb is_word (list_ascii_of_string s).
Proof.
  induction s as [|c s IH]; [reflexivity|]. simpl. now rewrite is_word_upper, IH.
Qed.

Lemma trimEnd_cons (c : ascii) (s : string) :
  is_space c = false -> trimEnd (String c s) = String c (trimEnd s).
Proof. intros Hc. simpl. rewrite Hc. now destruct (trimEnd s). Qed.

Lemma trimStart_app (a : string) (c : ascii) (s : string) :
  is_space c = false ->
  trimStart (a +:+ String c s) = trimStart a +:+ String c s.
Proof.
  intros Hc. induction a as [|x a IH].
  - rewrite append_nil. simpl. now rewrite Hc.
  - rewrite append_cons. simpl. destruct (is_space x); [exact IH|].
    now rewrite append_cons.
Qed.

Lemma trimEnd_app (a : string) (c : ascii) (s : string) :
  is_space c = false ->
  trimEnd (a +:+ String c s) = a +:+ String c (trimEnd s).
Proof.
  intros Hc. induction a as [|x a IH].
  - rewrite !append_nil. now apply trimEnd_cons.
  - rewrite !append_cons. cbn [trimEnd]. rewrite IH.
    now destruct a.
Qed.

Lemma trimEnd_word (w s : string) :
  forallb is_word (list_ascii_of_string w) = true ->
  trimEnd (w +:+ s) = w +:+ trimEnd s.
Proof.
  induction w as [|c w IH]; [reflexivity|].
  intros H. simpl in H. apply andb_true_iff in H as [Hc Hw].
  rewrite !append_cons, trimEnd_cons by now apply word_not_space.
  now rewrite IH.
Qed.

(** A name of word characters is left alone by [trim]. *)
Lemma trim_word (w : string) :
  forallb is_word (list_ascii_of_string w) = true -> trim w = w.
Proof.
  intros H. unfold trim.
  assert (Hs : trimStart w = w).
  { destruct w as [|c w]; [reflexivity|]. simpl in *.
    apply andb_true_iff in H as [Hc _]. now rewrite (word_not_space c Hc). }
  rewrite Hs. rewrite <- (append_nil_r w) at 1.
  rewrite trimEnd_word by exact H. apply append_nil_r.
Qed.

Lemma endsWithWord_cons (c : ascii) (s : string) :
  endsWithWord (String c s)
  = match s with EmptyString => is_word c | _ => endsWithWord s end.
Proof. reflexivity. Qed.

Lemma endsWithWord_app (a b : string) :
  b <> "" -> endsWithWord (a +:+ b) = endsWithWord b.
Proof.
  intros Hb. induction a as [|c a IH]; [reflexivity|].
  rewrite append_cons, endsWithWord_cons.
  destruct (a +:+ b) eqn:Hab; [|exact IH].
  destruct a; [now rewrite append_nil in Hab | discriminate].
Qed.

Lemma endsWithWord_word (w : string) :
  w <> "" -> forallb is_word (list_ascii_of_string w) = true ->
  endsWithWord w = true.
Proof.
  induction w as [|c w IH]; [contradiction|].
  intros _ H. simpl in H. apply andb_true_iff in H as [Hc Hw].
  rewrite endsWithWord_cons. destruct w as [|d w]; [exact Hc|].
  now apply IH.
Qed.

(** The last character of a text, as the matcher sees it behind it. *)
Lemma endsWithWord_seen (s : string) :
  match rev (list_ascii_of_string s) with
  | [] => false
  | c :: _ => is_word c
  end = endsWithWord s.
Proof.
  induction s as [|c s IH]; [reflexivity|].
  rewrite endsWithWord_cons. cbn [list_ascii_of_string rev].
  destruct s as [|d s]; [reflexivity|].
  rewrite <- IH. cbn [list_ascii_of_string rev].
  now destruct (rev (list_ascii_of_string s) ++ [d])%list eqn:Hr;
    [destruct (rev (list_ascii_of_string s)); discriminate|].
Qed.

Lemma endsWithWord_upper (s : string) :
  endsWithWord (toUpperCase s) = endsWithWord s.
Proof.
  induction s as [|c s IH]; [reflexivity|].
  cbn [toUpperCase]. rewrite !endsWithWord_cons, IH, is_word_upper.
  now destruct s.
Qed.

Lemma startsWithWord_upper (s : string) :
  startsWithWord (toUpperCase s) = startsWithWord s.
Proof. destruct s; [reflexivity|]. simpl. apply is_word_upper. Qed.

Lemma endsWithWord_trimStart (s : string) :
  endsWithWord (trimStart s) = endsWithWord s.
Proof.
  induction s as [|c s IH]; [reflexivity|].
  cbn [trimStart]. destruct (is_space c) eqn:Hc; [|reflexivity].
  rewrite IH, endsWithWord_cons. destruct s; [|reflexivity].
  simpl. destruct (is_word c) eqn:Hw; [|reflexivity].
  now rewrite (word_not_space c Hw) in Hc.
Qed.

Lemma startsWithWord_trimEnd (s : string) :
  startsWithWord s = false -> startsWithWord (trimEnd s) = false.
Proof.
  destruct s as [|c s]; [reflexivity|]. simpl. intros Hc.
  destruct (trimEnd s); [destruct (is_space c)|]; simpl; auto.
Qed.

(** ** Collapsing white space *)

Lemma collapseFrom_app (b : bool) (a : string) (c : ascii) (s : string) :
  is_space c = false ->
  collapseFrom b (a +:+ String c s)
  = collapseFrom b a +:+ String c (collapseFrom false s).
Proof.
  intros Hc. revert b. induction a as [|x a IH]; intros b.
  - rewrite !append_nil. simpl. now rewrite Hc.
  - rewrite append_cons. simpl.
    destruct (is_space x); [destruct b|]; rewrite IH; reflexivity.
Qed.

Lemma collapseFrom_word (w s : string) :
  forallb is_word (list_ascii_of_string w) = true ->
  collapseFrom false (w +:+ s) = w +:+ collapseFrom false s.
Proof.
  induction w as [|c w IH]; [reflexivity|].
  intros H. simpl in H. apply andb_true_iff in H as [Hc Hw].
  rewrite !append_cons. cbn [collapseFrom].
  rewrite (word_not_space c Hc). now rewrite IH.
Qed.

Lemma collapseFrom_nonempty (c : ascii) (s : string) :
  collapseFrom false (String c s) <> "".
Proof. simpl. destruct (is_space c); discriminate. Qed.

Lemma endsWithWord_collapse (b : bool) (s : string) :
  endsWithWord (collapseFrom b s) = endsWithWord s.
Proof.
  revert b. induction s as [|c s IH]; intros b; [reflexivity|].
  rewrite endsWithWord_cons. cbn [collapseFrom].
  destruct (is_space c) eqn:Hc.
  - assert (Hw : is_word c = false).
    { destruct (is_word c) eqn:Hw; [|reflexivity].
      now rewrite (word_not_space c Hw) in Hc. }
    destruct b.
    + rewrite IH. destruct s; [now rewrite Hw | reflexivity].
    + rewrite endsWithWord_cons.
      destruct s as [|d s]; [simpl; now rewrite Hw|].
      specialize (IH true).
      destruct (collapseFrom true (String d s)) eqn:Hcol; [|exact IH].
      now rewrite <- IH.
  - rewrite endsWithWord_cons.
    destruct s as [|d s]; [reflexivity|].
    pose proof (collapseFrom_nonempty d s) as Hne.
    destruct (collapseFrom false (String d s)) eqn:Hcol; [contradiction|].
    rewrite <- Hcol. apply IH.
Qed.

Lemma startsWithWord_collapse (s : string) :
  startsWithWord s = false -> startsWithWord (collapseFrom false s) = false.
Proof.
  destruct s as [|c s]; [reflexivity|]. simpl. intros Hc.
  destruct (is_space c); simpl; [reflexivity | exact Hc].
Qed.

Lemma collapseFrom_trimStart (s : string) :
  collapseFrom true s = collapseFrom false (trimStart s).
Proof.
  induction s as [|c s IH]; [reflexivity|].
  simpl. destruct (is_space c) eqn:Hc; [exact IH|].
  simpl. now rewrite Hc.
Qed.

Lemma trimStart_length (s : string) :
  (String.length (trimStart s) <= String.length s)%nat.
Proof.
  induction s as [|c s IH]; [reflexivity|].
  simpl. destruct (is_space c); simpl; lia.
Qed.

End TextFacts.

(** ** The matcher on the whitelist pattern *)

Section Whitelist.
Import JsString Regex.

(** A literal word matches, ignoring case, exactly at a prefix. *)
Lemma run_lit_icase (l : string) (st : mstate) (k : mstate -> option mstate) :
  (forall st', succeeds (k st') = true) ->
  succeeds (run icase (lit l) st k)
  = String.prefix (toUpperCase l) (toUpperCase (rest st)).
Proof.
  intros Hk. revert st. induction l as [|c l IH]; intros st.
  - simpl. rewrite Hk. now destruct (toUpperCase (rest st)).
  - simpl. unfold one. destruct (rest st) as [|x t]; [reflexivity|].
    simpl. unfold chr_ok. simpl.
    destruct (Ascii.eqb_spec (upper c) (upper x)) as [Heq|Hne].
    + rewrite IH. simpl. rewrite Heq.
      destruct (ascii_dec (upper x) (upper x)); [reflexivity | contradiction].
    + destruct (ascii_dec (upper c) (upper x)); [contradiction | reflexivity].
Qed.

Lemma run_alt_lits (w : string) (ws : list string) (st : mstate)
    (k : mstate -> option mstate) :
  (forall st', succeeds (k st') = true) ->
  succeeds (run icase (alt (lit w) (map lit ws)) st k)
  = existsb (fun p => String.prefix (toUpperCase p) (toUpperCase (rest st))) (w :: ws).
Proof.
  intros Hk. revert w. induction ws as [|w' ws IH]; intros w.
  - simpl. rewrite orb_false_r. now apply run_lit_icase.
  - change (alt (lit w) (map lit (w' :: ws)))
      with (Alt (lit w) (alt (lit w') (map lit ws))).
    change (run icase (Alt (lit w) (alt (lit w') (map lit ws))) st k)
      with (match run icase (lit w) st k with
            | Some e => Some e
            | None => run icase (alt (lit w') (map lit ws)) st k
            end).
    pose proof (run_lit_icase w st k Hk) as Hw.
    destruct (run icase (lit w) st k) as [e|].
    + simpl in Hw. simpl. now rewrite <- Hw.
    + simpl in Hw. rewrite IH. simpl. now rewrite <- Hw.
Qed.

(** Without the [m] flag, [^] matches at the start only. *)
Lemma execFrom_bol_later (fl : flags) (r : regex) (c : ascii)
    (sn : list ascii) (rs : string) :
  multiline fl = false ->
  execFrom fl (Seq Bol r) (c :: sn) rs = None.
Proof.
  intros Hm. revert c sn. induction rs as [|x t IH]; intros c sn.
  - simpl. unfold matchAt. simpl. unfold at_bol. simpl. now rewrite Hm.
  - simpl. unfold matchAt. simpl. unfold at_bol. simpl. rewrite Hm. simpl.
    apply IH.
Qed.

Lemma test_bol (fl : flags) (r : regex) (s : string) :
  multiline fl = false ->
  test fl (Seq Bol r) s
  = succeeds (run fl r {| seen := []; rest := s; caps := [] |} Some).
Proof.
  intros Hm. unfold test, exec.
  destruct s as [|x t].
  - simpl. unfold matchAt. simpl.
    now destruct (run fl r {| seen := []; rest := ""; caps := [] |} Some).
  - simpl. unfold matchAt. simpl.
    destruct (run fl r {| seen := []; rest := String x t; caps := [] |} Some);
      [reflexivity|].
    now rewrite execFrom_bol_later.
Qed.

(** The whitelist test of [mcp_execute_procedure] is a case-insensitive
    prefix test against the six [usp_] words. *)
Lemma isReadOnlyProcedure_prefix (sp : string) :
  TokenGate.isReadOnlyProcedure sp
  = existsb (fun p => String.prefix (toUpperCase p) (toUpperCase sp))
      TokenGate.readOnlyPrefixes.
Proof.
  unfold TokenGate.isReadOnlyProcedure, TokenGate.readOnlyPattern.
  cbn [seq]. rewrite test_bol by reflexivity.
  change (run icase (Seq (Group 1 (oneOf TokenGate.readOnlyPrefixes)) Eps)
            {| seen := []; rest := sp; caps := [] |} Some)
    with (run icase (alt (lit "usp_Get")
                       (map lit ["usp_Select"; "usp_Search"; "usp_Find";
                                 "usp_List"; "usp_View"]))
            {| seen := []; rest := sp; caps := [] |}
            (fun st' => Some {| seen := seen st'; rest := rest st';
                                caps := (1%nat, consumed {| seen := []; rest := sp; caps := [] |} st')
                                        :: caps st' |})).
  now rewrite run_alt_lits.
Qed.

End Whitelist.

(** ** The matcher on the patterns of the source *)

Section MatcherFacts.
Import JsString Regex.

Lemma exec_at_start (fl : flags) (r : regex) (s : string) (e : mstate) :
  matchAt fl r [] s = Some e -> exec fl r s = Some (mkFound [] e).
Proof. intros H. unfold exec. destruct s; simpl; now rewrite H. Qed.

Lemma exec_bol_before (fl : flags) (r : regex) (s : string) (f : found) :
  multiline fl = false ->
  exec fl (Seq Bol r) s = Some f -> before f = "".
Proof.
  intros Hm. unfold exec. destruct s as [|x t]; simpl.
  - destruct (matchAt fl (Seq Bol r) [] ""); [|discriminate].
    intros H. inversion H. reflexivity.
  - destruct (matchAt fl (Seq Bol r) [] (String x t)).
    + intros H. inversion H. reflexivity.
    + now rewrite execFrom_bol_later.
Qed.

(** A match somewhere in the text is found by the search, possibly
    after an earlier one. *)
Lemma execFrom_finds (fl : flags) (r : regex) (a : string) (sn : list ascii)
    (rs : string) (e : mstate) :
  matchAt fl r (rev (list_ascii_of_string a) ++ sn)%list rs = Some e ->
  exists f, execFrom fl r sn (a +:+ rs) = Some f.
Proof.
  revert sn. induction a as [|c a IH]; intros sn H.
  - rewrite append_nil. simpl in H. destruct rs; simpl; rewrite H; eauto.
  - rewrite append_cons. cbn [execFrom].
    destruct (matchAt fl r sn (String c (a +:+ rs))); [eauto|].
    apply IH. cbn [list_ascii_of_string rev] in H.
    now rewrite <- app_assoc in H.
Qed.

(** The text passed by a run that went from [sn] over [x]. *)
Lemma consumed_app (x : string) (sn : list ascii) (st e : mstate) :
  seen st = sn ->
  seen e = (rev (list_ascii_of_string x) ++ sn)%list ->
  consumed st e = x.
Proof.
  intros Hs He. unfold consumed. rewrite Hs, He.
  rewrite length_app, Nat.add_sub.
  rewrite firstn_app, Nat.sub_diag, firstn_all. simpl. rewrite app_nil_r.
  rewrite rev_involutive. apply string_of_list_ascii_of_string.
Qed.

(** A literal word, ignoring case: where it matches and where it cannot. *)
Lemma run_lit_exact (l pre r : string) (st : mstate)
    (k : mstate -> option mstate) :
  toUpperCase pre = toUpperCase l ->
  rest st = pre +:+ r ->
  run icase (lit l) st k
  = k {| seen := (rev (list_ascii_of_string pre) ++ seen st)%list;
         rest := r; caps := caps st |}.
Proof.
  revert pre st. induction l as [|c l IH]; intros pre st Hu Hr.
  - destruct pre; [|discriminate]. destruct st. simpl in *. now subst.
  - destruct pre as [|x pre]; [discriminate|].
    cbn [toUpperCase] in Hu. injection Hu as Hx Hu.
    cbn [lit run]. unfold one. rewrite Hr, append_cons.
    unfold chr_ok. cbn [ignoreCase icase]. rewrite Hx, Ascii.eqb_refl.
    erewrite (IH pre _ Hu) by reflexivity.
    cbn [seen rest caps list_ascii_of_string rev].
    now rewrite <- app_assoc.
Qed.

Lemma run_lit_inv (l : string) (st e : mstate) (k : mstate -> option mstate) :
  run icase (lit l) st k = Some e ->
  exists pre r,
    rest st = pre +:+ r
    /\ toUpperCase pre = toUpperCase l
    /\ k {| seen := (rev (list_ascii_of_string pre) ++ seen st)%list;
            rest := r; caps := caps st |} = Some e.
Proof.
  revert st. induction l as [|c l IH]; intros st H.
  - exists "", (rest st). destruct st. simpl in *. now repeat split.
  - cbn [lit run] in H. unfold one in H.
    destruct (rest st) as [|x t] eqn:Hr; [discriminate|].
    unfold chr_ok in H. cbn [ignoreCase icase] in H.
    destruct (Ascii.eqb_spec (upper c) (upper x)) as [Hx|]; [|discriminate].
    apply IH in H as (pre & r & Hrest & Hup & Hk).
    cbn [rest seen caps] in Hrest, Hk.
    exists (String x pre), r. split; [now rewrite append_cons, <- Hrest|].
    split; [cbn [toUpperCase]; now rewrite Hup, Hx|].
    cbn [list_ascii_of_string rev]. now rewrite <- app_assoc.
Qed.

Lemma run_lit_mismatch (c x : ascii) (l t : string) (st : mstate)
    (k : mstate -> option mstate) :
  rest st = String x t -> upper c <> upper x ->
  run icase (lit (String c l)) st k = None.
Proof.
  intros Hr Hne. cbn [lit run]. unfold one. rewrite Hr.
  unfold chr_ok. cbn [ignoreCase icase].
  now destruct (Ascii.eqb_spec (upper c) (upper x)).
Qed.

(** A greedy star in front of a continuation that cannot fail takes all
    the white space there is. *)
Lemma star_spaces (sn : list ascii) (rs : string) (cs : list (nat * string))
    (k : mstate -> option mstate) :
  (forall st, exists e, k st = Some e) ->
  exists sn', star true is_space sn rs cs k
              = k {| seen := sn'; rest := trimStart rs; caps := cs |}.
Proof.
  intros Hk. revert sn. induction rs as [|x t IH]; intros sn; simpl; [eauto|].
  destruct (is_space x); [|eauto].
  destruct (IH (x :: sn)) as [sn' Hs]. exists sn'. rewrite Hs.
  destruct (Hk {| seen := sn'; rest := trimStart t; caps := cs |}) as [e He].
  now rewrite He.
Qed.

Lemma star_stop (g : bool) (p : ascii -> bool) (r : string) (sn : list ascii)
    (cs : list (nat * string)) (k : mstate -> option mstate) :
  stops p r ->
  star g p sn r cs k = k {| seen := sn; rest := r; caps := cs |}.
Proof. destruct r as [|d r]; simpl; [reflexivity|]. now intros ->. Qed.

(** A greedy star takes the whole run when the continuation accepts
    there. *)
Lemma star_take (p : ascii -> bool) (x r : string) (sn : list ascii)
    (cs : list (nat * string)) (k : mstate -> option mstate) (e : mstate) :
  forallb p (list_ascii_of_string x) = true ->
  stops p r ->
  k {| seen := (rev (list_ascii_of_string x) ++ sn)%list; rest := r; caps := cs |}
  = Some e ->
  star true p sn (x +:+ r) cs k = Some e.
Proof.
  revert sn. induction x as [|c x IH]; intros sn Hx Hr Hk.
  - rewrite append_nil, star_stop by exact Hr. exact Hk.
  - simpl in Hx. apply andb_true_iff in Hx as [Hc Hx].
    rewrite append_cons. cbn [star]. rewrite Hc.
    rewrite (IH (c :: sn) Hx Hr); [reflexivity|].
    cbn [list_ascii_of_string rev] in Hk. now rewrite <- app_assoc in Hk.
Qed.

(** It gives one character back when the continuation refuses after the
    whole run and accepts one character earlier. *)
Lemma star_backoff (p : ascii -> bool) (x : string) (last : ascii) (r : string)
    (sn : list ascii) (cs : list (nat * string)) (k : mstate -> option mstate)
    (e : mstate) :
  forallb p (list_ascii_of_string x) = true ->
  p last = true ->
  stops p r ->
  k {| seen := (last :: rev (list_ascii_of_string x) ++ sn)%list;
       rest := r; caps := cs |} = None ->
  k {| seen := (rev (list_ascii_of_string x) ++ sn)%list;
       rest := String last r; caps := cs |} = Some e ->
  star true p sn (x +:+ String last r) cs k = Some e.
Proof.
  revert sn. induction x as [|c x IH]; intros sn Hx Hl Hr Hnone Hk.
  - rewrite append_nil. cbn [star]. rewrite Hl.
    rewrite star_stop by exact Hr. simpl in Hnone, Hk. now rewrite Hnone.
  - simpl in Hx. apply andb_true_iff in Hx as [Hc Hx].
    rewrite append_cons. cbn [star]. rewrite Hc.
    rewrite (IH (c :: sn) Hx Hl Hr); [reflexivity| |].
    + cbn [list_ascii_of_string rev] in Hnone. now rewrite <- app_assoc in Hnone.
    + cbn [list_ascii_of_string rev] in Hk. now rewrite <- app_assoc in Hk.
Qed.

Lemma star_inv (p : ascii -> bool) (rs : string) (sn : list ascii)
    (cs : list (nat * string)) (k : mstate -> option mstate) (e : mstate) :
  star true p sn rs cs k = Some e ->
  exists x r,
    rs = x +:+ r
    /\ forallb p (list_ascii_of_string x) = true
    /\ k {| seen := (rev (list_ascii_of_string x) ++ sn)%list;
            rest := r; caps := cs |} = Some e.
Proof.
  revert sn. induction rs as [|c t IH]; intros sn H.
  - exists "", "". now repeat split.
  - cbn [star] in H. destruct (p c) eqn:Hc.
    + destruct (star true p (c :: sn) t cs k) as [e'|] eqn:Hs.
      * injection H as <-. apply IH in Hs as (x & r & -> & Hx & Hk).
        exists (String c x), r. split; [reflexivity|].
        split; [simpl; now rewrite Hc|].
        cbn [list_ascii_of_string rev]. now rewrite <- app_assoc.
      * exists "", (String c t). now repeat split.
    + exists "", (String c t). now repeat split.
Qed.

End MatcherFacts.

(** ** The operation classifier *)

Section Classifier.
Import JsString SecurityUtils.

Lemma write_keyword_recognized (clean k : string) :
  In k WRITE_OPERATIONS -> firstToken clean = k ->
  some (fun op => startsWith clean op) WRITE_OPERATIONS = true.
Proof.
  intros Hin Hk. apply existsb_exists. exists k. split; [exact Hin|].
  now apply firstToken_startsWith.
Qed.

Lemma read_prefix_not_write (clean k : string) :
  In k READ_OPERATIONS -> startsWith clean k = true ->
  some (fun op => startsWith clean op) WRITE_OPERATIONS = false.
Proof.
  intros Hin Hp. apply prefix_split in Hp as [r ->].
  simpl in Hin.
  repeat (destruct Hin as [<-|Hin]; [reflexivity|]). contradiction.
Qed.

Lemma read_keyword_recognized (clean k : string) :
  In k READ_OPERATIONS -> firstToken clean = k ->
  some (fun op => startsWith clean op) WRITE_OPERATIONS = false
  /\ some (fun op => startsWith clean op) READ_OPERATIONS = true.
Proof.
  intros Hin Hk. pose proof (firstToken_startsWith _ _ Hk) as Hp. split.
  - now apply (read_prefix_not_write clean k).
  - apply existsb_exists. now exists k.
Qed.

(** X29.  The risk table of [analyzeQuery], for a statement of ASCII
    characters: the first token DELETE, DROP, TRUNCATE or ALTER gives
    HIGH, UPDATE gives MEDIUM and INSERT gives LOW, each requiring
    confirmation; a read keyword as first token gives LOW without
    confirmation.  Recognition itself goes by the prefix of the normalized
    text: a text starting with a write keyword whose first token is none
    of the six above is MEDIUM and requires confirmation, a text starting
    with no write keyword but with a read keyword is LOW without
    confirmation, and a text starting with neither is HIGH and requires
    confirmation. *)
Theorem analyzeQuery_risk_table (sql : string) :
  asciiText sql ->
  let a := analyzeQuery sql in
  let kw := firstKeyword sql in
  (kw = "DELETE" \/ kw = "DROP" \/ kw = "TRUNCATE" \/ kw = "ALTER" ->
     riskLevel a = HIGH /\ requiresConfirmation a = true)
  /\ (kw = "UPDATE" -> riskLevel a = MEDIUM /\ requiresConfirmation a = true)
  /\ (kw = "INSERT" -> riskLevel a = LOW /\ requiresConfirmation a = true)
  /\ (In kw READ_OPERATIONS ->
        riskLevel a = LOW /\ requiresConfirmation a = false)
  /\ (isWriteOperation sql = true ->
      ~ In kw ["DELETE"; "DROP"; "TRUNCATE"; "ALTER"; "UPDATE"; "INSERT"] ->
        riskLevel a = MEDIUM /\ requiresConfirmation a = true)
  /\ (isWriteOperation sql = false -> isReadOperation sql = true ->
        riskLevel a = LOW /\ requiresConfirmation a = false)
  /\ (isWriteOperation sql = false -> isReadOperation sql = false ->
        riskLevel a = HIGH /\ requiresConfirmation a = true).
Proof.
  intros _.
  unfold analyzeQuery, firstKeyword, isWriteOperation, isReadOperation, normalized.
  set (clean := toUpperCase (trim sql)).
  repeat split.
  1-2: destruct H as [H|[H|[H|H]]];
       rewrite (fun Hin => write_keyword_recognized clean _ Hin H)
         by (simpl; tauto);
       rewrite H; reflexivity.
  1-4: rewrite (fun Hin => write_keyword_recognized clean _ Hin H)
         by (simpl; tauto);
       rewrite H; reflexivity.
  1-2: destruct (read_keyword_recognized clean _ H eq_refl) as [-> ->];
       reflexivity.
  1-2: rewrite H;
       destruct (String.eqb_spec (firstToken clean) "DELETE") as [E|_];
         [exfalso; apply H0; rewrite E; simpl; tauto|];
       destruct (String.eqb_spec (firstToken clean) "DROP") as [E|_];
         [exfalso; apply H0; rewrite E; simpl; tauto|];
       destruct (String.eqb_spec (firstToken clean) "TRUNCATE") as [E|_];
         [exfalso; apply H0; rewrite E; simpl; tauto|];
       destruct (String.eqb_spec (firstToken clean) "ALTER") as [E|_];
         [exfalso; apply H0; rewrite E; simpl; tauto|];
       destruct (String.eqb_spec (firstToken clean) "UPDATE") as [E|_];
         [exfalso; apply H0; rewrite E; simpl; tauto|];
       destruct (String.eqb_spec (firstToken clean) "INSERT") as [E|_];
         [exfalso; apply H0; rewrite E; simpl; tauto|];
       reflexivity.
  1-4: rewrite H, H0; reflexivity.
Qed.

Lemma analyzeQuery_risk_table_witness :
  (riskLevel (analyzeQuery "  drop table [dbo].[T]") = HIGH
   /\ requiresConfirmation (analyzeQuery "  drop table [dbo].[T]") = true)
  /\ (riskLevel (analyzeQuery "update T set a = 1") = MEDIUM
      /\ requiresConfirmation (analyzeQuery "update T set a = 1") = true)
  /\ (riskLevel (analyzeQuery "Insert into T values (1)") = LOW
      /\ requiresConfirmation (analyzeQuery "Insert into T values (1)") = true)
  /\ (riskLevel (analyzeQuery "select 1") = LOW
      /\ requiresConfirmation (analyzeQuery "select 1") = false)
  /\ (riskLevel (analyzeQuery "MERGE INTO T") = MEDIUM
      /\ requiresConfirmation (analyzeQuery "MERGE INTO T") = true)
  /\ (riskLevel (analyzeQuery "SELECT* FROM T") = LOW
      /\ requiresConfirmation (analyzeQuery "SELECT* FROM T") = false)
  /\ (riskLevel (analyzeQuery "GRANT ALL TO me") = HIGH
      /\ requiresConfirmation (analyzeQuery "GRANT ALL TO me") = true).
Proof.
  split; [destruct (analyzeQuery_risk_table "  drop table [dbo].[T]" eq_refl) as (H & _);
          apply H; right; left; reflexivity|].
  split; [destruct (analyzeQuery_risk_table "update T set a = 1" eq_refl) as (_ & H & _);
          apply H; reflexivity|].
  split; [destruct (analyzeQuery_risk_table "Insert into T values (1)" eq_refl) as (_ & _ & H & _);
          apply H; reflexivity|].
  split; [destruct (analyzeQuery_risk_table "select 1" eq_refl) as (_ & _ & _ & H & _);
          apply H; simpl; tauto|].
  split; [destruct (analyzeQuery_risk_table "MERGE INTO T" eq_refl) as (_ & _ & _ & _ & H & _);
          apply H; [reflexivity | vm_compute; intuition discriminate]|].
  split; [destruct (analyzeQuery_risk_table "SELECT* FROM T" eq_refl) as (_ & _ & _ & _ & _ & H & _);
          apply H; reflexivity|].
  destruct (analyzeQuery_risk_table "GRANT ALL TO me" eq_refl) as (_ & _ & _ & _ & _ & _ & H).
  apply H; reflexivity.
Defined.

End Classifier.

Section Normalization.
Import JsString SecurityUtils.

Lemma normalized_comment_marker (c d : ascii) (body : string) :
  is_space c = false -> is_space d = false ->
  exists r, normalized (String c (String d body))
            = String (upper c) (String (upper d) r).
Proof.
  intros Hc Hd. unfold normalized, trim.
  change (trimStart (String c (String d body)))
    with (if is_space c then trimStart (String d body)
          else String c (String d body)).
  rewrite Hc.
  destruct (trimEnd_keeps c d body Hd) as [r ->].
  now exists (toUpperCase r).
Qed.





End Normalization.

(** ** The impact estimator *)

Section Estimator.
Import JsString Regex SecurityUtils.

Lemma sent_nil (w : World) : sent [] w = w.
Proof. destruct w. unfold sent. simpl. now rewrite app_nil_r. Qed.

(** The estimator always returns; it sends nothing or its one count
    query, and reports the tables found in the text. *)
Lemma estimateImpact_returns (E : Env) (sql : string) (w : World) :
  exists imp,
    estimateImpact E sql w = (Returned imp, sent (estimatorCalls sql) w)
    /\ affectedTables imp = extractTables sql.
Proof.
  unfold estimateImpact, estimatorCalls, countQuery, try_catch, bind, ret.
  destruct (startsWith (toUpperCase (trim sql)) "DELETE") eqn:Hd; simpl.
  - destruct (replaceFirst icase deletePrefix sql _) as [|c q].
    + eexists. rewrite sent_nil. now split.
    + unfold send.
      destruct (pool E (db_calls w) (Query (String c q))) as [res|err].
      * unfold readEstimate.
        destruct (recordset res) as [[|row rows]|]; eexists; now split.
      * eexists. now split.
  - destruct (startsWith (toUpperCase (trim sql)) "UPDATE") eqn:Hu; simpl.
    + destruct (exec icase updatePattern sql) as [fromMatch|].
      * destruct ("SELECT COUNT(*) AS estimated_rows FROM " +:+ _) as [|c q].
        -- eexists. rewrite sent_nil. now split.
        -- unfold send.
           destruct (pool E (db_calls w) (Query (String c q))) as [res|err].
           ++ unfold readEstimate.
              destruct (recordset res) as [[|row rows]|]; eexists; now split.
           ++ eexists. now split.
      * eexists. rewrite sent_nil. now split.
    + eexists. rewrite sent_nil. now split.
Qed.

(** No DELETE and no UPDATE in front: nothing is sent. *)
Lemma estimateImpact_other (E : Env) (sql : string) (w : World) :
  startsWith (normalized sql) "DELETE" = false ->
  startsWith (normalized sql) "UPDATE" = false ->
  estimateImpact E sql w
  = (Returned {| estimatedRows := 0; affectedTables := extractTables sql;
                 warning := None |}, w).
Proof.
  unfold normalized. intros Hd Hu.
  unfold estimateImpact, try_catch, bind, ret. now rewrite Hd, Hu.
Qed.

(** A rejected count query: zero rows, the warning, the tables kept. *)
Lemma estimateImpact_rejected (E : Env) (sql err : string) (w : World) :
  startsWith (normalized sql) "DELETE" || startsWith (normalized sql) "UPDATE" = true ->
  countQuery sql <> "" ->
  pool E (db_calls w) (Query (countQuery sql)) = inr err ->
  estimateImpact E sql w
  = (Returned {| estimatedRows := 0; affectedTables := extractTables sql;
                 warning := Some "Could not estimate the number of affected rows" |},
     sent [Query (countQuery sql)] w).
Proof.
  unfold normalized. intros Hp Hq Hr.
  unfold estimateImpact, try_catch, bind, ret. rewrite Hp.
  destruct (countQuery sql) as [|c q]; [contradiction|].
  unfold send. now rewrite Hr.
Qed.

Lemma countQuery_nonempty_prefix (sql : string) :
  countQuery sql <> "" ->
  startsWith (toUpperCase (trim sql)) "DELETE"
  || startsWith (toUpperCase (trim sql)) "UPDATE" = true.
Proof.
  unfold countQuery.
  destruct (startsWith (toUpperCase (trim sql)) "DELETE"); [reflexivity|].
  destruct (startsWith (toUpperCase (trim sql)) "UPDATE"); [reflexivity|].
  intros H. now contradiction H.
Qed.

(** The three texts the estimator can come to send. *)
Lemma countQuery_cases (sql : string) :
  countQuery sql = ""
  \/ (exists rest, countQuery sql = "SELECT COUNT(*) AS estimated_rows " +:+ rest)
  \/ (countQuery sql = sql
      /\ startsWith (normalized sql) "DELETE" = true
      /\ test icase deletePrefix sql = false).
Proof.
  unfold countQuery, normalized.
  destruct (startsWith (toUpperCase (trim sql)) "DELETE").
  - unfold replaceFirst, test.
    destruct (exec icase deletePrefix sql) as [f|] eqn:Hx.
    + right. left. exists (after f).
      rewrite (exec_bol_before icase _ sql f eq_refl Hx). reflexivity.
    + right. right. now repeat split.
  - destruct (startsWith (toUpperCase (trim sql)) "UPDATE"); [|now left].
    destruct (exec icase updatePattern sql) as [f|]; [|now left].
    right. left. eexists. reflexivity.
Qed.

(** A DELETE written as the rewrite expects it is turned into a row count. *)
Lemma countQuery_delete (kw : string) (sp : ascii) (tail : string) :
  toUpperCase kw = "DELETE" ->
  is_space sp = true ->
  countQuery (kw +:+ String sp tail)
  = "SELECT COUNT(*) AS estimated_rows " +:+ trimStart tail.
Proof.
  intros Hkw Hsp.
  assert (Hm : exists e, matchAt icase deletePrefix [] (kw +:+ String sp tail) = Some e
                         /\ rest e = trimStart tail).
  { unfold matchAt, deletePrefix. cbn [seq run]. unfold at_bol. cbn [seen].
    rewrite (run_lit_exact "DELETE" kw (String sp tail)) by (assumption || reflexivity).
    unfold plus. cbn [run]. unfold one. cbn [rest seen caps]. rewrite Hsp.
    match goal with |- context [star true is_space ?sn tail ?cs ?k] =>
      destruct (star_spaces sn tail cs k) as [sn' Hs]; [intros st; now eexists|] end.
    rewrite Hs. cbn [run]. eexists. split; reflexivity. }
  destruct Hm as (e & Hm & He).
  destruct kw as [|c1 [|c2 [|c3 [|c4 [|c5 [|c6 [|c7 kw]]]]]]]; try discriminate.
  cbn [toUpperCase] in Hkw. injection Hkw as H1 H2 H3 H4 H5 H6.
  assert (S1 : is_space c1 = false) by now rewrite <- is_space_upper, H1.
  assert (S2 : is_space c2 = false) by now rewrite <- is_space_upper, H2.
  assert (S3 : is_space c3 = false) by now rewrite <- is_space_upper, H3.
  assert (S4 : is_space c4 = false) by now rewrite <- is_space_upper, H4.
  assert (S5 : is_space c5 = false) by now rewrite <- is_space_upper, H5.
  assert (S6 : is_space c6 = false) by now rewrite <- is_space_upper, H6.
  unfold countQuery.
  assert (Hp : startsWith
                 (toUpperCase (trim (String c1 (String c2 (String c3 (String c4
                    (String c5 (String c6 "")))))
                    +:+ String sp tail)))
                 "DELETE" = true).
  { rewrite !append_cons, append_nil. unfold trim. cbn [trimStart]. rewrite S1.
    rewrite !trimEnd_cons by assumption.
    cbn [toUpperCase]. rewrite H1, H2, H3, H4, H5, H6.
    apply prefix_split. eexists. reflexivity. }
  rewrite Hp. unfold replaceFirst.
  rewrite (exec_at_start _ _ _ e Hm). cbn [before after mkFound rev].
  rewrite He. reflexivity.
Qed.

Lemma normalized_head (c : ascii) (s : string) :
  is_space c = false ->
  exists r, toUpperCase (trim (String c s)) = String (upper c) r.
Proof.
  intros Hc. unfold trim. cbn [trimStart]. rewrite Hc, trimEnd_cons by exact Hc.
  cbn [toUpperCase]. eauto.
Qed.

(** A row count is not a statement the estimator estimates. *)
Lemma count_not_estimated (rest : string) :
  countQuery ("SELECT COUNT(*) AS estimated_rows " +:+ rest) = "".
Proof.
  destruct (normalized_head "S" ("ELECT COUNT(*) AS estimated_rows " +:+ rest) eq_refl)
    as [r Hr].
  unfold countQuery.
  change ("SELECT COUNT(*) AS estimated_rows " +:+ rest)
    with (String "S" ("ELECT COUNT(*) AS estimated_rows " +:+ rest)).
  now rewrite Hr.
Qed.

(** With the DELETE written as the rewrite expects it, the estimator sends
    nothing or one row count, never the statement. *)
Lemma estimatorCalls_counts (sql : string) :
  (startsWith (normalized sql) "DELETE" = true -> deleteWritten sql) ->
  (estimatorCalls sql = []
   \/ exists rest,
        estimatorCalls sql = [Query ("SELECT COUNT(*) AS estimated_rows " +:+ rest)])
  /\ ~ In (Query sql) (estimatorCalls sql).
Proof.
  intros Hd.
  assert (Hc : countQuery sql = ""
               \/ exists rest,
                    countQuery sql = "SELECT COUNT(*) AS estimated_rows " +:+ rest).
  { destruct (countQuery_cases sql) as [H|[H|(_ & Hs & _)]]; [now left | now right|].
    destruct (Hd Hs) as (kw & sp & tail & -> & Hkw & Hsp).
    right. exists (trimStart tail). now apply countQuery_delete. }
  unfold estimatorCalls.
  destruct Hc as [->|[rest Hq]].
  - split; [now left | intros []].
  - rewrite Hq, append_cons. split; [right; now exists rest|].
    intros [Heq|[]]. injection Heq as Heq.
    rewrite <- append_cons in Heq.
    pose proof (count_not_estimated rest) as Hn.
    rewrite Heq, Hq in Hn. rewrite !append_cons in Hn. discriminate.
Qed.

End Estimator.

(** ** The table pattern *)

Section TablePattern.
Import JsString Regex SecurityUtils.

Lemma keyword_first (kw w : string) :
  toUpperCase kw = w -> w <> "" ->
  exists c kw', kw = String c kw' /\ toUpperCase (String c kw') = w.
Proof.
  intros H Hne. destruct kw as [|c kw']; [now subst|]. now exists c, kw'.
Qed.

(** The keyword alternation passes exactly one of its four words, in any
    letter case. *)
Lemma clauseKeyword_run (kw r : string) (st : mstate)
    (k : mstate -> option mstate) :
  In (toUpperCase kw) ["FROM"; "UPDATE"; "INTO"; "JOIN"] ->
  rest st = kw +:+ r ->
  run icase clauseKeyword st k
  = k {| seen := (rev (list_ascii_of_string kw) ++ seen st)%list;
         rest := r; caps := caps st |}.
Proof.
  intros Hin Hr.
  unfold clauseKeyword, oneOf. cbn [map alt].
  destruct kw as [|c kw]; [simpl in Hin; intuition discriminate|].
  assert (Hx : rest st = String c (kw +:+ r)) by now rewrite Hr, append_cons.
  simpl in Hin. destruct Hin as [H|[H|[H|[H|[]]]]];
    injection H as Hc Hkw;
    cbn [run];
    repeat match goal with
           | |- context [run icase (lit (String ?a ?l)) st ?k'] =>
               first
                 [ rewrite (run_lit_mismatch a c l (kw +:+ r) st k' Hx)
                     by (rewrite <- Hc; discriminate)
                 | rewrite (run_lit_exact (String a l) (String c kw) r st k')
                     by (assumption || (cbn [toUpperCase]; now rewrite <- Hc, <- Hkw)) ]
           end;
    match goal with |- match ?x with _ => _ end = _ => now destruct x end
    || reflexivity.
Qed.

Lemma clauseKeyword_inv (st e : mstate) (k : mstate -> option mstate) :
  run icase clauseKeyword st k = Some e ->
  exists kw r,
    rest st = kw +:+ r
    /\ In (toUpperCase kw) ["FROM"; "UPDATE"; "INTO"; "JOIN"]
    /\ k {| seen := (rev (list_ascii_of_string kw) ++ seen st)%list;
            rest := r; caps := caps st |} = Some e.
Proof.
  unfold clauseKeyword, oneOf. cbn [map alt run]. intros H.
  repeat match type of H with
         | match run icase (lit ?l) st k with _ => _ end = _ =>
             let Hl := fresh "Hl" in
             destruct (run icase (lit l) st k) as [e'|] eqn:Hl;
               [injection H as <-; apply run_lit_inv in Hl as (kw & r & Hr & Hu & Hk);
                exists kw, r; split; [exact Hr|]; split; [rewrite Hu; simpl; tauto | exact Hk]|]
         end.
  apply run_lit_inv in H as (kw & r & Hr & Hu & Hk).
  exists kw, r. split; [exact Hr|]. split; [rewrite Hu; simpl; tauto | exact Hk].
Qed.

(** Where the table pattern matches, a clause keyword stands. *)
Lemma tablePattern_keyword (sn : list ascii) (b : string) (e : mstate) :
  matchAt icase tablePattern sn b = Some e -> keywordAhead b = true.
Proof.
  unfold matchAt, tablePattern. cbn [seq run]. intros H.
  apply clauseKeyword_inv in H as (kw & r & Hr & Hin & _).
  cbn [rest] in Hr. subst b. unfold keywordAhead.
  apply existsb_exists. exists (toUpperCase kw). split; [exact Hin|].
  unfold startsWith. apply prefix_split. exists (toUpperCase r).
  apply toUpperCase_append.
Qed.

(** An optional character that is not there is passed over. *)
Lemma opt_skip (c : ascii) (st : mstate) (k : mstate -> option mstate) :
  stops (fun x => Ascii.eqb (upper c) (upper x)) (rest st) ->
  run icase (Opt (Chr c)) st k = k st.
Proof.
  intros H. cbn [run]. unfold one, chr_ok. cbn [ignoreCase icase].
  destruct (rest st) as [|x t]; [reflexivity|]. simpl in H. now rewrite H.
Qed.

Lemma word_no_mark (c x : ascii) :
  is_word x = true -> In c ["["; "]"; "."]%char ->
  Ascii.eqb (upper c) (upper x) = false.
Proof.
  intros Hx Hc. simpl in Hc. destruct Hc as [<-|[<-|[<-|[]]]];
    destruct x as [[] [] [] [] [] [] [] []]; (reflexivity || discriminate).
Qed.

Lemma endsName_stops (post : string) :
  endsName post = true ->
  stops is_word post
  /\ forall c, In c ["["; "]"; "."]%char ->
               stops (fun x => Ascii.eqb (upper c) (upper x)) post.
Proof.
  destruct post as [|x t]; [now split|]. cbn [endsName stops]. intros H.
  apply negb_true_iff in H.
  apply orb_false_iff in H as [H H3]. apply orb_false_iff in H as [H H2].
  apply orb_false_iff in H as [H H1].
  split; [exact H|]. intros c Hc. simpl in Hc.
  destruct Hc as [<-|[<-|[<-|[]]]];
    destruct x as [[] [] [] [] [] [] [] []]; (reflexivity || discriminate).
Qed.

Lemma run_seq (fl : flags) (r1 r2 : regex) (st : mstate)
    (k : mstate -> option mstate) :
  run fl (Seq r1 r2) st k = run fl r1 st (fun st' => run fl r2 st' k).
Proof. reflexivity. Qed.

Lemma plus_step (fl : flags) (p : ascii -> bool) (x : ascii) (t : string)
    (st : mstate) (k : mstate -> option mstate) :
  rest st = String x t -> p x = true ->
  run fl (plus p) st k = star true p (x :: seen st) t (caps st) k.
Proof. intros Hr Hx. unfold plus. cbn [run]. unfold one. now rewrite Hr, Hx. Qed.

Lemma plus_stops (fl : flags) (p : ascii -> bool) (st : mstate)
    (k : mstate -> option mstate) :
  stops p (rest st) -> run fl (plus p) st k = None.
Proof.
  intros H. unfold plus. cbn [run]. unfold one.
  destruct (rest st); [reflexivity|]. simpl in H. now rewrite H.
Qed.

(** The table-name pattern on a plain name: it passes the whole name.
    Its two [\w+] share the name, the second taking its last character. *)
Lemma tableName_run (n1 : ascii) (mid : string) (last : ascii) (post : string)
    (st e : mstate) (k : mstate -> option mstate) :
  is_word n1 = true ->
  forallb is_word (list_ascii_of_string mid) = true ->
  is_word last = true ->
  endsName post = true ->
  rest st = String n1 (mid +:+ String last post) ->
  k {| seen := (last :: rev (list_ascii_of_string mid) ++ n1 :: seen st)%list;
       rest := post; caps := caps st |} = Some e ->
  run icase tableName st k = Some e.
Proof.
  intros Hn1 Hmid Hlast Hpost Hr Hk.
  destruct (endsName_stops post Hpost) as [Hw Hm].
  unfold tableName. cbn [seq].
  rewrite run_seq, opt_skip by (rewrite Hr; apply word_no_mark; simpl; tauto).
  rewrite run_seq, (plus_step _ _ n1 _ _ _ Hr Hn1).
  apply star_backoff; try assumption.
  - do 3 (rewrite run_seq, opt_skip by (cbn [rest]; apply Hm; simpl; tauto)).
    rewrite run_seq. now apply plus_stops.
  - do 3 (rewrite run_seq, opt_skip
            by (cbn [rest]; apply word_no_mark; simpl; tauto)).
    rewrite run_seq, (plus_step _ _ last post) by (reflexivity || assumption).
    rewrite star_stop by exact Hw.
    rewrite run_seq, opt_skip by (cbn [rest]; apply Hm; simpl; tauto).
    exact Hk.
Qed.

Lemma name_split (name : string) :
  isName name = true ->
  exists n1 mid last,
    name = String n1 (mid +:+ String last "")
    /\ is_word n1 = true
    /\ forallb is_word (list_ascii_of_string mid) = true
    /\ is_word last = true.
Proof.
  unfold isName. intros H. apply andb_true_iff in H as [Hw Hl].
  destruct name as [|n1 body]; [discriminate|].
  destruct body as [|b body]; [discriminate|]. clear Hl.
  simpl in Hw. apply andb_true_iff in Hw as [Hn1 Hw].
  exists n1.
  enough (exists mid last, String b body = mid +:+ String last ""
                           /\ forallb is_word (list_ascii_of_string mid) = true
                           /\ is_word last = true)
    as (mid & last & Heq & Hm & Hla)
    by (exists mid, last; rewrite Heq; repeat split; assumption).
  clear Hn1. revert b Hw. induction body as [|c body IH]; intros b Hw.
  - exists "", b. apply andb_true_iff in Hw as [Hb _]. now repeat split.
  - apply andb_true_iff in Hw as [Hb Hw].
    destruct (IH c Hw) as (mid & last & Heq & Hm & Hla).
    exists (String b mid), last. rewrite append_cons, <- Heq.
    repeat split; [|exact Hla]. simpl. now rewrite Hb.
Qed.

(** The table pattern at a clause: keyword, white space, and a plain name
    that ends there. *)
Lemma tablePattern_clause (kw ws name post : string) (sn : list ascii) :
  In (toUpperCase kw) ["FROM"; "UPDATE"; "INTO"; "JOIN"] ->
  ws <> "" -> blank ws = true ->
  isName name = true -> endsName post = true ->
  exists e,
    matchAt icase tablePattern sn (kw +:+ ws +:+ name +:+ post) = Some e
    /\ seen e = (rev (list_ascii_of_string (kw +:+ ws +:+ name)) ++ sn)%list.
Proof.
  intros Hkw Hne Hws Hname Hpost.
  destruct (name_split name Hname) as (n1 & mid & last & -> & Hn1 & Hmid & Hlast).
  destruct ws as [|w1 ws]; [contradiction|].
  unfold blank in Hws. simpl in Hws. apply andb_true_iff in Hws as [Hw1 Hws].
  unfold matchAt, tablePattern. cbn [seq].
  rewrite run_seq,
    (clauseKeyword_run kw (String w1 ws +:+ String n1 (mid +:+ String last "") +:+ post))
    by (exact Hkw || reflexivity).
  rewrite run_seq, (plus_step _ _ w1 (ws +:+ String n1 (mid +:+ String last "") +:+ post))
    by (reflexivity || assumption).
  cbn [seen caps].
  eexists. split.
  - apply star_take; [exact Hws | simpl; now apply word_not_space |].
    rewrite run_seq. cbn [run].
    eapply (tableName_run n1 mid last post); try assumption.
    + cbn [rest]. now rewrite !append_cons, append_assoc, append_cons, append_nil.
    + reflexivity.
  - cbn [seen]. rewrite !list_of_append. cbn [list_ascii_of_string].
    rewrite list_of_append. cbn [list_ascii_of_string].
    rewrite !rev_app_distr. cbn [rev app]. rewrite rev_app_distr. cbn [rev app].
    now rewrite <- !app_assoc.
Qed.

(** Taking the clause keyword and the white space off a match leaves the
    name. *)
Lemma clausePrefix_strip (kw ws tbl : string) :
  In (toUpperCase kw) ["FROM"; "UPDATE"; "INTO"; "JOIN"] ->
  ws <> "" -> blank ws = true -> stops is_space tbl ->
  replaceFirst icase clausePrefix (kw +:+ ws +:+ tbl) "" = tbl.
Proof.
  intros Hkw Hne Hws Htbl.
  destruct ws as [|w1 ws]; [contradiction|].
  unfold blank in Hws. simpl in Hws. apply andb_true_iff in Hws as [Hw1 Hws].
  assert (Hm : exists e, matchAt icase clausePrefix [] (kw +:+ String w1 ws +:+ tbl) = Some e
                         /\ rest e = tbl).
  { unfold matchAt, clausePrefix. cbn [seq].
    rewrite run_seq. cbn [run]. unfold at_bol. cbn [seen].
    rewrite (clauseKeyword_run kw (String w1 ws +:+ tbl)) by (exact Hkw || reflexivity).
    rewrite (plus_step _ _ w1 (ws +:+ tbl)) by (reflexivity || assumption).
    eexists. split; [apply star_take; [exact Hws | exact Htbl | reflexivity]|].
    reflexivity. }
  destruct Hm as (e & Hm & He).
  unfold replaceFirst. rewrite (exec_at_start _ _ _ e Hm).
  cbn [before after mkFound rev]. now rewrite He.
Qed.

(** In front of the first clause keyword the search finds nothing. *)
Lemma matchAllFrom_clear (pre tail : string) (sn : list ascii) :
  clearOf pre tail = true ->
  matchAllFrom icase tablePattern 0 sn (pre +:+ tail)
  = matchAllFrom icase tablePattern 0 (rev (list_ascii_of_string pre) ++ sn)%list tail.
Proof.
  revert sn. induction pre as [|c pre IH]; intros sn H; [reflexivity|].
  cbn [clearOf] in H. apply andb_true_iff in H as [Hk Hc].
  apply negb_true_iff in Hk.
  rewrite append_cons in *. cbn [matchAllFrom].
  destruct (matchAt icase tablePattern sn (String c (pre +:+ tail))) as [e|] eqn:Hm.
  - apply tablePattern_keyword in Hm. congruence.
  - rewrite (IH _ Hc). cbn [list_ascii_of_string rev]. now rewrite <- app_assoc.
Qed.

(** The first match is the first name collected. *)
Lemma collectTables_first (m : string) (ms : list string) :
  hd_error (collectTables (m :: ms))
  = Some (trim (replaceFirst icase clausePrefix m "")).
Proof.
  unfold collectTables. cbn [fold_left includes existsb negb app].
  generalize (trim (replaceFirst icase clausePrefix m "")). intros t.
  assert (H : forall acc, hd_error acc = Some t ->
              hd_error
                (fold_left
                   (fun affectedTables m0 =>
                      let tableName := trim (replaceFirst icase clausePrefix m0 "") in
                      if negb (includes affectedTables tableName)
                      then (affectedTables ++ [tableName])%list else affectedTables)
                   ms acc) = Some t).
  { induction ms as [|m' ms IH]; intros acc Hacc; [exact Hacc|].
    cbn [fold_left]. apply IH.
    destruct (negb (includes acc _)); [|exact Hacc].
    destruct acc; [discriminate | exact Hacc]. }
  now apply H.
Qed.

(** The name after the first clause keyword of a text is the first table
    reported. *)
Lemma first_clause_found (pre kw ws name post : string) :
  In (toUpperCase kw) ["FROM"; "UPDATE"; "INTO"; "JOIN"] ->
  clearOf pre (kw +:+ ws +:+ name +:+ post) = true ->
  ws <> "" -> blank ws = true ->
  isName name = true -> endsName post = true ->
  hd_error (extractTables (pre +:+ kw +:+ ws +:+ name +:+ post)) = Some name.
Proof.
  intros Hkw Hclear Hne Hws Hname Hpost.
  unfold extractTables, matchAll.
  rewrite (matchAllFrom_clear _ _ _ Hclear).
  destruct (tablePattern_clause kw ws name post
              (rev (list_ascii_of_string pre) ++ [])%list Hkw Hne Hws Hname Hpost)
    as (e & Hm & Hseen).
  assert (Hmatched : matched (mkFound (rev (list_ascii_of_string pre) ++ [])%list e)
                     = kw +:+ ws +:+ name).
  { unfold mkFound, matched.
    now apply (consumed_app _ (rev (list_ascii_of_string pre) ++ [])%list). }
  destruct (kw +:+ ws +:+ name +:+ post) as [|c t] eqn:Htext.
  { destruct kw; [simpl in Hkw; intuition discriminate | discriminate]. }
  cbn [matchAllFrom]. rewrite Hm, Hmatched.
  rewrite collectTables_first.
  assert (Hname' : forallb is_word (list_ascii_of_string name) = true)
    by (unfold isName in Hname; now apply andb_true_iff in Hname as [Hname _]).
  rewrite clausePrefix_strip; try assumption.
  - now rewrite trim_word.
  - destruct name as [|n name]; [exact I|]. simpl in Hname'.
    apply andb_true_iff in Hname' as [Hn _]. simpl. now apply word_not_space.
Qed.

(** ** What the table pattern can match *)

Lemma solid_app (a b : string) : solid (a +:+ b) = solid a && solid b.
Proof. unfold solid. now rewrite list_of_append, forallb_app. Qed.

Lemma solid_stops (x : string) : solid x = true -> stops is_space x.
Proof.
  destruct x as [|c x]; [easy|]. unfold solid. simpl. intros H.
  apply andb_true_iff in H as [H _]. now apply negb_true_iff in H.
Qed.

Lemma trim_solid (x : string) : solid x = true -> trim x = x.
Proof.
  intros H. unfold trim.
  assert (Hs : trimStart x = x).
  { destruct x as [|c x]; [reflexivity|]. apply solid_stops in H. simpl in *.
    now rewrite H. }
  rewrite Hs. clear Hs. induction x as [|c x IH]; [reflexivity|].
  unfold solid in H. simpl in H. apply andb_true_iff in H as [Hc Hx].
  apply negb_true_iff in Hc. rewrite trimEnd_cons by exact Hc. now rewrite IH.
Qed.

Lemma passes_seq (fl : flags) (r1 r2 : regex) (P1 P2 P : string -> Prop) :
  passes fl r1 P1 -> passes fl r2 P2 ->
  (forall x1 x2, P1 x1 -> P2 x2 -> P (x1 +:+ x2)) ->
  passes fl (Seq r1 r2) P.
Proof.
  intros H1 H2 HP st k e H. rewrite run_seq in H.
  apply H1 in H as (x1 & r1' & Hr1 & Hx1 & H).
  apply H2 in H as (x2 & r2' & Hr2 & Hx2 & H).
  cbn [rest seen caps] in Hr2, H.
  exists (x1 +:+ x2), r2'. split; [now rewrite Hr1, Hr2, append_assoc|].
  split; [now apply HP|].
  now rewrite list_of_append, rev_app_distr, <- app_assoc.
Qed.

Lemma passes_eps (fl : flags) : passes fl Eps (fun x => x = "").
Proof.
  intros st k e H. exists "", (rest st). destruct st. now repeat split.
Qed.

Lemma passes_opt (c : ascii) :
  is_space c = false ->
  passes icase (Opt (Chr c)) (fun x => solid x = true).
Proof.
  intros Hc st k e H. cbn [run] in H. unfold one, chr_ok in H.
  cbn [ignoreCase icase] in H.
  destruct (rest st) as [|x t] eqn:Hr.
  - exists "", "". destruct st. cbn in *. subst. now repeat split.
  - destruct (Ascii.eqb_spec (upper c) (upper x)) as [Hx|_].
    + destruct (k {| seen := x :: seen st; rest := t; caps := caps st |})
        as [e'|] eqn:Hk.
      * injection H as <-. exists (String x ""), t. split; [reflexivity|].
        split; [|exact Hk]. unfold solid. simpl.
        now rewrite <- is_space_upper, <- Hx, is_space_upper, Hc.
      * exists "", (String x t). destruct st. cbn in *. subst. now repeat split.
    + exists "", (String x t). destruct st. cbn in *. subst. now repeat split.
Qed.

Lemma passes_plus (fl : flags) (p : ascii -> bool) :
  passes fl (plus p)
    (fun x => x <> "" /\ forallb p (list_ascii_of_string x) = true).
Proof.
  intros st k e H. unfold plus in H. cbn [run] in H. unfold one in H.
  destruct (rest st) as [|c t] eqn:Hr; [discriminate|].
  destruct (p c) eqn:Hc; [|discriminate].
  cbn [seen rest caps] in H.
  apply star_inv in H as (x & r' & -> & Hx & Hk).
  exists (String c x), r'. split; [reflexivity|].
  split; [split; [discriminate | simpl; now rewrite Hc]|].
  cbn [list_ascii_of_string rev]. now rewrite <- app_assoc.
Qed.

Lemma passes_words : passes icase (plus is_word) (fun x => solid x = true).
Proof.
  intros st k e H. apply passes_plus in H as (x & r' & Hr & [_ Hx] & Hk).
  exists x, r'. split; [exact Hr|]. split; [|exact Hk].
  unfold solid. clear - Hx. induction (list_ascii_of_string x) as [|c l IH];
    [reflexivity|].
  simpl in *. apply andb_true_iff in Hx as [Hc Hl].
  now rewrite (word_not_space c Hc), IH.
Qed.

Lemma passes_tableName : passes icase tableName (fun x => solid x = true).
Proof.
  unfold tableName. cbn [seq].
  assert (Hjoin : forall x1 x2, solid x1 = true -> solid x2 = true ->
                                solid (x1 +:+ x2) = true)
    by (intros x1 x2 H1 H2; now rewrite solid_app, H1, H2).
  repeat (eapply passes_seq;
          [first [now apply passes_opt | apply passes_words] | | exact Hjoin]).
  intros st k e H. apply passes_eps in H as (x & r' & Hr & -> & Hk).
  now exists "", r'.
Qed.

Lemma passes_clauseKeyword :
  passes icase clauseKeyword
    (fun kw => In (toUpperCase kw) ["FROM"; "UPDATE"; "INTO"; "JOIN"]).
Proof.
  intros st k e H. apply clauseKeyword_inv in H as (kw & r & Hr & Hin & Hk).
  now exists kw, r.
Qed.

(** A match of the table pattern is a clause keyword, white space and a
    text without white space. *)
Lemma tablePattern_inv (sn : list ascii) (b : string) (e : mstate) :
  matchAt icase tablePattern sn b = Some e ->
  exists kw ws tbl,
    b = kw +:+ ws +:+ tbl +:+ rest e
    /\ seen e = (rev (list_ascii_of_string (kw +:+ ws +:+ tbl)) ++ sn)%list
    /\ In (toUpperCase kw) ["FROM"; "UPDATE"; "INTO"; "JOIN"]
    /\ ws <> "" /\ blank ws = true
    /\ solid tbl = true.
Proof.
  unfold matchAt, tablePattern. cbn [seq]. intros H.
  rewrite run_seq in H.
  apply passes_clauseKeyword in H as (kw & r1 & Hr1 & Hkw & H).
  rewrite run_seq in H.
  apply passes_plus in H as (ws & r2 & Hr2 & [Hne Hws] & H).
  rewrite run_seq in H. cbn [run] in H.
  apply passes_tableName in H as (tbl & r3 & Hr3 & Htbl & H).
  cbn [rest seen caps] in *. injection H as <-. cbn [rest seen].
  exists kw, ws, tbl. subst. repeat split; try assumption.
  rewrite !list_of_append, !rev_app_distr. now rewrite <- !app_assoc.
Qed.

Lemma matchAllFrom_In (fl : flags) (r : regex) (m rs : string) (skip : nat)
    (sn : list ascii) :
  In m (matchAllFrom fl r skip sn rs) ->
  exists a b e,
    rs = a +:+ b
    /\ matchAt fl r (rev (list_ascii_of_string a) ++ sn)%list b = Some e
    /\ m = matched (mkFound (rev (list_ascii_of_string a) ++ sn)%list e).
Proof.
  revert skip sn. induction rs as [|c t IH]; intros skip sn H.
  - destruct skip; [|destruct H]. cbn [matchAllFrom] in H.
    destruct (matchAt fl r sn "") as [e|] eqn:Hm; [|destruct H].
    destruct H as [<-|[]]. now exists "", "", e.
  - assert (Hlater : forall n, In m (matchAllFrom fl r n (c :: sn) t) ->
              exists a b e,
                String c t = a +:+ b
                /\ matchAt fl r (rev (list_ascii_of_string a) ++ sn)%list b = Some e
                /\ m = matched (mkFound (rev (list_ascii_of_string a) ++ sn)%list e)).
    { intros n Hn. apply IH in Hn as (a & b & e & -> & Hm & ->).
      exists (String c a), b, e. cbn [list_ascii_of_string rev].
      rewrite <- app_assoc. now repeat split. }
    destruct skip as [|n]; [|now apply (Hlater n)].
    cbn [matchAllFrom] in H.
    destruct (matchAt fl r sn (String c t)) as [e|] eqn:Hm; [|now apply (Hlater 0%nat)].
    destruct H as [<-|H]; [|now apply (Hlater _ H)].
    now exists "", (String c t), e.
Qed.

End TablePattern.
Section AffectedTables.
Import JsString Regex SecurityUtils.

Lemma includes_In (xs : list string) (x : string) :
  includes xs x = true <-> In x xs.
Proof.
  unfold includes. rewrite existsb_exists. split.
  - intros (y & Hy & Heq). apply String.eqb_eq in Heq. now subst.
  - intros Hx. exists x. split; [exact Hx | apply String.eqb_refl].
Qed.

(** The [forEach] keeps the list free of duplicates and adds exactly the
    names of the matches. *)
Lemma collect_step (f : string -> string) (ms acc : list string) :
  NoDup acc ->
  let out := fold_left
               (fun affected m =>
                  if negb (includes affected (f m))
                  then (affected ++ [f m])%list else affected) ms acc in
  NoDup out /\ (forall t, In t out <-> In t acc \/ In t (map f ms)).
Proof.
  revert acc. induction ms as [|m ms IH]; intros acc Hnd; simpl.
  - split; [exact Hnd | intros t; tauto].
  - destruct (includes acc (f m)) eqn:Hinc; simpl.
    + apply includes_In in Hinc.
      destruct (IH acc Hnd) as [Hn Hi]. split; [exact Hn|].
      intros t. rewrite Hi. intuition (subst; auto).
    + assert (Hnot : ~ In (f m) acc)
        by (intros Hin; apply includes_In in Hin; congruence).
      assert (Hnd' : NoDup (acc ++ [f m])).
      { apply NoDup_app. repeat split; [exact Hnd | | apply NoDup_singleton].
        intros x Hx Hx'. apply list_elem_of_In in Hx, Hx'.
        destruct Hx' as [<-|[]]. now apply Hnot. }
      destruct (IH _ Hnd') as [Hn Hi]. split; [exact Hn|].
      intros t. rewrite Hi, in_app_iff. simpl. tauto.
Qed.

Lemma extractTables_NoDup (sql : string) : NoDup (extractTables sql).
Proof.
  unfold extractTables, collectTables.
  apply (collect_step (fun m => trim (replaceFirst icase clausePrefix m ""))).
  constructor.
Qed.

Lemma extractTables_In (sql t : string) :
  In t (extractTables sql) <->
  exists m, In m (matchAll icase tablePattern sql)
            /\ t = trim (replaceFirst icase clausePrefix m "").
Proof.
  unfold extractTables, collectTables.
  destruct (collect_step (fun m => trim (replaceFirst icase clausePrefix m ""))
              (matchAll icase tablePattern sql) [] (NoDup_nil_2)) as [_ Hi].
  rewrite Hi, in_map_iff. simpl. split.
  - intros [[]|(m & Hm & Hin)]. now exists m.
  - intros (m & Hin & Hm). right. now exists m.
Qed.

(** Every name reported stands in the text, after a clause keyword and
    white space. *)
Lemma table_follows_keyword (sql t : string) :
  In t (extractTables sql) ->
  exists pre kw ws post,
    sql = pre +:+ kw +:+ ws +:+ t +:+ post
    /\ In (toUpperCase kw) ["FROM"; "UPDATE"; "INTO"; "JOIN"]
    /\ ws <> "" /\ blank ws = true /\ solid t = true.
Proof.
  intros H. apply extractTables_In in H as (m & Hm & ->).
  unfold matchAll in Hm.
  apply matchAllFrom_In in Hm as (a & b & e & -> & Hat & ->).
  apply tablePattern_inv in Hat as (kw & ws & tbl & -> & Hseen & Hkw & Hne & Hws & Htbl).
  assert (Hmatched : matched (mkFound (rev (list_ascii_of_string a) ++ [])%list e)
                     = kw +:+ ws +:+ tbl).
  { unfold mkFound, matched.
    now apply (consumed_app _ (rev (list_ascii_of_string a) ++ [])%list). }
  rewrite Hmatched, clausePrefix_strip, trim_solid;
    try assumption; [|now apply solid_stops].
  exists a, kw, ws, (rest e). now repeat split.
Qed.

(** C10.  For a statement of ASCII characters whose trimmed, upper-cased
    text begins neither with DELETE nor with UPDATE, [estimateImpact]
    returns zero estimated rows and no warning and leaves the world as it
    was: nothing is sent to the database.  The affected tables are taken
    from the text: each is reported once; each stands in the text after
    one of FROM, UPDATE, INTO and JOIN, in any letter case, and white
    space; and the name after the first such keyword of the text (a name
    of two or more word characters, followed by the end of the text or by
    a character that is no word character, bracket or dot) is the first
    table reported. *)
Theorem estimateImpact_without_delete_or_update
    (E : Env) (sql : string) (w : World) :
  asciiText sql ->
  startsWith (normalized sql) "DELETE" = false ->
  startsWith (normalized sql) "UPDATE" = false ->
  exists imp,
    estimateImpact E sql w = (Returned imp, w)
    /\ estimatedRows imp = 0
    /\ warning imp = None
    /\ NoDup (affectedTables imp)
    /\ (forall t, In t (affectedTables imp) ->
          exists pre kw ws post,
            sql = pre +:+ kw +:+ ws +:+ t +:+ post
            /\ In (toUpperCase kw) ["FROM"; "UPDATE"; "INTO"; "JOIN"]
            /\ ws <> "" /\ blank ws = true /\ solid t = true)
    /\ (forall pre kw ws name post,
          sql = pre +:+ kw +:+ ws +:+ name +:+ post ->
          In (toUpperCase kw) ["FROM"; "UPDATE"; "INTO"; "JOIN"] ->
          clearOf pre (kw +:+ ws +:+ name +:+ post) = true ->
          ws <> "" -> blank ws = true ->
          isName name = true -> endsName post = true ->
          hd_error (affectedTables imp) = Some name).
Proof.
  intros _ Hd Hu. eexists. split; [now apply estimateImpact_other|].
  cbn [estimatedRows warning affectedTables].
  split; [reflexivity|]. split; [reflexivity|].
  split; [apply extractTables_NoDup|].
  split; [intros t; apply table_follows_keyword|].
  intros pre kw ws name post ->. apply first_clause_found.
Qed.

Lemma estimateImpact_without_delete_or_update_witness :
  (exists imp,
     estimateImpact (sampleEnv true rejectingPool)
       ("insert " +:+ "into" +:+ " " +:+ "Audit"
        +:+ " select * from [dbo].[Orders] o join sales.Customers c on 1 = 1; update Stock set n = 0")
       emptyWorld = (Returned imp, emptyWorld)
     /\ hd_error (affectedTables imp) = Some "Audit"
     /\ affectedTables imp = ["Audit"; "[dbo].[Orders]"; "sales.Customers"; "Stock"]
     /\ estimatedRows imp = 0 /\ warning imp = None)
  /\ (exists imp,
        estimateImpact (sampleEnv true rejectingPool)
          ("begin " +:+ "update" +:+ "  " +:+ "Stock" +:+ " set n = 0 end")
          emptyWorld = (Returned imp, emptyWorld)
        /\ hd_error (affectedTables imp) = Some "Stock")
  /\ (exists imp,
        estimateImpact (sampleEnv true rejectingPool)
          ("Orders o " +:+ "Join" +:+ " " +:+ "Customers" +:+ "")
          emptyWorld = (Returned imp, emptyWorld)
        /\ hd_error (affectedTables imp) = Some "Customers").
Proof.
  split; [|split].
  - destruct (estimateImpact_without_delete_or_update (sampleEnv true rejectingPool)
                ("insert " +:+ "into" +:+ " " +:+ "Audit"
                 +:+ " select * from [dbo].[Orders] o join sales.Customers c on 1 = 1; update Stock set n = 0")
                emptyWorld eq_refl eq_refl eq_refl)
      as (imp & Hrun & Hrows & Hwarn & _ & _ & Hfirst).
    exists imp. split; [exact Hrun|].
    split; [apply (Hfirst "insert " "into" " " "Audit"
                     " select * from [dbo].[Orders] o join sales.Customers c on 1 = 1; update Stock set n = 0");
            (reflexivity || (simpl; tauto) || discriminate)|].
    split; [|now split].
    vm_compute in Hrun. now inversion Hrun.
  - destruct (estimateImpact_without_delete_or_update (sampleEnv true rejectingPool)
                ("begin " +:+ "update" +:+ "  " +:+ "Stock" +:+ " set n = 0 end")
                emptyWorld eq_refl eq_refl eq_refl)
      as (imp & Hrun & _ & _ & _ & _ & Hfirst).
    exists imp. split; [exact Hrun|].
    apply (Hfirst "begin " "update" "  " "Stock" " set n = 0 end");
      (reflexivity || (simpl; tauto) || discriminate).
  - destruct (estimateImpact_without_delete_or_update (sampleEnv true rejectingPool)
                ("Orders o " +:+ "Join" +:+ " " +:+ "Customers" +:+ "")
                emptyWorld eq_refl eq_refl eq_refl)
      as (imp & Hrun & _ & _ & _ & _ & Hfirst).
    exists imp. split; [exact Hrun|].
    apply (Hfirst "Orders o " "Join" " " "Customers" "");
      (reflexivity || (simpl; tauto) || discriminate).
Defined.

End AffectedTables.

(** ** The pending-operation store *)

Section Store.
Import JsString Regex SecurityUtils.

Lemma getPendingOperation_miss (E : Env) (token : string) (w : World) :
  pendingOperations w !! token = None ->
  getPendingOperation E token w = (Returned None, w).
Proof.
  intros Hm. unfold getPendingOperation, bind, getPending, ret. now rewrite Hm.
Qed.

Lemma getPendingOperation_live (E : Env) (token : string) (w : World) (p : PendingOp) :
  pendingOperations w !! token = Some p ->
  ~ expired (clock E (clock_reads w)) p ->
  exists w',
    getPendingOperation E token w = (Returned (Some p), w')
    /\ pendingOperations w' = pendingOperations w
    /\ security_audit_log w' = security_audit_log w
    /\ db_calls w' = db_calls w
    /\ clock_reads w' = S (clock_reads w)
    /\ random_reads w' = random_reads w.
Proof.
  intros Hp Hlive.
  unfold getPendingOperation, bind, getPending, ret, now. rewrite Hp.
  destruct (decide (expired (clock E (clock_reads w)) p)); [contradiction|].
  eexists. now repeat split.
Qed.

Lemma getPendingOperation_expired (E : Env) (token : string) (w : World) (p : PendingOp) :
  pendingOperations w !! token = Some p ->
  expired (clock E (clock_reads w)) p ->
  exists w',
    getPendingOperation E token w = (Returned None, w')
    /\ pendingOperations w' = delete token (pendingOperations w)
    /\ security_audit_log w' = security_audit_log w
    /\ db_calls w' = db_calls w.
Proof.
  intros Hp Hex.
  unfold getPendingOperation, bind, getPending, ret, now, setPending. rewrite Hp.
  destruct (decide (expired (clock E (clock_reads w)) p)); [|contradiction].
  eexists. now repeat split.
Qed.

(** C4.  For a token whose entry was stored at time [c], a lookup at time
    [now] returns the entry exactly when [now - c] is at most five minutes
    (300000 ms), and then leaves the map as it is; when [now - c] exceeds
    five minutes the lookup returns nothing and deletes the entry, so the
    entry, although present in the map, is not returned. *)
Theorem getPendingOperation_ttl (E : Env) (token : string) (w : World) (p : PendingOp) :
  pendingOperations w !! token = Some p ->
  let now_ := clock E (clock_reads w) in
  let c := p_timestamp p in
  let r := getPendingOperation E token w in
  (fst r = Returned (Some p) <-> now_ - c <= 300000)
  /\ (now_ - c <= 300000 -> pendingOperations (snd r) = pendingOperations w)
  /\ (now_ - c > 300000 ->
        fst r = Returned None
        /\ pendingOperations (snd r) = delete token (pendingOperations w)).
Proof.
  intros Hp now_ c r.
  destruct (decide (expired now_ p)) as [Hex|Hlive].
  - destruct (getPendingOperation_expired E token w p Hp Hex) as (w' & Hr & Hs & _).
    subst r. rewrite Hr. simpl. unfold expired, maxAge in Hex. fold c in Hex.
    split; [split; [discriminate | lia]|].
    split; [lia | intros _; now split].
  - destruct (getPendingOperation_live E token w p Hp Hlive) as (w' & Hr & Hs & _).
    subst r. rewrite Hr. simpl. unfold expired, maxAge in Hlive. fold c in Hlive.
    split; [split; [lia | reflexivity]|].
    split; [intros _; exact Hs | lia].
Qed.

Lemma getPendingOperation_ttl_witness :
  let w := snd (storePendingOperation (sampleEnv true acceptingPool) "CONF_A_B"
                  {| op_sql := "DROP TABLE [dbo].[Old]"; op_operation := "DROP";
                     op_riskLevel := HIGH; op_estimatedRows := 0;
                     op_affectedTables := []; op_spName := None;
                     op_params := None |} emptyWorld) in
  exists p,
    pendingOperations w !! "CONF_A_B" = Some p
    /\ p_timestamp p = 1700000000000
    /\ fst (getPendingOperation (sampleEnv true acceptingPool) "CONF_A_B" w)
       = Returned (Some p).
Proof.
  intros w.
  assert (Hp : pendingOperations w !! "CONF_A_B"
               = Some {| p_operation :=
                           {| op_sql := "DROP TABLE [dbo].[Old]"; op_operation := "DROP";
                              op_riskLevel := HIGH; op_estimatedRows := 0;
                              op_affectedTables := []; op_spName := None;
                              op_params := None |};
                         p_timestamp := 1700000000000 |})
    by (vm_compute; reflexivity).
  eexists. split; [exact Hp|]. split; [reflexivity|].
  destruct (getPendingOperation_ttl (sampleEnv true acceptingPool) "CONF_A_B" w _ Hp)
    as (Hiff & _).
  apply Hiff. vm_compute. discriminate.
Defined.

End Store.

(** ** The entry points *)

Section Gateway.
Import JsString Regex Security SecurityUtils.

(** The flag-validating entry points touch neither the store nor the
    audit log; a refusal leaves the whole world as it was. *)
Lemma flag_query_refused (E : Env) (query : string) (w : World) :
  allowed (validateQueryPermission E query) = false ->
  FlagGate.mcp_execute_query E query w
  = (Returned (Failure (orElse (message (validateQueryPermission E query))
                               "Query execution not allowed")), w).
Proof. intros H. unfold FlagGate.mcp_execute_query. now rewrite H. Qed.

Lemma flag_procedure_refused (E : Env) (sp : string) (params : option ParamObject) (w : World) :
  allowed (validateStoredProcedurePermission E sp) = false ->
  FlagGate.mcp_execute_procedure E sp params w
  = (Returned (Failure (orElse (message (validateStoredProcedurePermission E sp))
                               "Stored procedure execution not allowed")), w).
Proof. intros H. unfold FlagGate.mcp_execute_procedure. now rewrite H. Qed.

Lemma flag_query_audit (E : Env) (query : string) (w : World) :
  security_audit_log (snd (FlagGate.mcp_execute_query E query w)) = security_audit_log w
  /\ pendingOperations (snd (FlagGate.mcp_execute_query E query w)) = pendingOperations w.
Proof.
  unfold FlagGate.mcp_execute_query.
  destruct (negb (allowed (validateQueryPermission E query))); [now split|].
  unfold try_catch, bind, send, ret.
  destruct (pool E (db_calls w) (Query query)); now split.
Qed.

Lemma flag_procedure_audit (E : Env) (sp : string) (params : option ParamObject) (w : World) :
  security_audit_log (snd (FlagGate.mcp_execute_procedure E sp params w))
  = security_audit_log w
  /\ pendingOperations (snd (FlagGate.mcp_execute_procedure E sp params w))
     = pendingOperations w.
Proof.
  unfold FlagGate.mcp_execute_procedure.
  destruct (negb (allowed (validateStoredProcedurePermission E sp))); [now split|].
  unfold try_catch, bind, send, ret.
  destruct (pool E (db_calls w) (Execute sp (default [] params))); now split.
Qed.

Lemma token_query_gated (E : Env) (query : string) (w : World) :
  requiresConfirmation (analyzeQuery query) = true ->
  exists imp w',
    TokenGate.mcp_execute_query E query w
    = (Returned (Failure (TokenGate.confirmationRequired
                            (createSecurityConfirmationMessage (analyzeQuery query) imp
                               (mintedToken E w) (Some query) None None)
                            (mintedToken E w))), w')
    /\ affectedTables imp = extractTables query
    /\ db_calls w' = (db_calls w ++ estimatorCalls query)%list
    /\ security_audit_log w'
       = (security_audit_log w ++
          [{| log_timestamp := clock E (clock_reads w);
              log_operation := operation (analyzeQuery query);
              log_sql := substring0 500 query;
              log_riskLevel := riskLevel (analyzeQuery query);
              log_userConfirmed := false;
              log_estimatedRows := Some (estimatedRows imp);
              log_affectedTables := Some (affectedTables imp);
              log_result := Some CANCELLED;
              log_error := Some "Pending user confirmation" |}])%list
    /\ pendingOperations w'
       = storedUnder E w
           {| op_sql := query;
              op_operation := operation (analyzeQuery query);
              op_riskLevel := riskLevel (analyzeQuery query);
              op_estimatedRows := estimatedRows imp;
              op_affectedTables := affectedTables imp;
              op_spName := None; op_params := None |}
    /\ clock_reads w' = (4 + clock_reads w)%nat.
Proof.
  intros Hc.
  cbv [TokenGate.mcp_execute_query bind try_catch now].
  rewrite Hc. cbv [negb].
  match goal with |- context [estimateImpact E query ?w1] =>
    destruct (estimateImpact_returns E query w1) as (imp & -> & Htab) end.
  exists imp. eexists. split; [reflexivity|].
  cbn [db_calls security_audit_log pendingOperations clock_reads sent].
  split; [exact Htab|].
  split; [reflexivity|]. split; [reflexivity|]. split; reflexivity.
Qed.


(** A statement that needs no confirmation goes to the database as it
    is, and nothing is stored. *)
Lemma token_query_ungated (E : Env) (query : string) (w : World) :
  requiresConfirmation (analyzeQuery query) = false ->
  db_calls (snd (TokenGate.mcp_execute_query E query w))
  = (db_calls w ++ [Query query])%list
  /\ pendingOperations (snd (TokenGate.mcp_execute_query E query w))
     = pendingOperations w.
Proof.
  intros Hc.
  cbv [TokenGate.mcp_execute_query bind try_catch now]. rewrite Hc. cbv [negb].
  cbv [logSecurityEvent appendLog send ret].
  cbn [db_calls security_audit_log pendingOperations clock_reads random_reads].
  destruct (pool E (db_calls w) (Query query)) as [res|err];
    cbn [fst snd db_calls security_audit_log pendingOperations]; now split.
Qed.

Lemma token_procedure_gated (E : Env) (sp : string) (params : option ParamObject) (w : World) :
  TokenGate.isReadOnlyProcedure sp = false ->
  exists msg w',
    TokenGate.mcp_execute_procedure E sp params w
    = (Returned (Failure (TokenGate.confirmationRequired msg (mintedToken E w))), w')
    /\ db_calls w' = db_calls w
    /\ security_audit_log w'
       = (security_audit_log w ++
          [{| log_timestamp := clock E (clock_reads w);
              log_operation := "EXECUTE";
              log_sql := substring0 500 ("EXEC " +:+ sp);
              log_riskLevel := MEDIUM;
              log_userConfirmed := false;
              log_estimatedRows := Some 0;
              log_affectedTables := Some ["Unknown - Stored Procedure"];
              log_result := Some CANCELLED;
              log_error := Some "Pending user confirmation" |}])%list
    /\ pendingOperations w'
       = storedUnder E w
           {| op_sql := "EXEC " +:+ sp;
              op_operation := "STORED_PROCEDURE";
              op_riskLevel := MEDIUM;
              op_estimatedRows := 0;
              op_affectedTables := ["Unknown - Stored Procedure"];
              op_spName := Some sp; op_params := params |}.
Proof.
  intros Hr.
  cbv [TokenGate.mcp_execute_procedure bind try_catch now].
  rewrite Hr. eexists _, _. split; [reflexivity|].
  cbn [db_calls security_audit_log pendingOperations clock_reads].
  split; [reflexivity|]. split; reflexivity.
Qed.

Lemma token_procedure_direct (E : Env) (sp : string) (params : option ParamObject) (w : World) :
  TokenGate.isReadOnlyProcedure sp = true ->
  exists r w',
    TokenGate.mcp_execute_procedure E sp params w = (Returned r, w')
    /\ db_calls w' = (db_calls w ++ [Execute sp (default [] params)])%list
    /\ pendingOperations w' = pendingOperations w
    /\ match pool E (db_calls w) (Execute sp (default [] params)) with
       | inl res => r = Success (recordset res)
       | inr err => r = Failure err
       end.
Proof.
  intros Hr.
  cbv [TokenGate.mcp_execute_procedure bind try_catch now send].
  rewrite Hr. cbn [db_calls].
  destruct (pool E (db_calls w) (Execute sp (default [] params))) as [res|err];
    eexists _, _; (split; [reflexivity|]); now repeat split.
Qed.

Lemma confirm_miss (E : Env) (token : string) (w : World) :
  pendingOperations w !! token = None ->
  TokenGate.mcp_confirm_and_execute E token w
  = (Returned (Failure TokenGate.invalidToken), w).
Proof.
  intros Hm. unfold TokenGate.mcp_confirm_and_execute, try_catch, bind.
  now rewrite (getPendingOperation_miss E token w Hm).
Qed.

Lemma confirm_expired (E : Env) (token : string) (w : World) (p : PendingOp) :
  pendingOperations w !! token = Some p ->
  expired (clock E (clock_reads w)) p ->
  exists w',
    TokenGate.mcp_confirm_and_execute E token w
    = (Returned (Failure TokenGate.invalidToken), w')
    /\ db_calls w' = db_calls w
    /\ security_audit_log w' = security_audit_log w
    /\ pendingOperations w' = delete token (pendingOperations w).
Proof.
  intros Hp Hex. unfold TokenGate.mcp_confirm_and_execute, try_catch, bind.
  destruct (getPendingOperation_expired E token w p Hp Hex) as (w' & -> & Hs & Ha & Hd).
  exists w'. now repeat split.
Qed.

Lemma confirm_executed (E : Env) (token : string) (w : World) (p : PendingOp)
    (res : QueryResult) :
  pendingOperations w !! token = Some p ->
  ~ expired (clock E (clock_reads w)) p ->
  pool E (db_calls w) (TokenGate.operationCall (p_operation p)) = inl res ->
  exists data imp w',
    TokenGate.mcp_confirm_and_execute E token w = (Returned (Success data), w')
    /\ TokenGate.ex_rowsAffected data = TokenGate.firstRowsAffected res
    /\ db_calls w'
       = (db_calls w ++ [TokenGate.operationCall (p_operation p)]
          ++ estimatorCalls (op_sql (p_operation p)))%list
    /\ pendingOperations w' = delete token (pendingOperations w)
    /\ security_audit_log w'
       = (security_audit_log w ++
          [{| log_timestamp := clock E (S (clock_reads w));
              log_operation := operation (analyzeQuery (op_sql (p_operation p)));
              log_sql := substring0 500 (op_sql (p_operation p));
              log_riskLevel := riskLevel (analyzeQuery (op_sql (p_operation p)));
              log_userConfirmed := true;
              log_estimatedRows := Some (estimatedRows imp);
              log_affectedTables := Some (affectedTables imp);
              log_result := Some SUCCESS;
              log_error := None |}])%list.
Proof.
  intros Hp Hlive Hres.
  unfold TokenGate.mcp_confirm_and_execute, try_catch, bind at 1.
  destruct (getPendingOperation_live E token w p Hp Hlive)
    as (w1 & -> & Hs & Ha & Hd & Hc & Hn).
  cbv [bind send removePendingOperation setPending].
  rewrite Hd, Hres.
  match goal with |- context [estimateImpact E ?q ?w2] =>
    destruct (estimateImpact_returns E q w2) as (imp & -> & Htab) end.
  cbv [now logSecurityEvent appendLog ret sent].
  eexists _, imp, _. split; [reflexivity|]. cbn.
  rewrite Hs, Ha, Hc, <- app_assoc. now repeat split.
Qed.

Lemma confirm_failed (E : Env) (token : string) (w : World) (p : PendingOp)
    (err : string) :
  pendingOperations w !! token = Some p ->
  ~ expired (clock E (clock_reads w)) p ->
  pool E (db_calls w) (TokenGate.operationCall (p_operation p)) = inr err ->
  exists w',
    TokenGate.mcp_confirm_and_execute E token w = (Returned (Failure err), w')
    /\ db_calls w' = (db_calls w ++ [TokenGate.operationCall (p_operation p)])%list
    /\ pendingOperations w' = pendingOperations w
    /\ security_audit_log w'
       = (security_audit_log w ++
          [{| log_timestamp := clock E (S (clock_reads w));
              log_operation := "UNKNOWN";
              log_sql := "FAILED_CONFIRMATION";
              log_riskLevel := HIGH;
              log_userConfirmed := true;
              log_estimatedRows := None;
              log_affectedTables := None;
              log_result := Some FAILED;
              log_error := Some err |}])%list.
Proof.
  intros Hp Hlive Hres.
  unfold TokenGate.mcp_confirm_and_execute, try_catch, bind at 1.
  destruct (getPendingOperation_live E token w p Hp Hlive)
    as (w1 & -> & Hs & Ha & Hd & Hc & Hn).
  cbv [bind send].
  rewrite Hd, Hres.
  cbv [now logSecurityEvent appendLog ret].
  eexists. split; [reflexivity|]. cbn.
  rewrite Hs, Ha, Hc. now repeat split.
Qed.

End Gateway.

(** ** The modification detector on a text without comment markers *)

Section Detector.
Import JsString Regex Security.

Lemma contains_false_split (t s a b : string) :
  contains t s = false -> s = a +:+ b -> String.prefix t b = false.
Proof.
  revert s. induction a as [|c a IH]; intros s H ->.
  - rewrite append_nil in H. destruct b; simpl in H;
      now apply orb_false_iff in H as [H _].
  - rewrite append_cons in H. cbn [contains] in H.
    apply orb_false_iff in H as [_ H]. now apply (IH _ H).
Qed.

(** Where the pattern matches nowhere, the global replacement changes
    nothing. *)
Lemma replaceAllFrom_none (fl : flags) (r : regex) (by_ rs : string)
    (sn : list ascii) :
  (forall a b, rs = a +:+ b ->
               matchAt fl r (rev (list_ascii_of_string a) ++ sn)%list b = None) ->
  replaceAllFrom fl r by_ 0 sn rs = rs.
Proof.
  revert sn. induction rs as [|c t IH]; intros sn H.
  - pose proof (H "" "" eq_refl) as H0. simpl in H0.
    cbn [replaceAllFrom]. now rewrite H0.
  - pose proof (H "" (String c t) eq_refl) as H0. simpl in H0.
    cbn [replaceAllFrom]. rewrite H0.
    f_equal. apply IH. intros a b ->.
    specialize (H (String c a) b eq_refl).
    cbn [list_ascii_of_string rev] in H. now rewrite <- app_assoc in H.
Qed.

Lemma lineComment_none (sn : list ascii) (b : string) :
  String.prefix "--" b = false -> matchAt mline lineComment sn b = None.
Proof.
  intros H. unfold matchAt, lineComment. cbn [seq lit run]. unfold one.
  cbn [rest seen caps].
  destruct b as [|c1 b]; [reflexivity|].
  unfold chr_ok. cbn [ignoreCase mline].
  destruct (Ascii.eqb_spec "-" c1) as [<-|]; [|reflexivity].
  cbn [rest seen caps].
  destruct b as [|c2 b]; [reflexivity|].
  destruct (Ascii.eqb_spec "-" c2) as [<-|]; [|reflexivity].
  simpl in H. destruct b; discriminate.
Qed.

Lemma blockComment_none (sn : list ascii) (b : string) :
  String.prefix "/*" b = false -> matchAt plain blockComment sn b = None.
Proof.
  intros H. unfold matchAt, blockComment. cbn [seq lit run]. unfold one.
  cbn [rest seen caps].
  destruct b as [|c1 b]; [reflexivity|].
  unfold chr_ok. cbn [ignoreCase plain].
  destruct (Ascii.eqb_spec "/" c1) as [<-|]; [|reflexivity].
  cbn [rest seen caps].
  destruct b as [|c2 b]; [reflexivity|].
  destruct (Ascii.eqb_spec "*" c2) as [<-|]; [|reflexivity].
  simpl in H. destruct b; discriminate.
Qed.

(** A text without comment markers passes the two comment removals
    unchanged. *)
Lemma comments_none (query : string) :
  contains "--" query = false -> contains "/*" query = false ->
  replaceAll plain blockComment (replaceAll mline lineComment query "") "" = query.
Proof.
  intros Hl Hb.
  assert (H1 : replaceAll mline lineComment query "" = query).
  { apply replaceAllFrom_none. intros a b ->.
    apply lineComment_none. now apply (contains_false_split _ _ a b Hl). }
  rewrite H1. apply replaceAllFrom_none. intros a b ->.
  apply blockComment_none. now apply (contains_false_split _ _ a b Hb).
Qed.

Lemma length_of_list (l : list ascii) :
  String.length (string_of_list_ascii l) = length l.
Proof. induction l as [|c l IH]; [reflexivity|]. simpl. now rewrite IH. Qed.

Lemma star_spaces_count (t : string) (sn : list ascii) (cs : list (nat * string)) :
  exists e,
    star true is_space sn t cs Some = Some e
    /\ length (seen e) = (countSpaces t + length sn)%nat
    /\ rest e = trimStart t.
Proof.
  revert sn. induction t as [|c t IH]; intros sn.
  - eexists. split; [reflexivity|]. now split.
  - cbn [star countSpaces trimStart]. destruct (is_space c).
    + destruct (IH (c :: sn)) as (e & -> & Hl & Hr).
      exists e. split; [reflexivity|]. split; [|exact Hr].
      rewrite Hl. simpl. lia.
    + eexists. split; [reflexivity|]. now split.
Qed.

Lemma skip_spaces (fl : flags) (r : regex) (by_ t : string) (sn : list ascii) :
  exists sn',
    replaceAllFrom fl r by_ (countSpaces t) sn t
    = replaceAllFrom fl r by_ 0 sn' (trimStart t).
Proof.
  revert sn. induction t as [|c t IH]; intros sn.
  - now exists sn.
  - cbn [countSpaces trimStart]. destruct (is_space c).
    + cbn [replaceAllFrom]. apply IH.
    + now exists sn.
Qed.

(** [replace(/\s+/g, ' ')] puts one space for every run of white space. *)
Lemma spaces_collapse_upto (n : nat) (rs : string) (sn : list ascii) :
  (String.length rs <= n)%nat ->
  replaceAllFrom plain spaces " " 0 sn rs = collapseFrom false rs.
Proof.
  revert rs sn. induction n as [|n IH]; intros rs sn Hn.
  - destruct rs; [reflexivity | simpl in Hn; lia].
  - destruct rs as [|c t]; [reflexivity|]. simpl in Hn.
    cbn [replaceAllFrom collapseFrom]. unfold matchAt, spaces, plus.
    cbn [run]. unfold one. cbn [rest seen caps].
    destruct (is_space c) eqn:Hc.
    + destruct (star_spaces_count t (c :: sn) []) as (e & -> & Hl & Hr).
      assert (Hm : String.length (matched (mkFound sn e)) = S (countSpaces t)).
      { unfold mkFound, matched, consumed. cbn [seen].
        rewrite length_of_list, length_rev, length_firstn, Hl. simpl. lia. }
      rewrite Hm.
      destruct (skip_spaces plain (Seq (Cls is_space) (Star true is_space)) " "
                  t (c :: sn)) as (sn' & ->).
      change (Seq (Cls is_space) (Star true is_space)) with spaces.
      rewrite (IH (trimStart t) sn')
        by (pose proof (trimStart_length t); lia).
      now rewrite <- collapseFrom_trimStart.
    + f_equal. apply IH. lia.
Qed.

Lemma spaces_collapse (s : string) :
  replaceAll plain spaces s " " = collapseFrom false s.
Proof. apply (spaces_collapse_upto (String.length s)). lia. Qed.

Lemma at_wordb_text (a b : string) (cs : list (nat * string)) :
  at_wordb {| seen := rev (list_ascii_of_string a); rest := b; caps := cs |}
  = xorb (endsWithWord a) (startsWithWord b).
Proof. unfold at_wordb. cbn [seen rest]. now rewrite endsWithWord_seen. Qed.

(** A keyword between two word boundaries is found by its pattern. *)
Lemma keyword_found (a k b : string) :
  k <> "" -> forallb is_word (list_ascii_of_string k) = true ->
  endsWithWord a = false -> startsWithWord b = false ->
  test icase (keywordRegex k) (a +:+ k +:+ b) = true.
Proof.
  intros Hne Hw Ha Hb.
  assert (Hm : exists e,
             matchAt icase (keywordRegex k)
               (rev (list_ascii_of_string a) ++ [])%list (k +:+ b) = Some e).
  { unfold matchAt, keywordRegex. cbn [seq run]. rewrite app_nil_r.
    rewrite at_wordb_text, Ha.
    assert (Hs : startsWithWord (k +:+ b) = true).
    { destruct k as [|c k]; [contradiction|]. simpl in Hw.
      apply andb_true_iff in Hw as [Hc _]. exact Hc. }
    rewrite Hs. cbn [xorb].
    rewrite (run_lit_exact k k b) by reflexivity.
    cbn [seen caps]. rewrite <- rev_app_distr, <- list_of_append.
    rewrite at_wordb_text, endsWithWord_app by exact Hne.
    rewrite (endsWithWord_word k Hne Hw), Hb. cbn [xorb]. eauto. }
  destruct Hm as [e Hm].
  destruct (execFrom_finds icase _ a [] (k +:+ b) e Hm) as [f Hf].
  unfold test, exec. now rewrite Hf.
Qed.

Lemma keyword_shape (k : string) :
  In k ["INSERT"; "UPDATE"; "DELETE"; "DROP"; "CREATE"; "ALTER";
        "TRUNCATE"; "MERGE"; "BULK"; "EXEC"; "EXECUTE"] ->
  In k MODIFICATION_KEYWORDS
  /\ k <> "" /\ forallb is_word (list_ascii_of_string k) = true.
Proof.
  intros H. simpl in H.
  repeat (destruct H as [<-|H];
          [split; [simpl; tauto | split; [discriminate | reflexivity]]|]).
  contradiction.
Qed.

(** A text without comment markers in which a modification keyword stands
    as a whole word, in any letter case, is flagged by the detector. *)
Lemma keyword_detected (pre kw post : string) :
  In (toUpperCase kw)
     ["INSERT"; "UPDATE"; "DELETE"; "DROP"; "CREATE"; "ALTER";
      "TRUNCATE"; "MERGE"; "BULK"; "EXEC"; "EXECUTE"] ->
  endsWithWord pre = false -> startsWithWord post = false ->
  contains "--" (pre +:+ kw +:+ post) = false ->
  contains "/*" (pre +:+ kw +:+ post) = false ->
  containsModificationOperations (pre +:+ kw +:+ post) = true.
Proof.
  intros Hin Hpre Hpost Hl Hb.
  destruct (keyword_shape _ Hin) as (Hk & Hne & Hw).
  rewrite word_upper in Hw.
  destruct kw as [|k0 kw]; [now contradiction Hne|].
  assert (Hk0 : is_space k0 = false).
  { simpl in Hw. apply andb_true_iff in Hw as [Hc _]. now apply word_not_space. }
  assert (Hclean : cleanQuery (pre +:+ String k0 kw +:+ post)
                   = toUpperCase (trimStart (collapseFrom false pre))
                     +:+ toUpperCase (String k0 kw)
                     +:+ toUpperCase (trimEnd (collapseFrom false post))).
  { unfold cleanQuery. rewrite comments_none by assumption.
    rewrite spaces_collapse.
    rewrite append_cons, collapseFrom_app by exact Hk0.
    assert (Hkw : forallb is_word (list_ascii_of_string kw) = true)
      by (simpl in Hw; now apply andb_true_iff in Hw as [_ Hw]).
    rewrite collapseFrom_word by exact Hkw.
    unfold trim. rewrite trimStart_app, trimEnd_app by exact Hk0.
    rewrite trimEnd_word by exact Hkw.
    rewrite !toUpperCase_append. cbn [toUpperCase].
    now rewrite toUpperCase_append, append_cons. }
  unfold containsModificationOperations.
  destruct (pre +:+ String k0 kw +:+ post) eqn:Hq.
  { destruct pre; rewrite ?append_nil, !append_cons in Hq; discriminate. }
  rewrite Hclean. apply existsb_exists.
  exists (toUpperCase (String k0 kw)). split; [exact Hk|].
  apply keyword_found.
  - exact Hne.
  - now rewrite word_upper.
  - now rewrite endsWithWord_upper, endsWithWord_trimStart, endsWithWord_collapse.
  - rewrite startsWithWord_upper. apply startsWithWord_trimEnd.
    now apply startsWithWord_collapse.
Qed.

End Detector.

(** ** The feature flags *)

Section Flags.
Import JsString Regex Security SecurityUtils.

Lemma contains_mentions (t s : string) : contains t s = true -> mentions s t.
Proof.
  induction s as [|c s IH]; unfold contains; fold contains.
  - rewrite orb_false_r. intros H. apply prefix_split in H as [r Hr].
    exists "", r. rewrite append_nil. exact Hr.
  - intros H. apply orb_true_iff in H as [H|H].
    + apply prefix_split in H as [r Hr]. exists "", r.
      rewrite append_nil. exact Hr.
    + destruct (IH H) as (a & b & ->). now exists (String c a), b.
Qed.

Lemma mentions_after (a s t : string) : mentions s t -> mentions (a +:+ s) t.
Proof.
  intros (x & y & ->). exists (a +:+ x), y. now rewrite append_assoc.
Qed.

Lemma mentions_before (s b t : string) : mentions s t -> mentions (s +:+ b) t.
Proof.
  intros (x & y & ->). exists x, (y +:+ b). now rewrite !append_assoc.
Qed.

Lemma modification_refused (E : Env) (operation : string) :
  ALLOW_MODIFICATIONS E = false ->
  exists msg,
    validateModificationPermission E operation
    = {| allowed := false; message := Some msg |}
    /\ orElse (Some msg) "Query execution not allowed" = msg
    /\ mentions msg "DB_ALLOW_MODIFICATIONS=true".
Proof.
  intros Hf. unfold validateModificationPermission. rewrite Hf.
  eexists. split; [reflexivity|]. split; [reflexivity|].
  apply mentions_after, mentions_after, mentions_before.
  apply contains_mentions. reflexivity.
Qed.

Lemma procedure_refused (E : Env) (sp : string) :
  ALLOW_STORED_PROCEDURES E = false ->
  exists msg,
    validateStoredProcedurePermission E sp
    = {| allowed := false; message := Some msg |}
    /\ orElse (Some msg) "Stored procedure execution not allowed" = msg
    /\ mentions msg "DB_ALLOW_STORED_PROCEDURES=true".
Proof.
  intros Hf. unfold validateStoredProcedurePermission. rewrite Hf.
  eexists. split; [reflexivity|]. split; [reflexivity|].
  apply mentions_after, mentions_after, mentions_before.
  apply contains_mentions. reflexivity.
Qed.

(** C1 (as amended).  Through the flag-validating entry points, a query
    of ASCII characters in which the detector finds a modification keyword
    while DB_ALLOW_MODIFICATIONS is false, and any stored-procedure call
    while DB_ALLOW_STORED_PROCEDURES is false, is answered with a refusal
    whose message names the flag to enable, and the world is left as it
    was: the database handle is not invoked.  The detector finds a keyword
    in every ASCII text without the comment markers [--] and [/*] in which
    one of INSERT, UPDATE, DELETE, DROP, CREATE, ALTER, TRUNCATE, MERGE,
    BULK, EXEC and EXECUTE stands as a whole word, in any letter case.
    What the detector makes of a text with comment markers is not part of
    the statement. *)
Theorem disabled_flag_blocks (E : Env) (w : World) :
  (forall query,
     ALLOW_MODIFICATIONS E = false ->
     asciiText query ->
     containsModificationOperations query = true ->
     exists msg,
       FlagGate.mcp_execute_query E query w = (Returned (Failure msg), w)
       /\ mentions msg "DB_ALLOW_MODIFICATIONS=true")
  /\ (forall pre kw post,
        asciiText (pre +:+ kw +:+ post) ->
        In (toUpperCase kw)
           ["INSERT"; "UPDATE"; "DELETE"; "DROP"; "CREATE"; "ALTER";
            "TRUNCATE"; "MERGE"; "BULK"; "EXEC"; "EXECUTE"] ->
        endsWithWord pre = false -> startsWithWord post = false ->
        contains "--" (pre +:+ kw +:+ post) = false ->
        contains "/*" (pre +:+ kw +:+ post) = false ->
        containsModificationOperations (pre +:+ kw +:+ post) = true)
  /\ (forall sp params,
        ALLOW_STORED_PROCEDURES E = false ->
        exists msg,
          FlagGate.mcp_execute_procedure E sp params w = (Returned (Failure msg), w)
          /\ mentions msg "DB_ALLOW_STORED_PROCEDURES=true").
Proof.
  split; [|split].
  - intros query Hf _ Hc.
    destruct (modification_refused E
                ("SQL Query: " +:+ substring0 100 query +:+ "...") Hf)
      as (msg & Hv & Ho & Hm).
    assert (Hp : validateQueryPermission E query
                 = {| allowed := false; message := Some msg |}).
    { unfold validateQueryPermission. destruct query; [discriminate|].
      now rewrite Hc. }
    exists msg. split; [|exact Hm].
    rewrite flag_query_refused by now rewrite Hp.
    rewrite Hp. cbn [message]. now rewrite Ho.
  - intros pre kw post _. apply keyword_detected.
  - intros sp params Hf.
    destruct (procedure_refused E sp Hf) as (msg & Hv & Ho & Hm).
    exists msg. split; [|exact Hm].
    rewrite flag_procedure_refused by now rewrite Hv.
    rewrite Hv. cbn [message]. now rewrite Ho.
Qed.

Lemma disabled_flag_blocks_witness :
  (exists msg,
     FlagGate.mcp_execute_query (sampleEnv false acceptingPool)
       ("SELECT 1; " +:+ "delete" +:+ " from [dbo].[Orders]") emptyWorld
     = (Returned (Failure msg), emptyWorld)
     /\ mentions msg "DB_ALLOW_MODIFICATIONS=true")
  /\ (exists msg,
        FlagGate.mcp_execute_procedure (sampleEnv false acceptingPool)
          "usp_GetOrders" None emptyWorld
        = (Returned (Failure msg), emptyWorld)
        /\ mentions msg "DB_ALLOW_STORED_PROCEDURES=true").
Proof.
  destruct (disabled_flag_blocks (sampleEnv false acceptingPool) emptyWorld)
    as (Hq & Hk & Hp).
  split.
  - apply Hq; [reflexivity | reflexivity |].
    apply Hk; [reflexivity | simpl; tauto | reflexivity..].
  - apply Hp; reflexivity.
Defined.

(** C1, as stated, fails on the confirmation-token entry points: they do
    not read the flags.  With both flags false a DELETE is not refused but
    answered with a confirmation request, after its row count was asked of
    the database. *)
Lemma token_gate_ignores_flags :
  ALLOW_MODIFICATIONS (sampleEnv false acceptingPool) = false
  /\ containsModificationOperations deleteOrder = true
  /\ exists msg w',
       TokenGate.mcp_execute_query (sampleEnv false acceptingPool) deleteOrder emptyWorld
       = (Returned (Failure msg), w')
       /\ String.prefix "SECURITY_CONFIRMATION_REQUIRED" msg = true
       /\ contains "DB_ALLOW_MODIFICATIONS" msg = false
       /\ db_calls w' = [Query countOrder].
Proof.
  split; [reflexivity|]. split; [reflexivity|].
  destruct (TokenGate.mcp_execute_query (sampleEnv false acceptingPool)
              deleteOrder emptyWorld) as [[[msg|msg]|e] w'] eqn:Hrun;
    vm_compute in Hrun; try discriminate.
  exists msg, w'. split; [reflexivity|].
  inversion Hrun; subst. repeat split; reflexivity.
Qed.

(** A text with a comment marker, which the statement above leaves out:
    the detector takes [--] inside a string literal for the start of a
    comment and cuts the rest of the line before it looks for keywords.
    With DB_ALLOW_MODIFICATIONS off, the DELETE below is not refused but
    sent to the database. *)
Lemma marker_in_literal_hides_keyword :
  containsModificationOperations "SELECT '--' AS dash; DELETE FROM Orders" = false
  /\ FlagGate.mcp_execute_query (sampleEnv false acceptingPool)
       "SELECT '--' AS dash; DELETE FROM Orders" emptyWorld
     = (Returned (Success (recordset threeRows)),
        sent [Query "SELECT '--' AS dash; DELETE FROM Orders"] emptyWorld).
Proof. split; reflexivity. Qed.

End Flags.

(** ** Confirmation *)

Section Confirmation.
Import JsString Regex Security SecurityUtils.

(** C2 (as amended).  For a pending operation stored under a token, with
    a statement of ASCII characters that, if it is a DELETE, is written as
    the estimator's rewrite expects it (the word DELETE first, white space
    after it), a first confirmation within the TTL whose execution the
    database accepts sends the stored operation to the database exactly
    once: the only other call is at most one row count of the impact
    estimator, which is not the operation.  It returns success and removes
    the token.  A second confirmation with the same token returns the
    invalid-or-expired error and leaves the world, the database calls
    included, as it was. *)
Theorem confirm_once (E : Env) (token : string) (w : World) (p : PendingOp)
    (res : QueryResult) :
  pendingOperations w !! token = Some p ->
  ~ expired (clock E (clock_reads w)) p ->
  asciiText (op_sql (p_operation p)) ->
  (startsWith (normalized (op_sql (p_operation p))) "DELETE" = true ->
   deleteWritten (op_sql (p_operation p))) ->
  pool E (db_calls w) (TokenGate.operationCall (p_operation p)) = inl res ->
  exists data w1,
    TokenGate.mcp_confirm_and_execute E token w = (Returned (Success data), w1)
    /\ db_calls w1
       = (db_calls w ++ TokenGate.operationCall (p_operation p)
                        :: estimatorCalls (op_sql (p_operation p)))%list
    /\ (estimatorCalls (op_sql (p_operation p)) = []
        \/ exists rest,
             estimatorCalls (op_sql (p_operation p))
             = [Query ("SELECT COUNT(*) AS estimated_rows " +:+ rest)])
    /\ ~ In (TokenGate.operationCall (p_operation p))
            (estimatorCalls (op_sql (p_operation p)))
    /\ pendingOperations w1 !! token = None
    /\ TokenGate.mcp_confirm_and_execute E token w1
       = (Returned (Failure TokenGate.invalidToken), w1).
Proof.
  intros Hp Hlive _ Hwritten Hres.
  destruct (confirm_executed E token w p res Hp Hlive Hres)
    as (data & imp & w1 & Hrun & _ & Hcalls & Hstore & _).
  assert (Hgone : pendingOperations w1 !! token = None)
    by (rewrite Hstore; apply lookup_delete_eq).
  destruct (estimatorCalls_counts _ Hwritten) as [Hcount Hnot].
  exists data, w1. split; [exact Hrun|]. split; [exact Hcalls|].
  split; [exact Hcount|].
  split; [|split; [exact Hgone | now apply confirm_miss]].
  unfold TokenGate.operationCall.
  destruct (String.eqb (op_operation (p_operation p)) "STORED_PROCEDURE");
    [|exact Hnot].
  destruct Hcount as [->|[rest ->]]; [intros [] | intros [Heq|[]]; discriminate].
Qed.

(** The world after the DELETE of the examples was proposed. *)
Lemma proposed_delete (P : Pool) :
  exists p,
    pendingOperations (proposedWorld P) !! proposedToken P = Some p
    /\ p_operation p
       = {| op_sql := deleteOrder;
            op_operation := "DELETE";
            op_riskLevel := HIGH;
            op_estimatedRows := op_estimatedRows (p_operation p);
            op_affectedTables := op_affectedTables (p_operation p);
            op_spName := None; op_params := None |}
    /\ ~ expired (clock (proposedEnv P) (clock_reads (proposedWorld P))) p
    /\ db_calls (proposedWorld P) = [Query countOrder].
Proof.
  unfold proposedWorld, proposedToken.
  destruct (token_query_gated (proposedEnv P) deleteOrder emptyWorld eq_refl)
    as (imp & w' & Hrun & _ & Hcalls & _ & Hstore & Hclock).
  rewrite Hrun. cbn [snd].
  eexists. split; [|split; [|split]].
  - rewrite Hstore. unfold storedUnder.
    apply map_lookup_filter_Some. split; [apply lookup_insert_eq|].
    cbn [snd p_timestamp]. vm_compute. discriminate.
  - reflexivity.
  - cbn [p_timestamp]. rewrite Hclock. vm_compute. discriminate.
  - rewrite Hcalls. reflexivity.
Qed.

Lemma confirm_once_witness :
  exists data w1,
    TokenGate.mcp_confirm_and_execute (proposedEnv acceptingPool)
      (proposedToken acceptingPool) (proposedWorld acceptingPool)
    = (Returned (Success data), w1)
    /\ db_calls w1 = [Query countOrder; Query deleteOrder; Query countOrder]
    /\ TokenGate.mcp_confirm_and_execute (proposedEnv acceptingPool)
         (proposedToken acceptingPool) w1
       = (Returned (Failure TokenGate.invalidToken), w1).
Proof.
  destruct (proposed_delete acceptingPool) as (p & Hp & Hop & Hlive & Hsent).
  assert (Hascii : asciiText (op_sql (p_operation p)))
    by (rewrite Hop; reflexivity).
  assert (Hwritten : startsWith (normalized (op_sql (p_operation p))) "DELETE" = true ->
                     deleteWritten (op_sql (p_operation p))).
  { intros _. rewrite Hop.
    exists "DELETE", " "%char, "FROM [dbo].[Orders] WHERE Id = 7".
    repeat split; reflexivity. }
  destruct (confirm_once (proposedEnv acceptingPool) (proposedToken acceptingPool)
              (proposedWorld acceptingPool) p threeRows Hp Hlive Hascii Hwritten eq_refl)
    as (data & w1 & Hrun & Hcalls & _ & _ & _ & Hagain).
  exists data, w1. split; [exact Hrun|]. split; [|exact Hagain].
  rewrite Hcalls, Hsent, Hop. reflexivity.
Defined.

(** C2, as stated, fails when the database rejects the execution: the
    token is kept, and the second confirmation does not return the
    invalid-or-expired error but sends the stored statement again. *)
Lemma rejected_confirmation_repeats :
  let E := proposedEnv rejectingPool in
  let token := proposedToken rejectingPool in
  let first := TokenGate.mcp_confirm_and_execute E token (proposedWorld rejectingPool) in
  let second := TokenGate.mcp_confirm_and_execute E token (snd first) in
  fst first = Returned (Failure "Invalid object name")
  /\ fst second = Returned (Failure "Invalid object name")
  /\ fst second <> Returned (Failure TokenGate.invalidToken)
  /\ db_calls (snd first) = [Query countOrder; Query deleteOrder]
  /\ db_calls (snd second) = [Query countOrder; Query deleteOrder; Query deleteOrder].
Proof. vm_compute. repeat split. discriminate. Qed.

(** C3 (as amended).  The fetch of a confirmation does not invalidate: a
    hit of [getPendingOperation] leaves the entry in the store.  The token
    is removed only after the stored operation ran and the database
    accepted it; when the database rejects it, the confirmation returns the
    database error and the entry stays in the store under its token. *)
Theorem confirm_removes_after_success (E : Env) (token : string) (w : World)
    (p : PendingOp) :
  pendingOperations w !! token = Some p ->
  ~ expired (clock E (clock_reads w)) p ->
  let call := TokenGate.operationCall (p_operation p) in
  let r := TokenGate.mcp_confirm_and_execute E token w in
  fst (getPendingOperation E token w) = Returned (Some p)
  /\ pendingOperations (snd (getPendingOperation E token w)) !! token = Some p
  /\ (forall res, pool E (db_calls w) call = inl res ->
        pendingOperations (snd r) !! token = None)
  /\ (forall err, pool E (db_calls w) call = inr err ->
        fst r = Returned (Failure err)
        /\ db_calls (snd r) = (db_calls w ++ [call])%list
        /\ pendingOperations (snd r) !! token = Some p).
Proof.
  intros Hp Hlive call r.
  destruct (getPendingOperation_live E token w p Hp Hlive) as (w1 & Hg & Hs & _).
  rewrite Hg. cbn [fst snd]. rewrite Hs.
  split; [reflexivity|]. split; [exact Hp|]. split.
  - intros res Hres.
    destruct (confirm_executed E token w p res Hp Hlive Hres)
      as (data & imp & w2 & Hrun & _ & _ & Hstore & _).
    subst r. rewrite Hrun. cbn [snd]. rewrite Hstore. apply lookup_delete_eq.
  - intros err Herr.
    destruct (confirm_failed E token w p err Hp Hlive Herr)
      as (w2 & Hrun & Hcalls & Hstore & _).
    subst r. rewrite Hrun. cbn [fst snd]. rewrite Hstore. now repeat split.
Qed.

Lemma confirm_removes_after_success_witness :
  fst (TokenGate.mcp_confirm_and_execute (proposedEnv rejectingPool)
         (proposedToken rejectingPool) (proposedWorld rejectingPool))
  = Returned (Failure "Invalid object name")
  /\ exists p,
       pendingOperations
         (snd (TokenGate.mcp_confirm_and_execute (proposedEnv rejectingPool)
                 (proposedToken rejectingPool) (proposedWorld rejectingPool)))
       !! proposedToken rejectingPool = Some p.
Proof.
  destruct (proposed_delete rejectingPool) as (p & Hp & Hop & Hlive & Hsent).
  destruct (confirm_removes_after_success (proposedEnv rejectingPool)
              (proposedToken rejectingPool) (proposedWorld rejectingPool) p Hp Hlive)
    as (_ & _ & _ & Hfail).
  destruct (Hfail "Invalid object name" eq_refl) as (Hr & _ & Hstill).
  split; [exact Hr | now exists p].
Defined.

(** C3, as stated, fails: after a confirmation fetched the operation and
    its execution failed with a database error, a later confirmation with
    the same token executes the stored operation. *)
Lemma failed_confirmation_keeps_token :
  let E := proposedEnv recoveringExecution in
  let token := proposedToken recoveringExecution in
  let first := TokenGate.mcp_confirm_and_execute E token (proposedWorld recoveringExecution) in
  let second := TokenGate.mcp_confirm_and_execute E token (snd first) in
  fst first = Returned (Failure "Connection lost")
  /\ (exists data, fst second = Returned (Success data)
                   /\ TokenGate.ex_rowsAffected data = 3)
  /\ db_calls (snd second)
     = [Query countOrder; Query deleteOrder; Query deleteOrder; Query countOrder].
Proof. vm_compute. repeat split. eexists. split; reflexivity. Qed.

End Confirmation.

(** ** The audit log *)

Section Audit.
Import JsString Regex Security SecurityUtils.

(** C7 (as amended).  The flag-validating entry points write no audit
    event, so a proposal refused for a disabled flag leaves the audit log
    as it was.  Through the confirmation-token entry points, a proposal
    that requires confirmation (a statement of ASCII characters that
    [analyzeQuery] holds for confirmation, or a procedure off the
    whitelist) appends exactly one event, with result CANCELLED and error
    "Pending user confirmation", and a confirmation that finds its token
    within the TTL appends exactly one event, with result SUCCESS or
    FAILED. *)
Theorem audit_events (E : Env) (w : World) :
  (forall query,
     security_audit_log (snd (FlagGate.mcp_execute_query E query w))
     = security_audit_log w)
  /\ (forall sp params,
        security_audit_log (snd (FlagGate.mcp_execute_procedure E sp params w))
        = security_audit_log w)
  /\ (forall query,
        asciiText query ->
        requiresConfirmation (analyzeQuery query) = true ->
        exists e,
          security_audit_log (snd (TokenGate.mcp_execute_query E query w))
          = (security_audit_log w ++ [e])%list
          /\ log_userConfirmed e = false
          /\ log_result e = Some CANCELLED
          /\ log_error e = Some "Pending user confirmation")
  /\ (forall sp params,
        TokenGate.isReadOnlyProcedure sp = false ->
        exists e,
          security_audit_log (snd (TokenGate.mcp_execute_procedure E sp params w))
          = (security_audit_log w ++ [e])%list
          /\ log_userConfirmed e = false
          /\ log_result e = Some CANCELLED
          /\ log_error e = Some "Pending user confirmation")
  /\ (forall token p,
        pendingOperations w !! token = Some p ->
        ~ expired (clock E (clock_reads w)) p ->
        exists e,
          security_audit_log (snd (TokenGate.mcp_confirm_and_execute E token w))
          = (security_audit_log w ++ [e])%list
          /\ log_userConfirmed e = true
          /\ (log_result e = Some SUCCESS \/ log_result e = Some FAILED)).
Proof.
  split; [intros query; apply flag_query_audit|].
  split; [intros sp params; apply flag_procedure_audit|].
  split; [|split].
  - intros query _ Hc.
    destruct (token_query_gated E query w Hc)
      as (imp & w' & Hrun & _ & _ & Hlog & _).
    rewrite Hrun. cbn [snd]. eexists. split; [exact Hlog|]. now repeat split.
  - intros sp params Hr.
    destruct (token_procedure_gated E sp params w Hr)
      as (msg & w' & Hrun & _ & Hlog & _).
    rewrite Hrun. cbn [snd]. eexists. split; [exact Hlog|]. now repeat split.
  - intros token p Hp Hlive.
    destruct (pool E (db_calls w) (TokenGate.operationCall (p_operation p)))
      as [res|err] eqn:Hres.
    + destruct (confirm_executed E token w p res Hp Hlive Hres)
        as (data & imp & w' & Hrun & _ & _ & _ & Hlog).
      rewrite Hrun. cbn [snd]. eexists. split; [exact Hlog|].
      split; [reflexivity | now left].
    + destruct (confirm_failed E token w p err Hp Hlive Hres)
        as (w' & Hrun & _ & _ & Hlog).
      rewrite Hrun. cbn [snd]. eexists. split; [exact Hlog|].
      split; [reflexivity | now right].
Qed.

Lemma audit_events_witness :
  (exists e,
     security_audit_log
       (snd (TokenGate.mcp_execute_query (proposedEnv acceptingPool) deleteOrder emptyWorld))
     = [e] /\ log_result e = Some CANCELLED)
  /\ (exists e,
        security_audit_log
          (snd (TokenGate.mcp_confirm_and_execute (proposedEnv acceptingPool)
                  (proposedToken acceptingPool) (proposedWorld acceptingPool)))
        = (security_audit_log (proposedWorld acceptingPool) ++ [e])%list
        /\ (log_result e = Some SUCCESS \/ log_result e = Some FAILED)).
Proof.
  split.
  - destruct (audit_events (proposedEnv acceptingPool) emptyWorld)
      as (_ & _ & Hq & _).
    destruct (Hq deleteOrder eq_refl eq_refl) as (e & Hlog & _ & Hres & _).
    exists e. now split.
  - destruct (proposed_delete acceptingPool) as (p & Hp & _ & Hlive & _).
    destruct (audit_events (proposedEnv acceptingPool) (proposedWorld acceptingPool))
      as (_ & _ & _ & _ & Hc).
    destruct (Hc _ p Hp Hlive) as (e & Hlog & _ & Hres).
    exists e. now split.
Defined.

(** C7, as stated, fails: a proposal refused for a disabled flag writes no
    audit event at all. *)
Lemma blocked_proposal_logs_nothing :
  (exists msg,
     fst (FlagGate.mcp_execute_query (sampleEnv false acceptingPool) deleteOrder emptyWorld)
     = Returned (Failure msg)
     /\ contains "OPERATION BLOCKED" msg = true)
  /\ security_audit_log
       (snd (FlagGate.mcp_execute_query (sampleEnv false acceptingPool) deleteOrder emptyWorld))
     = [].
Proof. split; [eexists; split; reflexivity | reflexivity]. Qed.

End Audit.

(** ** The classifier and the first token *)

Section ClassifierSlip.
Import JsString Regex Security SecurityUtils.

(** C5 (the code departs from it).  The risk level goes by the first
    token, but whether a statement is a write or a read goes by the prefix
    of the text.  WITHDRAW is no keyword of either list, yet it starts
    with the read keyword WITH: [analyzeQuery] reports a read-only
    operation of LOW risk that needs no confirmation, and the token gate
    sends the statement to the database at once and stores nothing.
    INSERTED starts with INSERT and is held, but as MEDIUM, not HIGH. *)
Theorem analyzeQuery_passes_unrecognized_token (E : Env) (w : World) :
  ~ In (firstKeyword "WITHDRAW 100 FROM account")
       (WRITE_OPERATIONS ++ READ_OPERATIONS)
  /\ analyzeQuery "WITHDRAW 100 FROM account"
     = {| requiresConfirmation := false; operation := "WITHDRAW";
          riskLevel := LOW; reason := "Read-only WITHDRAW operation" |}
  /\ db_calls (snd (TokenGate.mcp_execute_query E "WITHDRAW 100 FROM account" w))
     = (db_calls w ++ [Query "WITHDRAW 100 FROM account"])%list
  /\ pendingOperations (snd (TokenGate.mcp_execute_query E "WITHDRAW 100 FROM account" w))
     = pendingOperations w
  /\ ~ In (firstKeyword "INSERTED 1") (WRITE_OPERATIONS ++ READ_OPERATIONS)
  /\ riskLevel (analyzeQuery "INSERTED 1") = MEDIUM.
Proof.
  split; [vm_compute; intuition discriminate|].
  split; [reflexivity|].
  destruct (token_query_ungated E "WITHDRAW 100 FROM account" w eq_refl) as [Hc Hp].
  split; [exact Hc|]. split; [exact Hp|].
  split; [vm_compute; intuition discriminate | reflexivity].
Qed.

End ClassifierSlip.

(** ** The estimator and the statement it estimates *)

Section EstimatorSlip.
Import JsString Regex Security SecurityUtils.

(** C8 (the code departs from it).  For a DELETE written with white space
    in front, the rewriting into a row count does not apply, and the text
    [estimateImpact] sends to the database is the DELETE statement itself;
    the proposal of the token gate sends it before any confirmation. *)
Theorem estimateImpact_sends_untrimmed_delete (E : Env) (w : World) :
  db_calls (snd (estimateImpact E " DELETE FROM [dbo].[Orders] WHERE Id = 7" w))
  = (db_calls w ++ [Query " DELETE FROM [dbo].[Orders] WHERE Id = 7"])%list
  /\ db_calls (snd (TokenGate.mcp_execute_query E
                      " DELETE FROM [dbo].[Orders] WHERE Id = 7" w))
     = (db_calls w ++ [Query " DELETE FROM [dbo].[Orders] WHERE Id = 7"])%list.
Proof.
  split.
  - destruct (estimateImpact_returns E " DELETE FROM [dbo].[Orders] WHERE Id = 7" w)
      as (imp & -> & _).
    reflexivity.
  - destruct (token_query_gated E " DELETE FROM [dbo].[Orders] WHERE Id = 7" w eq_refl)
      as (imp & w' & Hrun & _ & Hcalls & _).
    rewrite Hrun. cbn [snd]. rewrite Hcalls. reflexivity.
Qed.

End EstimatorSlip.

(** ** Stored procedures *)

Section Procedures.
Import JsString Regex Security SecurityUtils.

(** C9 (as amended).  [mcp_execute_procedure] of the token gate bypasses
    confirmation exactly when the name as given starts, ignoring case,
    with one of usp_Get, usp_Select, usp_Search, usp_Find, usp_List and
    usp_View: then the call goes to the database at once and nothing is
    stored.  Every other name is stored and logged with risk MEDIUM and
    answered with a confirmation request, without any database call; the
    decision reads the name only. *)
Theorem procedure_whitelist (E : Env) (sp : string) (params : option ParamObject)
    (w : World) :
  TokenGate.isReadOnlyProcedure sp
  = existsb (fun p => String.prefix (toUpperCase p) (toUpperCase sp))
      ["usp_Get"; "usp_Select"; "usp_Search"; "usp_Find"; "usp_List"; "usp_View"]
  /\ (TokenGate.isReadOnlyProcedure sp = true ->
      exists r w',
        TokenGate.mcp_execute_procedure E sp params w = (Returned r, w')
        /\ db_calls w' = (db_calls w ++ [Execute sp (default [] params)])%list
        /\ pendingOperations w' = pendingOperations w)
  /\ (TokenGate.isReadOnlyProcedure sp = false ->
      exists msg e w',
        TokenGate.mcp_execute_procedure E sp params w
        = (Returned (Failure (TokenGate.confirmationRequired msg (mintedToken E w))), w')
        /\ db_calls w' = db_calls w
        /\ security_audit_log w' = (security_audit_log w ++ [e])%list
        /\ log_riskLevel e = MEDIUM
        /\ log_result e = Some CANCELLED
        /\ pendingOperations w'
           = storedUnder E w
               {| op_sql := "EXEC " +:+ sp;
                  op_operation := "STORED_PROCEDURE";
                  op_riskLevel := MEDIUM;
                  op_estimatedRows := 0;
                  op_affectedTables := ["Unknown - Stored Procedure"];
                  op_spName := Some sp; op_params := params |}).
Proof.
  split; [apply isReadOnlyProcedure_prefix|]. split.
  - intros Hr.
    destruct (token_procedure_direct E sp params w Hr)
      as (r & w' & Hrun & Hcalls & Hstore & _).
    now exists r, w'.
  - intros Hr.
    destruct (token_procedure_gated E sp params w Hr)
      as (msg & w' & Hrun & Hcalls & Hlog & Hstore).
    eexists msg, _, w'. split; [exact Hrun|]. split; [exact Hcalls|].
    split; [exact Hlog|]. now repeat split.
Qed.

Lemma procedure_whitelist_witness :
  (exists r w',
     TokenGate.mcp_execute_procedure (sampleEnv true acceptingPool)
       "USP_getOrders" None emptyWorld = (Returned r, w')
     /\ db_calls w' = [Execute "USP_getOrders" []])
  /\ (exists msg w',
        TokenGate.mcp_execute_procedure (sampleEnv true acceptingPool)
          "usp_ArchiveOrders" None emptyWorld
        = (Returned (Failure msg), w')
        /\ db_calls w' = []).
Proof.
  split.
  - destruct (procedure_whitelist (sampleEnv true acceptingPool) "USP_getOrders"
                None emptyWorld) as (_ & Hd & _).
    destruct (Hd eq_refl) as (r & w' & Hrun & Hcalls & _).
    now exists r, w'.
  - destruct (procedure_whitelist (sampleEnv true acceptingPool) "usp_ArchiveOrders"
                None emptyWorld) as (_ & _ & Hg).
    destruct (Hg eq_refl) as (msg & e & w' & Hrun & Hcalls & _).
    eexists _, w'. split; [exact Hrun | exact Hcalls].
Defined.

(** C9, as stated, fails: a name that starts with Get, or a schema-qualified
    name of a usp_Get procedure, is not on the whitelist; the call is held
    for confirmation. *)
Lemma get_prefix_requires_confirmation :
  String.prefix "GET" (toUpperCase "GetCustomerOrders") = true
  /\ TokenGate.isReadOnlyProcedure "GetCustomerOrders" = false
  /\ TokenGate.isReadOnlyProcedure "[api].[usp_GetUserById]" = false
  /\ exists msg w',
       TokenGate.mcp_execute_procedure (sampleEnv true acceptingPool)
         "GetCustomerOrders" None emptyWorld
       = (Returned (Failure msg), w')
       /\ String.prefix "SECURITY_CONFIRMATION_REQUIRED" msg = true
       /\ db_calls w' = [].
Proof.
  split; [reflexivity|]. split; [reflexivity|]. split; [reflexivity|].
  destruct (token_procedure_gated (sampleEnv true acceptingPool)
              "GetCustomerOrders" None emptyWorld eq_refl)
    as (msg & w' & Hrun & Hcalls & _).
  eexists _, w'. split; [exact Hrun|]. split; [reflexivity | exact Hcalls].
Qed.

End Procedures.

(** * Further properties of the code *)

(** ** Reading and reporting the flags *)

Section FlagsConfig.
Import JsString Security SecurityStatus.

Lemma lower_upper (c : ascii) : lower (upper c) = lower c.
Proof. destruct c as [[] [] [] [] [] [] [] []]; reflexivity. Qed.

Lemma toLowerCase_toUpperCase (s : string) :
  toLowerCase (toUpperCase s) = toLowerCase s.
Proof.
  induction s as [|c s IH]; [reflexivity|].
  simpl. now rewrite lower_upper, IH.
Qed.

(** X1.  [parseBoolean] gives the default for an unset or empty variable.
    For a non-empty value of ASCII characters the default plays no role:
    the value is true exactly when its lower-cased text is one of true,
    yes, 1 and on, so the reading ignores case and any other text, such as
    a value with a space after it, is false even where the default is
    true. *)
Theorem parseBoolean_reading (v : string) (d : bool) :
  asciiText v ->
  parseBoolean None d = d
  /\ parseBoolean (Some "") d = d
  /\ (v <> "" ->
      parseBoolean (Some v) d
      = existsb (String.eqb (toLowerCase v)) ["true"; "yes"; "1"; "on"])
  /\ parseBoolean (Some (toUpperCase v)) d = parseBoolean (Some v) d.
Proof.
  intros _. split; [reflexivity|]. split; [reflexivity|]. split.
  - intros Hv. destruct v; [contradiction | reflexivity].
  - destruct v as [|c v]; [reflexivity|].
    unfold parseBoolean. cbn [toUpperCase].
    change (String (upper c) (toUpperCase v)) with (toUpperCase (String c v)).
    now rewrite toLowerCase_toUpperCase.
Qed.

Lemma parseBoolean_reading_witness :
  parseBoolean (Some "YES") false = true
  /\ parseBoolean (Some "true ") true = false.
Proof.
  split.
  - destruct (parseBoolean_reading "YES" false eq_refl) as (_ & _ & H & _).
    rewrite H; [reflexivity | discriminate].
  - destruct (parseBoolean_reading "true " true eq_refl) as (_ & _ & H & _).
    rewrite H; [reflexivity | discriminate].
Defined.

(** X2.  [getSecurityStatus] reports the two flags as configured, and its
    level follows the permission checks: MAXIMUM exactly when both the
    modification check and the stored-procedure check refuse, LOW exactly
    when both allow, MEDIUM otherwise; it gives two recommendations at
    level LOW and one otherwise. *)
Theorem getSecurityStatus_level (E : Env) (operation spName : string) :
  let s := getSecurityStatus E in
  let m := allowed (validateModificationPermission E operation) in
  let p := allowed (validateStoredProcedurePermission E spName) in
  modifications_enabled s = m
  /\ stored_procedures_enabled s = p
  /\ security_level s
     = (if m && p then "LOW" else if m || p then "MEDIUM" else "MAXIMUM")
  /\ length (recommendations s) = (if m && p then 2 else 1)%nat.
Proof.
  unfold getSecurityStatus, validateModificationPermission,
    validateStoredProcedurePermission.
  destruct (ALLOW_MODIFICATIONS E), (ALLOW_STORED_PROCEDURES E);
    repeat split; reflexivity.
Qed.

End FlagsConfig.

(** ** The flag-validating entry points *)

Section FlagEntryPoints.
Import JsString Security.

(** X3.  [validateQueryPermission] allows a query of ASCII characters
    exactly when it is not empty and either the detector finds no
    modification keyword in it or modifications are enabled.  The empty
    query is refused with "Empty or invalid query" whatever the flags, and
    [mcp_execute_query] then leaves the world as it was. *)
Theorem validateQueryPermission_allows (E : Env) (query : string) (w : World) :
  asciiText query ->
  (allowed (validateQueryPermission E query) = true <->
     query <> ""
     /\ (containsModificationOperations query = false
         \/ ALLOW_MODIFICATIONS E = true))
  /\ validateQueryPermission E ""
     = {| allowed := false; message := Some "Empty or invalid query" |}
  /\ FlagGate.mcp_execute_query E "" w
     = (Returned (Failure "Empty or invalid query"), w).
Proof.
  intros _. split; [|split; reflexivity].
  unfold validateQueryPermission, validateModificationPermission.
  destruct query as [|c q].
  - split; [discriminate | intros [H _]; contradiction].
  - destruct (containsModificationOperations (String c q));
      destruct (ALLOW_MODIFICATIONS E); cbn; split;
      try discriminate; try (intros _; split; [discriminate | tauto]);
      try reflexivity.
    intros [_ [H|H]]; discriminate.
Qed.

Lemma validateQueryPermission_allows_witness :
  allowed (validateQueryPermission (sampleEnv false acceptingPool)
             "SELECT TOP 5 * FROM [dbo].[Orders]") = true.
Proof.
  apply (validateQueryPermission_allows (sampleEnv false acceptingPool)
           "SELECT TOP 5 * FROM [dbo].[Orders]" emptyWorld eq_refl).
  split; [discriminate | left; reflexivity].
Defined.

(** X4.  A query of ASCII characters that [validateQueryPermission]
    allows is sent to the database once, as written; the tool returns the
    recordset when the database accepts it and the database's error
    message when it rejects it, and it never throws. *)
Theorem flag_query_runs_as_written (E : Env) (query : string) (w : World) :
  asciiText query ->
  allowed (validateQueryPermission E query) = true ->
  FlagGate.mcp_execute_query E query w
  = (Returned match pool E (db_calls w) (Query query) with
              | inl result => Success (recordset result)
              | inr error => Failure error
              end,
     sent [Query query] w).
Proof.
  intros _ H. unfold FlagGate.mcp_execute_query. rewrite H. cbn [negb].
  unfold try_catch, bind, send, ret, sent.
  now destruct (pool E (db_calls w) (Query query)).
Qed.

Lemma flag_query_runs_as_written_witness :
  FlagGate.mcp_execute_query (sampleEnv false acceptingPool)
    "SELECT TOP 5 * FROM [dbo].[Orders]" emptyWorld
  = (Returned (Success (Some [[("estimated_rows", 3)]])),
     sent [Query "SELECT TOP 5 * FROM [dbo].[Orders]"] emptyWorld).
Proof.
  apply (flag_query_runs_as_written (sampleEnv false acceptingPool)
           "SELECT TOP 5 * FROM [dbo].[Orders]" emptyWorld);
    reflexivity.
Defined.

(** X5.  The flag-validating [mcp_execute_procedure] depends on the
    stored-procedure flag alone: with the flag on, every procedure,
    whatever its name and whatever the modification flag, is executed at
    once with all its parameters bound, and the result or the database
    error is returned. *)
Theorem flag_procedure_runs (E : Env) (sp_name : string)
    (params : option ParamObject) (w : World) :
  ALLOW_STORED_PROCEDURES E = true ->
  FlagGate.mcp_execute_procedure E sp_name params w
  = (Returned match pool E (db_calls w) (Execute sp_name (default [] params)) with
              | inl result => Success (recordset result)
              | inr error => Failure error
              end,
     sent [Execute sp_name (default [] params)] w).
Proof.
  intros H. unfold FlagGate.mcp_execute_procedure, validateStoredProcedurePermission.
  rewrite H. cbn [negb allowed].
  unfold try_catch, bind, send, ret, sent.
  now destruct (pool E (db_calls w) (Execute sp_name (default [] params))).
Qed.

Lemma flag_procedure_runs_witness :
  FlagGate.mcp_execute_procedure
    {| ALLOW_MODIFICATIONS := false; ALLOW_STORED_PROCEDURES := true;
       pool := acceptingPool; clock := fun _ => 0; random := fun _ => "" |}
    "usp_DeleteAllOrders" (Some [("year", "2020")]) emptyWorld
  = (Returned (Success (Some [[("estimated_rows", 3)]])),
     sent [Execute "usp_DeleteAllOrders" [("year", "2020")]] emptyWorld).
Proof.
  apply (flag_procedure_runs
           {| ALLOW_MODIFICATIONS := false; ALLOW_STORED_PROCEDURES := true;
              pool := acceptingPool; clock := fun _ => 0; random := fun _ => "" |}
           "usp_DeleteAllOrders" (Some [("year", "2020")]) emptyWorld).
  reflexivity.
Defined.

End FlagEntryPoints.

(** ** More on the classifier *)

Section ClassifierMore.
Import JsString SecurityUtils.

Lemma trimStart_upper (s : string) :
  trimStart (toUpperCase s) = toUpperCase (trimStart s).
Proof.
  induction s as [|c s IH]; [reflexivity|].
  simpl. rewrite is_space_upper. now destruct (is_space c).
Qed.

Lemma trimEnd_upper (s : string) :
  trimEnd (toUpperCase s) = toUpperCase (trimEnd s).
Proof.
  induction s as [|c s IH]; [reflexivity|].
  simpl. rewrite IH, is_space_upper.
  destruct (trimEnd s); simpl; [now destruct (is_space c) | reflexivity].
Qed.

Lemma trim_upper (s : string) : trim (toUpperCase s) = toUpperCase (trim s).
Proof. unfold trim. now rewrite trimStart_upper, trimEnd_upper. Qed.

(** X6.  The classification ignores the case of the statement: two
    statements of ASCII characters that differ in letter case only get the
    same analysis. *)
Theorem analyzeQuery_ignores_case (a b : string) :
  asciiText a -> asciiText b ->
  toUpperCase a = toUpperCase b -> analyzeQuery a = analyzeQuery b.
Proof.
  intros _ _ H. unfold analyzeQuery.
  assert (Hn : toUpperCase (trim a) = toUpperCase (trim b))
    by now rewrite <- !trim_upper, H.
  now rewrite Hn.
Qed.

Lemma analyzeQuery_ignores_case_witness :
  analyzeQuery "delete from Orders" = analyzeQuery "DELETE FROM ORDERS".
Proof. apply analyzeQuery_ignores_case; reflexivity. Defined.

(** X7.  The write keywords and the read keywords never both match: no
    text of ASCII characters starts with a keyword of each list, so the
    order in which [analyzeQuery] tests the two lists does not matter. *)
Theorem write_and_read_exclusive (sql : string) :
  asciiText sql ->
  isWriteOperation sql && isReadOperation sql = false.
Proof.
  intros _. unfold isWriteOperation, isReadOperation.
  destruct (some (fun op => startsWith (normalized sql) op) READ_OPERATIONS) eqn:Hr.
  - apply existsb_exists in Hr as (k & Hin & Hk).
    now rewrite (read_prefix_not_write (normalized sql) k Hin Hk).
  - apply andb_false_r.
Qed.

Lemma write_and_read_exclusive_witness :
  isWriteOperation "WITH x AS (SELECT 1) DELETE FROM T"
  && isReadOperation "WITH x AS (SELECT 1) DELETE FROM T" = false.
Proof. apply write_and_read_exclusive. reflexivity. Defined.

Lemma firstToken_nonempty (s : string) (c : ascii) (t : string) :
  s = String c t -> is_space c = false -> firstToken s <> "".
Proof. intros -> Hc. simpl. rewrite Hc. discriminate. Qed.

Lemma keyword_prefix_token (clean k : string) :
  In k (WRITE_OPERATIONS ++ READ_OPERATIONS) ->
  startsWith clean k = true -> firstToken clean <> "".
Proof.
  intros Hin Hp. apply prefix_split in Hp as [r ->].
  simpl in Hin.
  repeat (destruct Hin as [<-|Hin]; [discriminate|]). contradiction.
Qed.

(** X8.  What [analyzeQuery] lets pass, for a statement of ASCII
    characters: a statement that needs no confirmation is of LOW risk and
    its normalized text starts with a read keyword and with no write
    keyword; every statement of MEDIUM or HIGH risk requires confirmation;
    and the reported operation is never the empty text (a blank statement
    is reported as UNKNOWN). *)
Theorem analyzeQuery_unconfirmed_reads (sql : string) :
  asciiText sql ->
  (requiresConfirmation (analyzeQuery sql) = false ->
     riskLevel (analyzeQuery sql) = LOW
     /\ isReadOperation sql = true /\ isWriteOperation sql = false)
  /\ (riskLevel (analyzeQuery sql) <> LOW ->
        requiresConfirmation (analyzeQuery sql) = true)
  /\ operation (analyzeQuery sql) <> ""
  /\ (normalized sql = "" -> operation (analyzeQuery sql) = "UNKNOWN").
Proof.
  intros _. unfold analyzeQuery, isReadOperation, isWriteOperation.
  fold (normalized sql).
  destruct (some (fun op => startsWith (normalized sql) op) WRITE_OPERATIONS) eqn:Hw.
  - apply existsb_exists in Hw as (k & Hin & Hk).
    assert (Hne : firstToken (normalized sql) <> "")
      by (apply (keyword_prefix_token _ k); [apply in_or_app; now left | exact Hk]).
    match goal with |- context [let '(_, _) := ?X in _] =>
      destruct X as [rl rs] end.
    cbn. split; [discriminate|]. split; [reflexivity|]. split; [exact Hne|].
    intros Hn. rewrite Hn in Hk. apply prefix_split in Hk as [r Hr].
    simpl in Hin.
    repeat (destruct Hin as [<-|Hin]; [discriminate|]). contradiction.
  - destruct (some (fun op => startsWith (normalized sql) op) READ_OPERATIONS) eqn:Hr.
    + apply existsb_exists in Hr as (k & Hin & Hk).
      assert (Hne : firstToken (normalized sql) <> "")
        by (apply (keyword_prefix_token _ k); [apply in_or_app; now right | exact Hk]).
      cbn. split; [now repeat split|]. split; [intros Hx; now contradiction Hx|].
      split; [exact Hne|].
      intros Hn. rewrite Hn in Hk. apply prefix_split in Hk as [r Hr'].
      simpl in Hin.
      repeat (destruct Hin as [<-|Hin]; [discriminate|]). contradiction.
    + cbn. split; [discriminate|]. split; [reflexivity|]. split.
      * unfold orElse. destruct (firstToken (normalized sql)); discriminate.
      * intros ->. reflexivity.
Qed.

Lemma analyzeQuery_unconfirmed_reads_witness :
  (riskLevel (analyzeQuery "select 1") = LOW /\ isReadOperation "select 1" = true
   /\ isWriteOperation "select 1" = false)
  /\ requiresConfirmation (analyzeQuery "truncate table t") = true
  /\ operation (analyzeQuery "   ") = "UNKNOWN".
Proof.
  split; [|split].
  - destruct (analyzeQuery_unconfirmed_reads "select 1" eq_refl) as (H & _). now apply H.
  - destruct (analyzeQuery_unconfirmed_reads "truncate table t" eq_refl) as (_ & H & _).
    apply H. discriminate.
  - destruct (analyzeQuery_unconfirmed_reads "   " eq_refl) as (_ & _ & _ & H). now apply H.
Defined.

End ClassifierMore.

(** ** More on the impact estimator *)

Section EstimatorMore.
Import JsString Regex SecurityUtils.

(** X9.  Whatever the statement of ASCII characters, [estimateImpact]
    sends at most one text to the database, and that text is either a row
    count, starting with SELECT COUNT( * ) AS estimated_rows, or the
    statement itself; the latter only for a text that starts with DELETE
    once trimmed while the text as given does not match the DELETE pattern
    of the rewrite. *)
Theorem estimator_sends (sql : string) :
  asciiText sql ->
  estimatorCalls sql = []
  \/ (exists rest,
        estimatorCalls sql
        = [Query ("SELECT COUNT(*) AS estimated_rows " +:+ rest)])
  \/ (estimatorCalls sql = [Query sql]
      /\ startsWith (normalized sql) "DELETE" = true
      /\ test icase deletePrefix sql = false).
Proof.
  intros _. unfold estimatorCalls.
  destruct (countQuery_cases sql) as [H|[[rest H]|(H & Hs & Ht)]].
  - left. now rewrite H.
  - right. left. exists rest. rewrite H. now rewrite append_cons.
  - rewrite H. destruct sql; [now left|]. right. right. now repeat split.
Qed.

Lemma estimator_sends_witness :
  estimatorCalls " DELETE FROM T" = []
  \/ (exists rest,
        estimatorCalls " DELETE FROM T"
        = [Query ("SELECT COUNT(*) AS estimated_rows " +:+ rest)])
  \/ (estimatorCalls " DELETE FROM T" = [Query " DELETE FROM T"]
      /\ startsWith (normalized " DELETE FROM T") "DELETE" = true
      /\ test icase deletePrefix " DELETE FROM T" = false).
Proof. apply estimator_sends. reflexivity. Defined.

(** X10.  For a statement of ASCII characters written as the word DELETE,
    in any letter case, directly followed by white space, the estimator's
    count query is the statement with the word and the white space after
    it replaced by SELECT COUNT( * ) AS estimated_rows: the DELETE itself
    is not sent. *)
Theorem delete_is_rewritten (kw : string) (sp : ascii) (tail : string) :
  asciiText (kw +:+ String sp tail) ->
  toUpperCase kw = "DELETE" ->
  is_space sp = true ->
  estimatorCalls (kw +:+ String sp tail)
  = [Query ("SELECT COUNT(*) AS estimated_rows " +:+ trimStart tail)].
Proof.
  intros _ Hkw Hsp. unfold estimatorCalls.
  rewrite (countQuery_delete kw sp tail Hkw Hsp). now rewrite append_cons.
Qed.

Lemma delete_is_rewritten_witness :
  estimatorCalls ("Delete" +:+ String " " " from [dbo].[Orders] where Id = 7")
  = [Query "SELECT COUNT(*) AS estimated_rows from [dbo].[Orders] where Id = 7"].
Proof.
  apply (delete_is_rewritten "Delete" " " " from [dbo].[Orders] where Id = 7");
    reflexivity.
Defined.

(** X11.  For a statement of ASCII characters: when the database answers
    the count query, the estimate is the value of the column
    estimated_rows of the first row (zero for an empty recordset or a
    missing column), and the warning about a large number of rows is given
    exactly for an estimate above 1000; an answer without a recordset
    gives zero rows and the warning that the estimate is unavailable.  The
    affected tables are those found in the text. *)
Theorem estimateImpact_counted (E : Env) (sql : string) (w : World)
    (res : QueryResult) :
  asciiText sql ->
  countQuery sql <> "" ->
  pool E (db_calls w) (Query (countQuery sql)) = inl res ->
  estimateImpact E sql w
  = (Returned
       match recordset res with
       | None =>
           {| estimatedRows := 0; affectedTables := extractTables sql;
              warning := Some "Could not estimate the number of affected rows" |}
       | Some rows =>
           let n := match rows with
                    | [] => 0
                    | row :: _ =>
                        default 0 (snd <$> List.find
                                     (fun c => String.eqb (fst c) "estimated_rows") row)
                    end in
           {| estimatedRows := n; affectedTables := extractTables sql;
              warning := if (1000 <? n)%Z
                         then Some "Large number of rows may be affected"
                         else None |}
       end,
     sent [Query (countQuery sql)] w).
Proof.
  intros _ Hq Hres. pose proof (countQuery_nonempty_prefix sql Hq) as Hp.
  unfold estimateImpact, try_catch, bind, ret. rewrite Hp.
  destruct (countQuery sql) as [|c q]; [contradiction|].
  unfold send. rewrite Hres. unfold readEstimate.
  destruct (recordset res) as [[|row rows]|]; reflexivity.
Qed.

Lemma estimateImpact_counted_witness :
  estimateImpact
    (sampleEnv true (fun _ _ => inl {| recordset := Some [[("estimated_rows", 1001)]];
                                       rowsAffected := None |}))
    deleteOrder emptyWorld
  = (Returned {| estimatedRows := 1001; affectedTables := ["[dbo].[Orders]"];
                 warning := Some "Large number of rows may be affected" |},
     sent [Query countOrder] emptyWorld).
Proof.
  apply (estimateImpact_counted
           (sampleEnv true (fun _ _ => inl {| recordset := Some [[("estimated_rows", 1001)]];
                                              rowsAffected := None |}))
           deleteOrder emptyWorld
           {| recordset := Some [[("estimated_rows", 1001)]]; rowsAffected := None |}).
  - reflexivity.
  - vm_compute. discriminate.
  - reflexivity.
Defined.

(** X12.  For a statement of ASCII characters: when the database rejects
    the count query, [estimateImpact] does not fail: it returns zero rows,
    the warning that the number of rows could not be estimated, and the
    tables found in the text. *)
Theorem estimateImpact_survives_rejection (E : Env) (sql err : string) (w : World) :
  asciiText sql ->
  countQuery sql <> "" ->
  pool E (db_calls w) (Query (countQuery sql)) = inr err ->
  estimateImpact E sql w
  = (Returned {| estimatedRows := 0; affectedTables := extractTables sql;
                 warning := Some "Could not estimate the number of affected rows" |},
     sent [Query (countQuery sql)] w).
Proof.
  intros _ Hq Hres. pose proof (countQuery_nonempty_prefix sql Hq) as Hp.
  unfold estimateImpact, try_catch, bind, ret. rewrite Hp.
  destruct (countQuery sql) as [|c q]; [contradiction|].
  unfold send. now rewrite Hres.
Qed.

Lemma estimateImpact_survives_rejection_witness :
  estimateImpact (sampleEnv true rejectingPool) deleteOrder emptyWorld
  = (Returned {| estimatedRows := 0; affectedTables := ["[dbo].[Orders]"];
                 warning := Some "Could not estimate the number of affected rows" |},
     sent [Query countOrder] emptyWorld).
Proof.
  apply (estimateImpact_survives_rejection (sampleEnv true rejectingPool)
           deleteOrder "Invalid object name" emptyWorld).
  - reflexivity.
  - vm_compute. discriminate.
  - reflexivity.
Defined.

End EstimatorMore.

(** ** More on the pending-operation store *)

Section StoreMore.
Import JsString SecurityUtils.

Lemma storePendingOperation_run (E : Env) (token : string) (o : Operation) (w : World) :
  storePendingOperation E token o w
  = (Returned tt,
     {| pendingOperations :=
          filter (fun entry : string * PendingOp =>
                    ~ expired (clock E (S (clock_reads w))) entry.2)
                 (<[token := {| p_operation := o;
                                p_timestamp := clock E (clock_reads w) |}]>
                    (pendingOperations w));
        security_audit_log := security_audit_log w;
        db_calls := db_calls w;
        clock_reads := S (S (clock_reads w));
        random_reads := random_reads w |}).
Proof. reflexivity. Qed.

(** X13.  After [storePendingOperation], the store holds under a token
    exactly this: the operation just stored, stamped with the time of the
    call, under the token given, and every other entry it held before; in
    both cases only if the entry is not older than five minutes at the
    sweep that ends the call.  An entry that was under the same token
    before is replaced, and the audit log and the database are not
    touched. *)
Theorem storePendingOperation_holds (E : Env) (token : string) (o : Operation)
    (w : World) (k : string) (v : PendingOp) :
  let w' := snd (storePendingOperation E token o w) in
  let stored := {| p_operation := o; p_timestamp := clock E (clock_reads w) |} in
  let sweep := clock E (S (clock_reads w)) in
  (pendingOperations w' !! k = Some v <->
     sweep - p_timestamp v <= 300000
     /\ ((k = token /\ v = stored)
         \/ (k <> token /\ pendingOperations w !! k = Some v)))
  /\ security_audit_log w' = security_audit_log w
  /\ db_calls w' = db_calls w.
Proof.
  intros w' stored sweep. subst w'. rewrite storePendingOperation_run. cbn [snd].
  cbn [pendingOperations security_audit_log db_calls].
  split; [|now split].
  rewrite map_lookup_filter_Some. cbn [snd].
  unfold expired, maxAge. fold sweep. fold stored.
  destruct (decide (k = token)) as [->|Hne].
  - rewrite lookup_insert_eq. split.
    + intros [Hv Ht]. injection Hv as <-. split; [lia | now left].
    + intros [Ht [[_ ->]|[Hx _]]]; [|contradiction]. split; [reflexivity | lia].
  - rewrite lookup_insert_ne by congruence. split.
    + intros [Hv Ht]. split; [lia | now right].
    + intros [Ht [[Hx _]|[_ Hv]]]; [contradiction|]. split; [exact Hv | lia].
Qed.

(** X14.  Store, then look up: an operation stored under a token is
    returned by [getPendingOperation] with the time stamp of the store,
    provided the clock has not passed five minutes after that time stamp,
    neither at the sweep of the store nor at the lookup. *)
Theorem store_then_lookup (E : Env) (token : string) (o : Operation) (w : World) :
  let t0 := clock E (clock_reads w) in
  clock E (S (clock_reads w)) - t0 <= 300000 ->
  clock E (S (S (clock_reads w))) - t0 <= 300000 ->
  fst (getPendingOperation E token (snd (storePendingOperation E token o w)))
  = Returned (Some {| p_operation := o; p_timestamp := t0 |}).
Proof.
  intros t0 Hsweep Hlook.
  rewrite storePendingOperation_run. cbn [snd].
  match goal with |- fst (getPendingOperation E token ?w1) = _ =>
    destruct (getPendingOperation_live E token w1
                {| p_operation := o; p_timestamp := t0 |}) as (w2 & -> & _) end.
  - cbn [pendingOperations]. apply map_lookup_filter_Some.
    split; [apply lookup_insert_eq|].
    unfold expired, maxAge. cbn [snd p_timestamp]. fold t0. lia.
  - unfold expired, maxAge. cbn [clock_reads p_timestamp]. lia.
  - reflexivity.
Qed.

Lemma store_then_lookup_witness :
  fst (getPendingOperation (sampleEnv true acceptingPool) "CONF_X_Y"
         (snd (storePendingOperation (sampleEnv true acceptingPool) "CONF_X_Y"
                 {| op_sql := deleteOrder; op_operation := "DELETE";
                    op_riskLevel := HIGH; op_estimatedRows := 1;
                    op_affectedTables := ["[dbo].[Orders]"];
                    op_spName := None; op_params := None |} emptyWorld)))
  = Returned (Some {| p_operation :=
                        {| op_sql := deleteOrder; op_operation := "DELETE";
                           op_riskLevel := HIGH; op_estimatedRows := 1;
                           op_affectedTables := ["[dbo].[Orders]"];
                           op_spName := None; op_params := None |};
                      p_timestamp := 1700000000000 |}).
Proof.
  apply (store_then_lookup (sampleEnv true acceptingPool) "CONF_X_Y" _ emptyWorld);
    vm_compute; discriminate.
Defined.

(** X15.  A lookup touches its own token only: whatever it returns, every
    other entry of the store, the audit log and the database calls are as
    before; and when it returns nothing, its token is no longer in the
    store. *)
Theorem getPendingOperation_own_token (E : Env) (token : string) (w : World) :
  let r := getPendingOperation E token w in
  (forall k, k <> token ->
     pendingOperations (snd r) !! k = pendingOperations w !! k)
  /\ security_audit_log (snd r) = security_audit_log w
  /\ db_calls (snd r) = db_calls w
  /\ (fst r = Returned None -> pendingOperations (snd r) !! token = None)
  /\ (forall p, fst r = Returned (Some p) -> pendingOperations w !! token = Some p).
Proof.
  intros r. subst r.
  destruct (pendingOperations w !! token) as [p|] eqn:Hp.
  - destruct (decide (expired (clock E (clock_reads w)) p)) as [Hex|Hlive].
    + destruct (getPendingOperation_expired E token w p Hp Hex)
        as (w' & -> & Hs & Ha & Hd).
      cbn [fst snd]. rewrite Hs.
      split; [intros k Hk; now apply lookup_delete_ne|].
      split; [exact Ha|]. split; [exact Hd|].
      split; [intros _; apply lookup_delete_eq | discriminate].
    + destruct (getPendingOperation_live E token w p Hp Hlive)
        as (w' & -> & Hs & Ha & Hd & _).
      cbn [fst snd]. rewrite Hs.
      split; [reflexivity|]. split; [exact Ha|]. split; [exact Hd|].
      split; [discriminate | intros q Hq; now inversion Hq].
  - rewrite (getPendingOperation_miss E token w Hp). cbn [fst snd].
    split; [reflexivity|]. split; [reflexivity|]. split; [reflexivity|].
    split; [intros _; exact Hp | discriminate].
Qed.

Lemma getPendingOperation_own_token_witness :
  pendingOperations
    (snd (getPendingOperation (sampleEnv true acceptingPool) "CONF_OTHER"
            (proposedWorld acceptingPool)))
  !! proposedToken acceptingPool
  = pendingOperations (proposedWorld acceptingPool) !! proposedToken acceptingPool.
Proof.
  destruct (getPendingOperation_own_token (sampleEnv true acceptingPool) "CONF_OTHER"
              (proposedWorld acceptingPool)) as (H & _).
  apply H. vm_compute. discriminate.
Defined.

(** X16.  After [removePendingOperation] a lookup of the token returns
    nothing and changes nothing, whether or not the token was stored;
    every other token keeps its entry. *)
Theorem remove_then_lookup (E : Env) (token : string) (w : World) :
  let w' := snd (removePendingOperation token w) in
  getPendingOperation E token w' = (Returned None, w')
  /\ (forall k, k <> token ->
        pendingOperations w' !! k = pendingOperations w !! k)
  /\ security_audit_log w' = security_audit_log w
  /\ db_calls w' = db_calls w.
Proof.
  intros w'. subst w'. unfold removePendingOperation, setPending. cbn [snd].
  split; [|split; [|now split]].
  - apply getPendingOperation_miss. cbn [pendingOperations]. apply lookup_delete_eq.
  - intros k Hk. cbn [pendingOperations]. now apply lookup_delete_ne.
Qed.

Lemma remove_then_lookup_witness :
  pendingOperations (snd (removePendingOperation "CONF_OTHER" (proposedWorld acceptingPool)))
  !! proposedToken acceptingPool
  = pendingOperations (proposedWorld acceptingPool) !! proposedToken acceptingPool.
Proof.
  destruct (remove_then_lookup (sampleEnv true acceptingPool) "CONF_OTHER"
              (proposedWorld acceptingPool)) as (_ & H & _).
  apply H. vm_compute. discriminate.
Defined.

End StoreMore.

(** ** More on the confirmation-token entry points *)

Section GatewayMore.
Import JsString Regex Security SecurityUtils.

(** X17.  A confirmation with a token that is not in the store, or whose
    entry is older than five minutes, returns the invalid-or-expired
    error, sends nothing to the database and writes no audit event; the
    token is not in the store afterwards. *)
Theorem confirm_rejects_stale (E : Env) (token : string) (w : World) :
  (pendingOperations w !! token = None
   \/ exists p, pendingOperations w !! token = Some p
                /\ clock E (clock_reads w) - p_timestamp p > 300000) ->
  let r := TokenGate.mcp_confirm_and_execute E token w in
  fst r = Returned (Failure TokenGate.invalidToken)
  /\ db_calls (snd r) = db_calls w
  /\ security_audit_log (snd r) = security_audit_log w
  /\ pendingOperations (snd r) !! token = None.
Proof.
  intros [Hm | (p & Hp & Hex)] r; subst r.
  - rewrite (confirm_miss E token w Hm). now repeat split.
  - destruct (confirm_expired E token w p Hp Hex) as (w' & -> & Hd & Ha & Hs).
    cbn [fst snd]. rewrite Hs. repeat split; try assumption.
    apply lookup_delete_eq.
Qed.

Lemma confirm_rejects_stale_witness :
  fst (TokenGate.mcp_confirm_and_execute (sampleEnv true acceptingPool)
         "CONF_NEVER_MINTED" (proposedWorld acceptingPool))
  = Returned (Failure TokenGate.invalidToken)
  /\ db_calls (snd (TokenGate.mcp_confirm_and_execute (sampleEnv true acceptingPool)
                      "CONF_NEVER_MINTED" (proposedWorld acceptingPool)))
     = db_calls (proposedWorld acceptingPool).
Proof.
  destruct (confirm_rejects_stale (sampleEnv true acceptingPool) "CONF_NEVER_MINTED"
              (proposedWorld acceptingPool)) as (H1 & H2 & _).
  - left. vm_compute. reflexivity.
  - now split.
Defined.

(** X18.  A statement of ASCII characters that needs no confirmation is
    sent to the database at once, as written, and nothing is stored.  The audit event with
    result SUCCESS is written before the statement runs: when the database
    then rejects the statement, the log holds that SUCCESS event followed
    by a FAILED event with the database error. *)
Theorem token_query_direct (E : Env) (query : string) (w : World) :
  asciiText query ->
  requiresConfirmation (analyzeQuery query) = false ->
  let r := TokenGate.mcp_execute_query E query w in
  let logged (result : AuditResult) (error : option string) :=
    {| log_timestamp := clock E (clock_reads w);
       log_operation := operation (analyzeQuery query);
       log_sql := substring0 500 query;
       log_riskLevel := riskLevel (analyzeQuery query);
       log_userConfirmed := false;
       log_estimatedRows := None; log_affectedTables := None;
       log_result := Some result; log_error := error |} in
  db_calls (snd r) = (db_calls w ++ [Query query])%list
  /\ pendingOperations (snd r) = pendingOperations w
  /\ match pool E (db_calls w) (Query query) with
     | inl result =>
         fst r = Returned (Success (recordset result))
         /\ security_audit_log (snd r)
            = (security_audit_log w ++ [logged SUCCESS None])%list
     | inr error =>
         fst r = Returned (Failure error)
         /\ security_audit_log (snd r)
            = (security_audit_log w
               ++ [logged SUCCESS None; logged FAILED (Some error)])%list
     end.
Proof.
  intros _ Hc r logged. subst r logged.
  cbv [TokenGate.mcp_execute_query bind try_catch now]. rewrite Hc. cbv [negb].
  cbv [logSecurityEvent appendLog send ret].
  cbn [db_calls security_audit_log pendingOperations clock_reads random_reads
       log_timestamp log_operation log_sql log_riskLevel log_userConfirmed
       log_estimatedRows log_affectedTables log_result log_error].
  destruct (pool E (db_calls w) (Query query)) as [res|err];
    cbn [fst snd db_calls security_audit_log pendingOperations].
  - now repeat split.
  - rewrite <- app_assoc. now repeat split.
Qed.

Lemma token_query_direct_witness :
  db_calls (snd (TokenGate.mcp_execute_query (sampleEnv false rejectingPool)
                   "select * from [dbo].[Orders]" emptyWorld))
  = [Query "select * from [dbo].[Orders]"]
  /\ map log_result
       (security_audit_log
          (snd (TokenGate.mcp_execute_query (sampleEnv false rejectingPool)
                  "select * from [dbo].[Orders]" emptyWorld)))
     = [Some SUCCESS; Some FAILED].
Proof.
  destruct (token_query_direct (sampleEnv false rejectingPool)
              "select * from [dbo].[Orders]" emptyWorld eq_refl eq_refl)
    as (Hd & _ & Hl).
  split; [exact Hd|].
  change (pool (sampleEnv false rejectingPool) (db_calls emptyWorld)
            (Query "select * from [dbo].[Orders]"))
    with (@inr QueryResult string "Invalid object name") in Hl.
  destruct Hl as [_ Hl]. rewrite Hl. reflexivity.
Defined.

End GatewayMore.

(** ** From proposal to confirmation *)

Section Protocol.
Import JsString Regex Security SecurityUtils.

Lemma mentions_end (a t : string) : mentions (a +:+ t) t.
Proof. exists a, "". now rewrite append_nil_r. Qed.

Lemma confirmationRequired_mentions (m token : string) :
  mentions (TokenGate.confirmationRequired m token) token.
Proof.
  unfold TokenGate.confirmationRequired.
  do 4 apply mentions_after. apply mentions_end.
Qed.

Lemma stored_lookup (E : Env) (w : World) (o : Operation) :
  clock E (3 + clock_reads w) - clock E (2 + clock_reads w) <= 300000 ->
  storedUnder E w o !! mintedToken E w
  = Some {| p_operation := o; p_timestamp := clock E (2 + clock_reads w) |}.
Proof.
  intros Hs. unfold storedUnder. apply map_lookup_filter_Some.
  split; [apply lookup_insert_eq|].
  unfold expired, maxAge. cbn [snd p_timestamp]. lia.
Qed.

(** X19.  Propose, then confirm.  A statement of ASCII characters that
    requires confirmation is answered with a message that holds the minted
    token, and nothing but what the estimator sends goes to the database.
    If the clock stays within five minutes of the store, a confirmation
    with that token sends the statement as it was proposed (through
    [request.execute] instead of [query] when the reported operation is
    the word STORED_PROCEDURE), followed on success by what the estimator
    sends, and returns the rows affected, or the database error when the
    database rejects it. *)
Theorem propose_then_confirm (E : Env) (query : string) (w : World) :
  asciiText query ->
  requiresConfirmation (analyzeQuery query) = true ->
  clock E (3 + clock_reads w) - clock E (2 + clock_reads w) <= 300000 ->
  clock E (4 + clock_reads w) - clock E (2 + clock_reads w) <= 300000 ->
  let token := mintedToken E w in
  let proposal := TokenGate.mcp_execute_query E query w in
  let call := if String.eqb (operation (analyzeQuery query)) "STORED_PROCEDURE"
              then Execute query [] else Query query in
  let r := TokenGate.mcp_confirm_and_execute E token (snd proposal) in
  (exists msg, fst proposal = Returned (Failure msg) /\ mentions msg token)
  /\ db_calls (snd proposal) = (db_calls w ++ estimatorCalls query)%list
  /\ match pool E (db_calls (snd proposal)) call with
     | inl res =>
         (exists data, fst r = Returned (Success data)
                       /\ TokenGate.ex_rowsAffected data
                          = TokenGate.firstRowsAffected res)
         /\ db_calls (snd r)
            = (db_calls (snd proposal) ++ call :: estimatorCalls query)%list
     | inr err =>
         fst r = Returned (Failure err)
         /\ db_calls (snd r) = (db_calls (snd proposal) ++ [call])%list
     end.
Proof.
  intros _ Hc Hsweep Hconfirm token proposal call r. subst token proposal call r.
  destruct (token_query_gated E query w Hc)
    as (imp & w1 & Hrun & _ & Hcalls & _ & Hstore & Hclock).
  rewrite Hrun. cbn [fst snd].
  split; [eexists; split; [reflexivity | apply confirmationRequired_mentions]|].
  split; [exact Hcalls|].
  match type of Hstore with _ = storedUnder E w ?o =>
    pose proof (stored_lookup E w o Hsweep) as Hp end.
  rewrite <- Hstore in Hp.
  match type of Hp with _ = Some ?p =>
    assert (Hlive : ~ expired (clock E (clock_reads w1)) p)
      by (rewrite Hclock; unfold expired, maxAge; cbn [p_timestamp]; lia);
    assert (Hcall : TokenGate.operationCall (p_operation p)
                    = if String.eqb (operation (analyzeQuery query)) "STORED_PROCEDURE"
                      then Execute query [] else Query query)
      by (unfold TokenGate.operationCall; cbn [p_operation op_operation op_spName
            op_sql op_params]; now destruct (String.eqb _ _), query)
  end.
  rewrite <- Hcall.
  match type of Hp with _ = Some ?p =>
    destruct (pool E (db_calls w1) (TokenGate.operationCall (p_operation p)))
      as [res|err] eqn:Hres end.
  - destruct (confirm_executed E _ w1 _ res Hp Hlive Hres)
      as (data & imp' & w2 & Hr & Hrows & Hd & _).
    rewrite Hr. cbn [fst snd]. split; [now exists data|]. exact Hd.
  - destruct (confirm_failed E _ w1 _ err Hp Hlive Hres) as (w2 & Hr & Hd & _).
    rewrite Hr. cbn [fst snd]. now split.
Qed.

Lemma propose_then_confirm_witness :
  db_calls (snd (TokenGate.mcp_confirm_and_execute (sampleEnv true acceptingPool)
                   (mintedToken (sampleEnv true acceptingPool) emptyWorld)
                   (snd (TokenGate.mcp_execute_query (sampleEnv true acceptingPool)
                           deleteOrder emptyWorld))))
  = [Query countOrder; Query deleteOrder; Query countOrder].
Proof.
  destruct (propose_then_confirm (sampleEnv true acceptingPool) deleteOrder emptyWorld)
    as (_ & Hd & Hr).
  - reflexivity.
  - reflexivity.
  - vm_compute. discriminate.
  - vm_compute. discriminate.
  - assert (Hpool : forall tr c, pool (sampleEnv true acceptingPool) tr c
                                 = inl threeRows) by reflexivity.
    rewrite Hpool in Hr. destruct Hr as [_ Hr]. rewrite Hr, Hd. reflexivity.
Defined.

End Protocol.

Section ProcedureProtocol.
Import JsString Regex Security SecurityUtils.

Lemma exec_statement_not_estimated (sp : string) :
  estimatorCalls ("EXEC " +:+ sp) = [].
Proof.
  destruct (normalized_comment_marker "E" "X" ("EC " +:+ sp) eq_refl eq_refl)
    as [r Hr].
  change (String "E" (String "X" ("EC " +:+ sp))) with ("EXEC " +:+ sp) in Hr.
  unfold estimatorCalls, countQuery. fold (normalized ("EXEC " +:+ sp)).
  rewrite Hr. reflexivity.
Qed.

Lemma token_procedure_gated_clock (E : Env) (sp : string)
    (params : option ParamObject) (w : World) :
  TokenGate.isReadOnlyProcedure sp = false ->
  clock_reads (snd (TokenGate.mcp_execute_procedure E sp params w))
  = (4 + clock_reads w)%nat.
Proof.
  intros Hr.
  cbv [TokenGate.mcp_execute_procedure bind try_catch now].
  rewrite Hr. reflexivity.
Qed.

(** X20.  Propose a stored procedure, then confirm.  A procedure with a
    name of ASCII characters that is not on the read-only whitelist is not
    executed by the proposal: no call goes to the database.  If the clock stays within five minutes of
    the store, the confirmation with the minted token executes the
    procedure under its name with the parameters of the proposal, and that
    is the only database call of the two steps; on success the token is
    removed, on a database error the error is returned. *)
Theorem propose_procedure_then_confirm (E : Env) (sp : string)
    (params : option ParamObject) (w : World) :
  asciiText sp ->
  TokenGate.isReadOnlyProcedure sp = false ->
  sp <> "" ->
  clock E (3 + clock_reads w) - clock E (2 + clock_reads w) <= 300000 ->
  clock E (4 + clock_reads w) - clock E (2 + clock_reads w) <= 300000 ->
  let token := mintedToken E w in
  let proposal := TokenGate.mcp_execute_procedure E sp params w in
  let call := Execute sp (default [] params) in
  let r := TokenGate.mcp_confirm_and_execute E token (snd proposal) in
  db_calls (snd proposal) = db_calls w
  /\ db_calls (snd r) = (db_calls w ++ [call])%list
  /\ match pool E (db_calls w) call with
     | inl res =>
         (exists data, fst r = Returned (Success data)
                       /\ TokenGate.ex_recordset data = default [] (recordset res))
         /\ pendingOperations (snd r) !! token = None
     | inr err => fst r = Returned (Failure err)
     end.
Proof.
  intros _ Hro Hsp Hsweep Hconfirm token proposal call r. subst token proposal call r.
  pose proof (token_procedure_gated_clock E sp params w Hro) as Hclock.
  destruct (token_procedure_gated E sp params w Hro)
    as (msg & w1 & Hrun & Hcalls & _ & Hstore).
  rewrite Hrun in *. cbn [fst snd] in *.
  split; [exact Hcalls|].
  match type of Hstore with _ = storedUnder E w ?o =>
    pose proof (stored_lookup E w o Hsweep) as Hp end.
  rewrite <- Hstore in Hp.
  match type of Hp with _ = Some ?p =>
    assert (Hlive : ~ expired (clock E (clock_reads w1)) p)
      by (rewrite Hclock; unfold expired, maxAge; cbn [p_timestamp]; lia);
    assert (Hcall : TokenGate.operationCall (p_operation p)
                    = Execute sp (default [] params))
      by (unfold TokenGate.operationCall; cbn [p_operation op_operation op_spName
            op_sql op_params String.eqb]; now destruct sp)
  end.
  rewrite <- Hcall, <- Hcalls.
  match type of Hp with _ = Some ?p =>
    destruct (pool E (db_calls w1) (TokenGate.operationCall (p_operation p)))
      as [res|err] eqn:Hres end.
  - destruct (confirm_executed E _ w1 _ res Hp Hlive Hres)
      as (data & imp' & w2 & Hr & _ & Hd & Hs & _).
    rewrite Hr. cbn [fst snd]. cbn [p_operation op_sql] in Hd.
    rewrite exec_statement_not_estimated in Hd.
    split; [exact Hd|]. split.
    + exists data. split; [reflexivity|].
      unfold TokenGate.mcp_confirm_and_execute, try_catch, bind at 1 in Hr.
      destruct (getPendingOperation_live E _ w1 _ Hp Hlive)
        as (w3 & Hg & _ & _ & Hd3 & _).
      rewrite Hg in Hr. cbv [bind send removePendingOperation setPending] in Hr.
      rewrite Hd3, Hres in Hr.
      match type of Hr with context [estimateImpact E ?q ?w4] =>
        destruct (estimateImpact_returns E q w4) as (imp & Himp & _) end.
      rewrite Himp in Hr. cbv [now logSecurityEvent appendLog ret] in Hr.
      now inversion Hr.
    + rewrite Hs. apply lookup_delete_eq.
  - destruct (confirm_failed E _ w1 _ err Hp Hlive Hres) as (w2 & Hr & Hd & _).
    rewrite Hr. cbn [fst snd]. now split.
Qed.

Lemma propose_procedure_then_confirm_witness :
  db_calls
    (snd (TokenGate.mcp_confirm_and_execute (sampleEnv true acceptingPool)
            (mintedToken (sampleEnv true acceptingPool) emptyWorld)
            (snd (TokenGate.mcp_execute_procedure (sampleEnv true acceptingPool)
                    "usp_ArchiveOrders" (Some [("year", "2020")]) emptyWorld))))
  = [Execute "usp_ArchiveOrders" [("year", "2020")]].
Proof.
  destruct (propose_procedure_then_confirm (sampleEnv true acceptingPool)
              "usp_ArchiveOrders" (Some [("year", "2020")]) emptyWorld)
    as (_ & Hd & _).
  - reflexivity.
  - reflexivity.
  - discriminate.
  - vm_compute. discriminate.
  - vm_compute. discriminate.
  - exact Hd.
Defined.

End ProcedureProtocol.

(** ** The audit log as a whole *)

Section AuditMore.
Import JsString Regex Security SecurityUtils.

Lemma substring_length (n m : nat) (s : string) :
  (String.length (String.substring m n s) <= n)%nat.
Proof.
  revert m n. induction s as [|c s IH]; intros m n.
  - destruct m, n; simpl; lia.
  - destruct m as [|m]; simpl.
    + destruct n as [|n]; simpl; [lia|]. specialize (IH 0%nat n). lia.
    + apply IH.
Qed.

Lemma substring0_length (n : nat) (s : string) :
  (String.length (substring0 n s) <= n)%nat.
Proof. unfold substring0. apply substring_length. Qed.

Lemma logged_short (e : LogEntry) (w : World) :
  exists e',
    snd (logSecurityEvent e w)
    = {| pendingOperations := pendingOperations w;
         security_audit_log := (security_audit_log w ++ [e'])%list;
         db_calls := db_calls w;
         clock_reads := clock_reads w;
         random_reads := random_reads w |}
    /\ (String.length (log_sql e') <= 500)%nat.
Proof.
  eexists. split; [reflexivity|]. cbn [log_sql]. apply substring0_length.
Qed.

Lemma token_procedure_direct_audit (E : Env) (sp : string)
    (params : option ParamObject) (w : World) :
  TokenGate.isReadOnlyProcedure sp = true ->
  exists e,
    security_audit_log (snd (TokenGate.mcp_execute_procedure E sp params w))
    = (security_audit_log w ++ [e])%list
    /\ log_sql e = substring0 500 ("EXEC " +:+ sp)
    /\ log_result e = Some match pool E (db_calls w) (Execute sp (default [] params)) with
                           | inl _ => SUCCESS
                           | inr _ => FAILED
                           end.
Proof.
  intros Hr.
  cbv [TokenGate.mcp_execute_procedure bind try_catch now send].
  rewrite Hr. cbn [db_calls].
  destruct (pool E (db_calls w) (Execute sp (default [] params))) as [res|err];
    eexists; (split; [reflexivity|]); now split.
Qed.

Lemma token_query_direct_audit (E : Env) (query : string) (w : World) :
  requiresConfirmation (analyzeQuery query) = false ->
  exists e more,
    security_audit_log (snd (TokenGate.mcp_execute_query E query w))
    = (security_audit_log w ++ e :: more)%list
    /\ log_sql e = substring0 500 query
    /\ match pool E (db_calls w) (Query query) with
       | inl _ => more = []
       | inr _ => exists e', more = [e'] /\ log_sql e' = substring0 500 query
       end.
Proof.
  intros Hc.
  cbv [TokenGate.mcp_execute_query bind try_catch now]. rewrite Hc. cbv [negb].
  cbv [logSecurityEvent appendLog send ret].
  cbn [db_calls security_audit_log pendingOperations clock_reads random_reads].
  destruct (pool E (db_calls w) (Query query)) as [res|err];
    cbn [snd security_audit_log].
  - eexists; eexists. split; [reflexivity|]. now split.
  - rewrite <- app_assoc. eexists; eexists. split; [reflexivity|].
    split; [reflexivity|]. eexists. now split.
Qed.

Ltac short_entries :=
  repeat (apply List.Forall_cons;
          [cbn [log_sql]; first [apply substring0_length | simpl; lia]|]);
  apply List.Forall_nil.

(** X21.  The audit log only grows.  Each call of an entry point of the
    token gate, with a statement or a procedure name of ASCII characters,
    keeps the entries already logged, in order, and appends at most two
    entries, and the statement text of every appended entry is at most 500
    characters long. *)
Theorem audit_log_grows (E : Env) (w : World) :
  let grows (w' : World) :=
    exists new,
      security_audit_log w' = (security_audit_log w ++ new)%list
      /\ (length new <= 2)%nat
      /\ Forall (fun e => (String.length (log_sql e) <= 500)%nat) new in
  (forall query,
     asciiText query -> grows (snd (TokenGate.mcp_execute_query E query w)))
  /\ (forall sp params,
        asciiText sp -> grows (snd (TokenGate.mcp_execute_procedure E sp params w)))
  /\ (forall token, grows (snd (TokenGate.mcp_confirm_and_execute E token w))).
Proof.
  intros grows. subst grows. split; [|split].
  - intros query _.
    destruct (requiresConfirmation (analyzeQuery query)) eqn:Hc.
    + destruct (token_query_gated E query w Hc)
        as (imp & w' & Hrun & _ & _ & Hlog & _).
      rewrite Hrun. cbn [snd]. eexists. split; [exact Hlog|].
      split; [simpl; lia|]. short_entries.
    + destruct (token_query_direct_audit E query w Hc) as (e & more & Hl & Hs & Hm).
      exists (e :: more). split; [exact Hl|].
      destruct (pool E (db_calls w) (Query query)).
      * subst more. split; [simpl; lia|].
        apply List.Forall_cons; [rewrite Hs; apply substring0_length | apply List.Forall_nil].
      * destruct Hm as (e' & -> & Hs'). split; [simpl; lia|].
        repeat (apply List.Forall_cons; [rewrite ?Hs, ?Hs'; apply substring0_length|]).
        apply List.Forall_nil.
  - intros sp params _.
    destruct (TokenGate.isReadOnlyProcedure sp) eqn:Hr.
    + destruct (token_procedure_direct_audit E sp params w Hr) as (e & Hlog & Hs & _).
      exists [e]. split; [exact Hlog|]. split; [simpl; lia|].
      apply List.Forall_cons; [rewrite Hs; apply substring0_length | apply List.Forall_nil].
    + destruct (token_procedure_gated E sp params w Hr)
        as (msg & w' & Hrun & _ & Hlog & _).
      rewrite Hrun. cbn [snd]. eexists. split; [exact Hlog|].
      split; [simpl; lia|]. short_entries.
  - intros token.
    destruct (pendingOperations w !! token) as [p|] eqn:Hp.
    + destruct (decide (expired (clock E (clock_reads w)) p)) as [Hex|Hlive].
      * destruct (confirm_expired E token w p Hp Hex) as (w' & -> & _ & Ha & _).
        exists []. cbn [snd]. rewrite Ha, app_nil_r.
        split; [reflexivity|]. split; [simpl; lia | constructor].
      * destruct (pool E (db_calls w) (TokenGate.operationCall (p_operation p)))
          as [res|err] eqn:Hres.
        -- destruct (confirm_executed E token w p res Hp Hlive Hres)
             as (data & imp & w' & -> & _ & _ & _ & Hlog).
           cbn [snd]. eexists. split; [exact Hlog|]. split; [simpl; lia|].
           short_entries.
        -- destruct (confirm_failed E token w p err Hp Hlive Hres)
             as (w' & -> & _ & _ & Hlog).
           cbn [snd]. eexists. split; [exact Hlog|]. split; [simpl; lia|].
           short_entries.
    + rewrite (confirm_miss E token w Hp). exists []. cbn [snd].
      rewrite app_nil_r. split; [reflexivity|]. split; [simpl; lia | constructor].
Qed.

Lemma audit_log_grows_witness :
  exists new,
    security_audit_log
      (snd (TokenGate.mcp_execute_query (sampleEnv true rejectingPool)
              "select * from [dbo].[Orders]" emptyWorld))
    = (security_audit_log emptyWorld ++ new)%list
    /\ (length new <= 2)%nat
    /\ Forall (fun e => (String.length (log_sql e) <= 500)%nat) new.
Proof.
  destruct (audit_log_grows (sampleEnv true rejectingPool) emptyWorld) as (Hq & _).
  apply Hq. reflexivity.
Defined.

End AuditMore.

(** ** Object names and the data preview *)

Section Names.
Import JsString Utils DataPreview.

Lemma includesChar_app (c : ascii) (a b : string) :
  includesChar c (a +:+ b) = includesChar c a || includesChar c b.
Proof.
  induction a as [|x a IH]; [reflexivity|].
  rewrite append_cons. simpl. rewrite IH. now rewrite orb_assoc.
Qed.

Lemma bracketed_kept (name : string) :
  includesChar "[" name = true -> includesChar "]" name = true ->
  normalizeSqlObjectName name = name.
Proof.
  intros Hl Hr. unfold normalizeSqlObjectName.
  destruct name; [reflexivity|]. now rewrite Hl, Hr.
Qed.

Lemma wrapped_bracketed (a b c : string) :
  normalizeSqlObjectName ("[" +:+ a +:+ b +:+ c +:+ "]") = "[" +:+ a +:+ b +:+ c +:+ "]".
Proof.
  apply bracketed_kept.
  - reflexivity.
  - rewrite !includesChar_app. simpl. now rewrite !orb_true_r.
Qed.

Lemma split_no_sep (sep : ascii) (s : string) :
  includesChar sep s = false -> split sep s = [s].
Proof.
  induction s as [|c s IH]; [reflexivity|].
  simpl. intros H. apply orb_false_iff in H as [Hc Hs].
  rewrite Hc, (IH Hs). reflexivity.
Qed.

Lemma split_at_sep (sep : ascii) (a b : string) :
  includesChar sep a = false ->
  split sep (a +:+ String sep b) = a :: split sep b.
Proof.
  induction a as [|c a IH]; intros H.
  - rewrite append_nil. simpl. now rewrite Ascii.eqb_refl.
  - simpl in H. apply orb_false_iff in H as [Hc Ha].
    rewrite append_cons. simpl. rewrite Hc, (IH Ha). reflexivity.
Qed.

Lemma split_nonempty (sep : ascii) (s : string) : split sep s <> [].
Proof.
  induction s as [|c s IH]; simpl; [discriminate|].
  destruct (Ascii.eqb c sep); [discriminate|].
  destruct (split sep s); [contradiction | discriminate].
Qed.

(** X22.  [normalizeSqlObjectName] is idempotent, and a name that holds
    both an opening and a closing bracket is returned as it is.  Of a name
    without brackets, a name without a dot is put in schema dbo, and a
    dotted name keeps its first two parts only: whatever follows a second
    dot is dropped. *)
Theorem normalizeSqlObjectName_shape (name schema object more : string) :
  normalizeSqlObjectName (normalizeSqlObjectName name) = normalizeSqlObjectName name
  /\ (includesChar "[" name = true -> includesChar "]" name = true ->
      normalizeSqlObjectName name = name)
  /\ (name <> "" -> includesChar "[" name = false -> includesChar "." name = false ->
      normalizeSqlObjectName name = "[dbo].[" +:+ name +:+ "]")
  /\ (includesChar "[" (schema +:+ object +:+ more) = false ->
      includesChar "." schema = false -> includesChar "." object = false ->
      normalizeSqlObjectName (schema +:+ "." +:+ object)
      = "[" +:+ schema +:+ "].[" +:+ object +:+ "]"
      /\ normalizeSqlObjectName (schema +:+ "." +:+ object +:+ "." +:+ more)
         = "[" +:+ schema +:+ "].[" +:+ object +:+ "]").
Proof.
  split; [|split; [|split]].
  - unfold normalizeSqlObjectName at 2 3.
    destruct name as [|c s]; [reflexivity|].
    destruct (includesChar "[" (String c s) && includesChar "]" (String c s)) eqn:Hb.
    + apply andb_true_iff in Hb as [Hl Hr]. now apply bracketed_kept.
    + pose proof (split_nonempty "." (String c s)) as Hne.
      destruct (split "." (String c s)) as [|p [|q ps]]; [contradiction| |].
      * change ("[dbo].[" +:+ p +:+ "]") with ("[" +:+ "dbo" +:+ "].[" +:+ p +:+ "]").
        apply wrapped_bracketed.
      * apply wrapped_bracketed.
  - apply bracketed_kept.
  - intros Hne Hl Hd. unfold normalizeSqlObjectName.
    destruct name as [|c s]; [contradiction|].
    rewrite Hl. cbn [andb]. now rewrite (split_no_sep "." _ Hd).
  - intros Hl Hs Ho.
    rewrite !includesChar_app in Hl.
    apply orb_false_iff in Hl as [Hls Hl]. apply orb_false_iff in Hl as [Hlo Hlm].
    assert (Hone : forall tail, includesChar "[" tail = false ->
              split "." (object +:+ tail) = object :: match tail with
                                                        | "" => []
                                                        | String _ t => split "." t
                                                        end ->
              normalizeSqlObjectName (schema +:+ "." +:+ object +:+ tail)
              = "[" +:+ schema +:+ "].[" +:+ object +:+ "]").
    { intros tail Ht Hsplit. unfold normalizeSqlObjectName.
      destruct (schema +:+ "." +:+ object +:+ tail) as [|c s] eqn:Hn.
      - destruct schema; discriminate.
      - rewrite <- Hn.
        assert (Hb : includesChar "[" (schema +:+ "." +:+ object +:+ tail) = false)
          by (rewrite !includesChar_app, Hls, Hlo, Ht; reflexivity).
        rewrite Hb. cbn [andb].
        change (schema +:+ "." +:+ object +:+ tail)
          with (schema +:+ String "." (object +:+ tail)).
        rewrite (split_at_sep "." schema _ Hs), Hsplit.
        now destruct tail. }
    split.
    + rewrite <- (append_nil_r object) at 1.
      apply Hone; [reflexivity|]. rewrite append_nil_r. now apply split_no_sep.
    + apply Hone.
      * rewrite includesChar_app. simpl. exact Hlm.
      * change ("." +:+ more) with (String "." more).
        now rewrite (split_at_sep "." object more Ho).
Qed.

Lemma normalizeSqlObjectName_shape_witness :
  normalizeSqlObjectName "Orders" = "[dbo].[Orders]"
  /\ normalizeSqlObjectName "sales.Orders" = "[sales].[Orders]"
  /\ normalizeSqlObjectName "shop.sales.Orders" = "[shop].[sales]"
  /\ normalizeSqlObjectName "sec.[User]" = "sec.[User]".
Proof.
  destruct (normalizeSqlObjectName_shape "Orders" "" "" "") as (_ & _ & H1 & _).
  destruct (normalizeSqlObjectName_shape "sec.[User]" "shop" "sales" "Orders")
    as (_ & H2 & _ & H3).
  destruct (normalizeSqlObjectName_shape "" "sales" "Orders" "") as (_ & _ & _ & H4).
  split; [apply H1; [discriminate | reflexivity | reflexivity]|].
  split; [apply H4; reflexivity|].
  split; [apply H3; reflexivity|].
  apply H2; reflexivity.
Defined.

End Names.

Section Preview.
Import JsString Utils DataPreview.

Lemma mapi_keys {B} (f g : string * option string -> nat -> B)
    (xs ys : Filters) (i : nat) :
  map fst xs = map fst ys ->
  (forall k v v' n, f (k, v) n = g (k, v') n) ->
  mapi f i xs = mapi g i ys.
Proof.
  intros Hk Hf. revert ys i Hk. induction xs as [|[k v] xs IH]; intros ys i Hk.
  - destruct ys; [reflexivity | discriminate].
  - destruct ys as [|[k' v'] ys]; [discriminate|].
    simpl in Hk. injection Hk as -> Hk.
    simpl. now rewrite (Hf k' v v' i), (IH ys (S i) Hk).
Qed.

Lemma bindAll_values (xs : Filters) (i : nat) :
  map snd (mapi (fun kv index => (paramName index, snd kv)) i xs) = map snd xs
  /\ map fst (mapi (fun kv index => (paramName index, snd kv)) i xs)
     = map paramName (seq i (length xs)).
Proof.
  revert i. induction xs as [|kv xs IH]; intros i; [now split|].
  simpl. destruct (IH (S i)) as [-> ->]. now split.
Qed.

(** X23.  [mcp_preview_data] passes the filter values as parameters and
    never writes them into the statement: two filter objects with the same
    keys give the same statement text, each filter binds one input, named
    param0, param1, ... in order, with the filter's value; without filters
    the statement is SELECT TOP n * FROM the normalized name with no
    input, and n is 100 when no limit is given.  The tool returns the
    recordset, or the database error when the request is rejected. *)
Theorem preview_is_parameterized (db : Handle) (table_name : string)
    (filters filters' : Filters) (limit : option Z) :
  (map fst filters = map fst filters' ->
     text (previewRequest table_name (Some filters) limit)
     = text (previewRequest table_name (Some filters') limit))
  /\ map snd (inputs (previewRequest table_name (Some filters) limit))
     = map snd filters
  /\ map fst (inputs (previewRequest table_name (Some filters) limit))
     = map paramName (seq 0 (length filters))
  /\ previewRequest table_name None None
     = {| text := "SELECT TOP 100 * FROM " +:+ normalizeSqlObjectName table_name;
          inputs := [] |}
  /\ previewRequest table_name (Some []) limit = previewRequest table_name None limit
  /\ mcp_preview_data db table_name (Some filters) limit
     = match db (previewRequest table_name (Some filters) limit) with
       | inl result => Success (recordset result)
       | inr error => Failure error
       end.
Proof.
  split; [|split; [|split; [|split; [|split]]]]; try reflexivity.
  - intros Hk. unfold previewRequest.
    destruct filters as [|kv kvs], filters' as [|kv' kvs']; try discriminate;
      [reflexivity|].
    cbn [text]. f_equal. f_equal. f_equal.
    apply mapi_keys; [exact Hk | reflexivity].
  - unfold previewRequest. destruct filters as [|kv kvs]; [reflexivity|].
    cbn [inputs]. apply bindAll_values.
  - unfold previewRequest. destruct filters as [|kv kvs]; [reflexivity|].
    cbn [inputs]. apply bindAll_values.
Qed.

Lemma preview_is_parameterized_witness :
  text (previewRequest "Orders" (Some [("Status", Some "'open'")]) (Some 5))
  = text (previewRequest "Orders" (Some [("Status", Some "'x'; DROP TABLE Orders --")])
            (Some 5)).
Proof.
  destruct (preview_is_parameterized (fun _ => inr "") "Orders"
              [("Status", Some "'open'")]
              [("Status", Some "'x'; DROP TABLE Orders --")] (Some 5)) as (H & _).
  apply H. reflexivity.
Defined.

(** X24.  [mcp_preview_data_enhanced] first asks for the columns of the
    table and gives up with the database error when that request is
    rejected, without sending the preview.  Its preview statement depends
    on the filter keys and on which values are null only: a null filter
    becomes IS NULL, every other filter an equality with its parameter,
    and every filter, null or not, binds one input. *)
Theorem enhanced_preview_requests (db : Handle) (table_name : string)
    (filters filters' : Filters) (limit : option Z) (err : string) :
  (db {| text := columnsQuery (normalizeSqlObjectName table_name); inputs := [] |}
     = inr err ->
   mcp_preview_data_enhanced db table_name (Some filters) limit = Failure err)
  /\ (map fst filters = map fst filters' ->
      map (fun kv => bool_decide (snd kv = None)) filters
      = map (fun kv => bool_decide (snd kv = None)) filters' ->
      text (enhancedRequest table_name (Some filters) limit)
      = text (enhancedRequest table_name (Some filters') limit))
  /\ map snd (inputs (enhancedRequest table_name (Some filters) limit))
     = map snd filters.
Proof.
  split; [|split].
  - intros H. unfold mcp_preview_data_enhanced. now rewrite H.
  - intros Hk Hn. unfold enhancedRequest.
    destruct filters as [|kv kvs], filters' as [|kv' kvs']; try discriminate;
      [reflexivity|].
    cbn [text]. f_equal. f_equal. f_equal. f_equal.
    generalize 0%nat. revert Hk Hn.
    generalize (kv :: kvs) (kv' :: kvs'). clear.
    induction l as [|[k v] xs IH]; intros ys Hk Hn i.
    + destruct ys; [reflexivity | discriminate].
    + destruct ys as [|[k' v'] ys]; [discriminate|].
      simpl in Hk, Hn. injection Hk as -> Hk. injection Hn as Hv Hn.
      simpl. rewrite (IH ys Hk Hn (S i)).
      destruct v, v'; try reflexivity; discriminate.
  - unfold enhancedRequest. destruct filters as [|kv kvs]; [reflexivity|].
    cbn [inputs]. apply bindAll_values.
Qed.

Lemma enhanced_preview_requests_witness :
  mcp_preview_data_enhanced (fun _ => inr "Login failed") "Orders"
    (Some [("Closed", None)]) None
  = Failure "Login failed"
  /\ text (enhancedRequest "Orders" (Some [("Closed", None); ("Id", Some "7")]) None)
     = "SELECT TOP 100 * FROM [dbo].[Orders] WHERE [Closed] IS NULL AND [Id] = @param1 ORDER BY (SELECT NULL)".
Proof.
  destruct (enhanced_preview_requests (fun _ => inr "Login failed") "Orders"
              [("Closed", None)] [("Closed", None)] None "Login failed") as (H & _).
  split; [apply H; reflexivity | reflexivity].
Defined.

End Preview.

(** ** The confirmation token *)

Section Token.
Import JsString SecurityStatus SecurityUtils.

Lemma digit36_code (d : N) :
  (d < 36)%N ->
  N_of_ascii (digit36 d) = (if (d <? 10)%N then 48 + d else 87 + d)%N.
Proof.
  intros Hd. unfold digit36. destruct (N.ltb_spec d 10).
  - apply N_ascii_embedding. lia.
  - rewrite N_ascii_embedding by lia. lia.
Qed.

Lemma digit36_inj (a b : N) :
  (a < 36)%N -> (b < 36)%N -> digit36 a = digit36 b -> a = b.
Proof.
  intros Ha Hb H. apply (f_equal N_of_ascii) in H.
  rewrite !digit36_code in H by assumption.
  destruct (N.ltb_spec a 10), (N.ltb_spec b 10); lia.
Qed.

(** A digit of base 36 is a digit or a small letter: no underscore, and
    lower-casing leaves it as it is. *)
Lemma digit36_plain (d : N) :
  (d < 36)%N -> digit36 d <> "_"%char /\ upper (digit36 d) <> "_"%char
                /\ lower (upper (digit36 d)) = digit36 d.
Proof.
  intros Hd.
  assert (Hc : exists n, (n < 36)%nat /\ d = N.of_nat n)
    by (exists (N.to_nat d); split; lia).
  destruct Hc as (n & Hn & ->).
  do 36 (destruct n as [|n]; [repeat split; try discriminate; reflexivity|]).
  lia.
Qed.

Lemma toString36_go_plain (fuel : nat) (n : N) (acc : string) :
  plain36 acc -> plain36 (toString36_go fuel n acc).
Proof.
  revert n acc. induction fuel as [|fuel IH]; intros n acc Hacc.
  - simpl. constructor; [apply digit36_plain, N.mod_lt; lia | exact Hacc].
  - simpl. destruct (n / 36 =? 0)%N.
    + constructor; [apply digit36_plain, N.mod_lt; lia | exact Hacc].
    + apply IH. constructor; [apply digit36_plain, N.mod_lt; lia | exact Hacc].
Qed.

Lemma toString36_go_app (fuel : nat) (n : N) (acc : string) :
  toString36_go fuel n acc = toString36_go fuel n "" +:+ acc.
Proof.
  revert n acc. induction fuel as [|fuel IH]; intros n acc; [reflexivity|].
  simpl. destruct (n / 36 =? 0)%N; [reflexivity|].
  rewrite (IH _ (String _ acc)), (IH _ (String _ "")).
  now rewrite append_assoc.
Qed.

Lemma toString36_go_nonempty (fuel : nat) (n : N) (acc : string) :
  toString36_go fuel n acc <> "".
Proof.
  revert n acc. induction fuel as [|fuel IH]; intros n acc; simpl; [discriminate|].
  destruct (n / 36 =? 0)%N; [discriminate | apply IH].
Qed.

Lemma append_last_inj (a b : string) (x y : ascii) :
  a +:+ String x "" = b +:+ String y "" -> a = b /\ x = y.
Proof.
  revert b. induction a as [|c a IH]; intros b H.
  - destruct b as [|d [|e b]]; [now inversion H | discriminate | discriminate].
  - destruct b as [|d b].
    + destruct a; discriminate.
    + rewrite !append_cons in H. injection H as -> H.
      destruct (IH b H) as [-> ->]. now split.
Qed.

Lemma toString36_go_inj (f1 : nat) :
  forall (f2 : nat) (n m : N),
    (n < 2 ^ N.of_nat (S f1))%N -> (m < 2 ^ N.of_nat (S f2))%N ->
    toString36_go f1 n "" = toString36_go f2 m "" -> n = m.
Proof.
  induction f1 as [|f1 IH]; intros f2 n m Hn Hm H.
  - assert (Hn36 : (n / 36 = 0)%N) by (apply N.div_small; simpl in Hn; lia).
    assert (Hnm : (n mod 36 = n)%N) by (apply N.mod_small; simpl in Hn; lia).
    simpl in H. destruct f2 as [|f2]; simpl in H.
    + injection H as H. apply digit36_inj in H; try (apply N.mod_lt; lia).
      assert (m mod 36 = m)%N by (apply N.mod_small; simpl in Hm; lia). lia.
    + destruct (N.eqb_spec (m / 36) 0) as [Hm0|Hm0].
      * injection H as H. apply digit36_inj in H; try (apply N.mod_lt; lia).
        assert (m mod 36 = m)%N
          by (apply N.mod_small; apply N.div_small_iff in Hm0; lia). lia.
      * rewrite toString36_go_app in H.
        change (String (digit36 (n mod 36)) "")
          with ("" +:+ String (digit36 (n mod 36)) "") in H.
        apply append_last_inj in H as [H _]. symmetry in H.
        now apply toString36_go_nonempty in H.
  - simpl in H. destruct (N.eqb_spec (n / 36) 0) as [Hn0|Hn0].
    + destruct f2 as [|f2]; simpl in H.
      * injection H as H. apply digit36_inj in H; try (apply N.mod_lt; lia).
        assert (m mod 36 = m)%N by (apply N.mod_small; simpl in Hm; lia).
        assert (n mod 36 = n)%N
          by (apply N.mod_small; apply N.div_small_iff in Hn0; lia). lia.
      * destruct (N.eqb_spec (m / 36) 0) as [Hm0|Hm0].
        -- injection H as H. apply digit36_inj in H; try (apply N.mod_lt; lia).
           assert (m mod 36 = m)%N
             by (apply N.mod_small; apply N.div_small_iff in Hm0; lia).
           assert (n mod 36 = n)%N
             by (apply N.mod_small; apply N.div_small_iff in Hn0; lia). lia.
        -- rewrite toString36_go_app in H.
           change (String (digit36 (n mod 36)) "")
             with ("" +:+ String (digit36 (n mod 36)) "") in H.
           apply append_last_inj in H as [H _]. symmetry in H.
           now apply toString36_go_nonempty in H.
    + destruct f2 as [|f2]; simpl in H.
      * rewrite toString36_go_app in H.
        change (String (digit36 (m mod 36)) "")
          with ("" +:+ String (digit36 (m mod 36)) "") in H.
        apply append_last_inj in H as [H _].
        now apply toString36_go_nonempty in H.
      * destruct (N.eqb_spec (m / 36) 0) as [Hm0|Hm0].
        -- rewrite toString36_go_app in H.
           change (String (digit36 (m mod 36)) "")
             with ("" +:+ String (digit36 (m mod 36)) "") in H.
           apply append_last_inj in H as [H _].
           now apply toString36_go_nonempty in H.
        -- rewrite (toString36_go_app f1), (toString36_go_app f2) in H.
           apply append_last_inj in H as [H Hd].
           apply digit36_inj in Hd; try (apply N.mod_lt; lia).
           assert (Hq : (n / 36 = m / 36)%N).
           { apply (IH f2); [| |exact H].
             - apply N.Div0.div_lt_upper_bound.
               rewrite Nat2N.inj_succ, N.pow_succ_r' in Hn. lia.
             - apply N.Div0.div_lt_upper_bound.
               rewrite Nat2N.inj_succ, N.pow_succ_r' in Hm. lia. }
           rewrite (N.div_mod n 36), (N.div_mod m 36) by lia. lia.
Qed.

Lemma toString36_inj (a b : Z) :
  0 <= a -> 0 <= b -> toString36 a = toString36 b -> a = b.
Proof.
  intros Ha Hb H. unfold toString36 in H.
  assert (Hfuel : forall n : N, (n < 2 ^ N.of_nat (S (N.to_nat (N.log2 n))))%N).
  { intros n. rewrite Nat2N.inj_succ, N2Nat.id.
    destruct (N.eq_dec n 0%N) as [->|Hn]; [reflexivity|].
    apply N.log2_spec. lia. }
  apply toString36_go_inj in H; [lia | apply Hfuel | apply Hfuel].
Qed.

Lemma toString36_plain (z : Z) : plain36 (toString36 z).
Proof. unfold toString36. apply toString36_go_plain. constructor. Qed.

Lemma plain36_lower_upper (s : string) :
  plain36 s -> toLowerCase (toUpperCase s) = s.
Proof.
  unfold plain36. induction s as [|c s IH]; [reflexivity|].
  simpl. intros H. inversion H as [|? ? (_ & _ & Hc) Hs]; subst.
  now rewrite Hc, (IH Hs).
Qed.

Lemma underscore_split (a b x y : string) :
  plain36 a -> plain36 b ->
  toUpperCase a +:+ String "_" x = toUpperCase b +:+ String "_" y ->
  toUpperCase a = toUpperCase b.
Proof.
  unfold plain36. revert b. induction a as [|c a IH]; intros b Ha Hb H.
  - destruct b as [|d b]; [reflexivity|].
    simpl in Hb. inversion Hb as [|? ? (_ & Hd & _) _]; subst.
    simpl in H. rewrite append_nil, append_cons in H. injection H as H _.
    now contradiction Hd.
  - simpl in Ha. inversion Ha as [|? ? (_ & Hc & _) Ha']; subst.
    destruct b as [|d b].
    + simpl in H. rewrite append_nil, append_cons in H. injection H as H _.
      now contradiction Hc.
    + simpl in Hb. inversion Hb as [|? ? _ Hb']; subst.
      simpl in H. rewrite !append_cons in H. injection H as Hcd H.
      simpl. now rewrite Hcd, (IH b Ha' Hb' H).
Qed.

(** X25.  [generateConfirmationToken] reads the clock and the random
    source once each and leaves the store, the audit log and the database
    alone.  With random parts of ASCII characters, the token starts with
    CONF_ and holds no small letter (upper-casing it changes nothing), and
    two tokens minted at different clock readings are different, whatever
    their random parts. *)
Theorem generateConfirmationToken_format (E E' : Env) (w w' : World) :
  asciiText (random E (random_reads w)) ->
  asciiText (random E' (random_reads w')) ->
  (exists token,
     generateConfirmationToken E w
     = (Returned token,
        {| pendingOperations := pendingOperations w;
           security_audit_log := security_audit_log w;
           db_calls := db_calls w;
           clock_reads := S (clock_reads w);
           random_reads := S (random_reads w) |})
     /\ String.prefix "CONF_" token = true
     /\ toUpperCase token = token)
  /\ (0 <= clock E (clock_reads w) -> 0 <= clock E' (clock_reads w') ->
      fst (generateConfirmationToken E w) = fst (generateConfirmationToken E' w') ->
      clock E (clock_reads w) = clock E' (clock_reads w')).
Proof.
  intros _ _. split.
  - cbv [generateConfirmationToken bind now nextRandom ret].
    cbn [pendingOperations security_audit_log db_calls clock_reads random_reads].
    eexists. split; [reflexivity|]. split.
    + rewrite toUpperCase_append. apply prefix_split. eexists. reflexivity.
    + apply toUpperCase_idem.
  - intros Ht Ht' H.
    cbv [generateConfirmationToken bind now nextRandom ret fst] in H.
    injection H as H. rewrite !toUpperCase_append in H.
    change (toUpperCase "") with "" in H.
    change (toUpperCase "_") with "_" in H.
    rewrite !append_nil, !append_cons, !append_nil in H.
    apply underscore_split in H; try apply toString36_plain.
    apply (f_equal toLowerCase) in H.
    rewrite !plain36_lower_upper in H by apply toString36_plain.
    now apply toString36_inj.
Qed.

Lemma generateConfirmationToken_format_witness :
  fst (generateConfirmationToken (sampleEnv true acceptingPool) emptyWorld)
  <> fst (generateConfirmationToken (sampleEnv true acceptingPool)
            (snd (generateConfirmationToken (sampleEnv true acceptingPool) emptyWorld))).
Proof.
  intros H.
  destruct (generateConfirmationToken_format (sampleEnv true acceptingPool)
              (sampleEnv true acceptingPool) emptyWorld
              (snd (generateConfirmationToken (sampleEnv true acceptingPool) emptyWorld))
              eq_refl eq_refl)
    as (_ & Hd).
  assert (Hc : 1700000000000 + 1000 * Z.of_nat 0 = 1700000000000 + 1000 * Z.of_nat 1).
  { apply Hd; [vm_compute; discriminate | vm_compute; discriminate | exact H]. }
  vm_compute in Hc. discriminate.
Defined.

End Token.

(** ** The confirmation message *)

Section Message.
Import JsString SecurityUtils.

Lemma mentions_start (t b : string) : mentions (t +:+ b) t.
Proof. exists "", b. reflexivity. Qed.

Ltac find_mention :=
  first [ apply mentions_start
        | apply mentions_end
        | apply mentions_after; find_mention
        | apply mentions_before; find_mention ].

(** X26.  The message of [createSecurityConfirmationMessage] always holds
    the operation, the risk level, the reason and the token; it holds the
    list of affected tables when there is one, the estimated number of
    rows when it is positive, the warning when there is one, and the first
    200 characters of the statement when a statement is given. *)
Theorem confirmation_message_holds (analysis : Analysis) (impact : Impact)
    (token : string) (sql spName : option string) (params : option ParamObject) :
  let msg := createSecurityConfirmationMessage analysis impact token sql spName params in
  mentions msg (operation analysis)
  /\ mentions msg (riskText (riskLevel analysis))
  /\ mentions msg (reason analysis)
  /\ mentions msg token
  /\ (affectedTables impact <> [] -> mentions msg (joinTables (affectedTables impact)))
  /\ (0 < estimatedRows impact -> mentions msg (ofZ (estimatedRows impact)))
  /\ (forall text, warning impact = Some text -> text <> "" -> mentions msg text)
  /\ (forall text, sql = Some text -> text <> "" -> mentions msg (substring0 200 text)).
Proof.
  intros msg. subst msg. unfold createSecurityConfirmationMessage.
  split; [find_mention|]. split; [find_mention|]. split; [find_mention|].
  split; [find_mention|]. split; [|split; [|split]].
  - intros Ht. destruct (affectedTables impact) as [|t ts]; [contradiction|].
    cbv iota. find_mention.
  - intros Hr. apply Z.ltb_lt in Hr. rewrite Hr. find_mention.
  - intros text Hw Hne. rewrite Hw. destruct text; [contradiction|].
    cbn [truthy]. find_mention.
  - intros text -> Hne. destruct text; [contradiction|].
    cbn [truthy]. find_mention.
Qed.

Lemma confirmation_message_holds_witness :
  mentions
    (createSecurityConfirmationMessage (analyzeQuery deleteOrder)
       {| estimatedRows := 3; affectedTables := ["[dbo].[Orders]"]; warning := None |}
       "CONF_A_B" (Some deleteOrder) None None)
    "[dbo].[Orders]"
  /\ mentions
       (createSecurityConfirmationMessage (analyzeQuery deleteOrder)
          {| estimatedRows := 3; affectedTables := ["[dbo].[Orders]"]; warning := None |}
          "CONF_A_B" (Some deleteOrder) None None)
       "3".
Proof.
  destruct (confirmation_message_holds (analyzeQuery deleteOrder)
              {| estimatedRows := 3; affectedTables := ["[dbo].[Orders]"];
                 warning := None |}
              "CONF_A_B" (Some deleteOrder) None None)
    as (_ & _ & _ & _ & Ht & Hr & _).
  split; [apply Ht; discriminate | apply Hr; reflexivity].
Defined.

End Message.

(** ** The connection *)

Section Connection.
Import Db.

(** X27.  On a disconnected state [connectDB] makes one connection
    attempt.  When the attempt succeeds, [getPool] returns that pool and a
    second [connectDB] returns it without a new attempt and without
    changing the state; when the attempt fails, the error is thrown, the
    state is disconnected again, [getPool] throws its not-connected error,
    and the next [connectDB] makes a new attempt. *)
Theorem connectDB_lifecycle (connect : nat -> Attempt) (n : nat) :
  let r := connectDB connect (disconnected n) in
  match connect n with
  | inl p =>
      fst r = inl p
      /\ getPool (snd r) = inl p
      /\ connectDB connect (snd r) = (inl p, snd r)
      /\ attempts (snd r) = S n
  | inr err =>
      fst r = inr err
      /\ snd r = disconnected (S n)
      /\ getPool (snd r) = inr "Database not connected. Call connectDB first."
      /\ fst (connectDB connect (snd r)) = connect (S n)
  end.
Proof.
  intros r.
  assert (Hr : r = match connect n with
                   | inl p =>
                       (inl p,
                        {| pool_ := Some p; isConnecting := false;
                           connectionPromise := Some (inl p); attempts := S n |})
                   | inr err => (inr err, disconnected (S n))
                   end).
  { subst r. unfold connectDB. cbn [disconnected pool_ isConnecting attempts].
    now destruct (connect n). }
  clearbody r. subst r.
  destruct (connect n) as [p|err]; cbn [fst snd].
  - repeat split.
  - repeat split. unfold connectDB.
    cbn [disconnected pool_ isConnecting attempts].
    now destruct (connect (S n)).
Qed.

(** X28.  After [closePool] the state is disconnected, whether or not the
    close itself succeeded: [getPool] throws its not-connected error and
    [connectDB] makes a new connection attempt.  On a state without a pool
    [closePool] changes nothing. *)
Theorem closePool_disconnects (connect : nat -> Attempt) (closes : nat -> bool)
    (s : State) :
  (pool_ s = None -> closePool closes s = s)
  /\ (forall p, pool_ s = Some p ->
        closePool closes s = disconnected (attempts s)
        /\ getPool (closePool closes s)
           = inr "Database not connected. Call connectDB first."
        /\ fst (connectDB connect (closePool closes s)) = connect (attempts s)).
Proof.
  split.
  - intros H. unfold closePool. now rewrite H.
  - intros p H. unfold closePool. rewrite H. repeat split.
    unfold connectDB. cbn [disconnected pool_ isConnecting attempts].
    now destruct (connect (attempts s)).
Qed.

Lemma closePool_disconnects_witness :
  getPool (closePool (fun _ => false)
             (snd (connectDB (fun _ => inl 1%nat) (disconnected 0))))
  = inr "Database not connected. Call connectDB first.".
Proof.
  destruct (closePool_disconnects (fun _ => inl 1%nat) (fun _ => false)
              (snd (connectDB (fun _ => inl 1%nat) (disconnected 0)))) as (_ & H).
  destruct (H 1%nat eq_refl) as (_ & Hg & _). exact Hg.
Defined.

End Connection.
